(** * GstPEAQ: model output variables (MOVs) and their accumulation

    A shallow embedding of [src/peaq/src/movs.c] together with the MOV
    accumulator whose interface is declared in [src/peaq/src/movaccum.h].

    - A [gdouble] is a value of an abstract carrier [D] equipped with the
      operations the C code uses ([DoubleOps]).  Everything that only depends
      on the order of the operations is proved for every carrier, hence also
      for IEEE 754 binary64.  Statements that need laws of arithmetic are
      proved for the instance [R_ops], that is in exact real arithmetic:
      rounding, infinities and NaN are outside that instance.  The bounds on
      the detection probability are also proved for [Rnd_ops rnd], where
      every operation is followed by a rounding [rnd].
    - A C array ([gdouble const *], an array of object pointers) is a function
      from the index; the loops of the source never leave the bounds the
      callers guarantee.
    - A call of [peaq_movaccum_accumulate] is recorded, in program order, in
      the list of calls a MOV function returns. *)

From Stdlib Require Import Reals Lra Lia List Bool Arith PeanoNat.
Import ListNotations.

Declare Scope dbl_scope.
Delimit Scope dbl_scope with D.

(** ** The arithmetic of [gdouble] *)

Class DoubleOps (D : Type) : Type := {
  lit : R -> D;                 (* a decimal literal of the source *)
  of_uint : nat -> D;           (* conversion of a guint or int *)
  dadd : D -> D -> D;
  dsub : D -> D -> D;
  dmul : D -> D -> D;
  ddiv : D -> D -> D;
  dneg : D -> D;
  dlt : D -> D -> bool;         (* a < b *)
  dle : D -> D -> bool;         (* a <= b *)
  deqb : D -> D -> bool;        (* a == b *)
  d_exp : D -> D;
  d_log : D -> D;
  d_log10 : D -> D;
  d_sqrt : D -> D;
  d_cos : D -> D;
  d_fabs : D -> D;
  d_trunc : D -> D;
  d_floor : D -> D;
  d_pow : D -> D -> D
}.

Arguments lit {D _} _%_R.

Infix "+" := dadd : dbl_scope.
Infix "-" := dsub : dbl_scope.
Infix "*" := dmul : dbl_scope.
Infix "/" := ddiv : dbl_scope.
Notation "- x" := (dneg x) : dbl_scope.
Notation "x <? y" := (dlt x y) : dbl_scope.
Notation "x >? y" := (dlt y x) : dbl_scope.
Notation "x >=? y" := (dle y x) : dbl_scope.
Notation "x =? y" := (deqb x y) : dbl_scope.

(** [MAX] of glib: [(((a) > (b)) ? (a) : (b))]. *)
Definition MAX {D} `{DoubleOps D} (a b : D) : D :=
  if (a >? b)%D then a else b.

(** [M_PI] of math.h. *)
Definition M_PI {D} `{DoubleOps D} : D := lit 3.14159265358979323846.

(** ** movaccum.h *)

Inductive PeaqMovAccumMode : Type :=
| MODE_AVG
| MODE_AVG_LOG
| MODE_RMS
| MODE_RMS_ASYM
| MODE_AVG_WINDOW
| MODE_FILTERED_MAX
| MODE_ADB.

Definition PeaqMovAccumMode_eqb (a b : PeaqMovAccumMode) : bool :=
  match a, b with
  | MODE_AVG, MODE_AVG | MODE_AVG_LOG, MODE_AVG_LOG | MODE_RMS, MODE_RMS
  | MODE_RMS_ASYM, MODE_RMS_ASYM | MODE_AVG_WINDOW, MODE_AVG_WINDOW
  | MODE_FILTERED_MAX, MODE_FILTERED_MAX | MODE_ADB, MODE_ADB => true
  | _, _ => false
  end.

(** [alter_at c f l] applies [f] to the element of index [c]; a list shorter
    than [c] is left as it is. *)
Fixpoint alter_at {A : Type} (c : nat) (f : A -> A) (l : list A) : list A :=
  match l, c with
  | [], _ => []
  | a :: t, O => f a :: t
  | a :: t, S c' => a :: alter_at c' f t
  end.

Module MovAccum.
Section Model.
Context {D : Type} `{DoubleOps D}.
Local Open Scope dbl_scope.

(** Modelled from the spec: movaccum.c is missing, only movaccum.h is
    there.  The per-channel state of section 3 of the specification: the two
    running sums ([num] over [den] in the table of section 4.1), the number
    of accumulations of RMS_ASYM, the FIFO of the last three square roots
    and the number of complete windows of AVG_WINDOW, and the filter state
    and its running maximum of FILTERED_MAX. *)
Record ChannelData : Type := {
  num : D;
  den : D;
  frames : nat;
  fifo : list D;
  windows : nat;
  filt : D;
  filt_max : D
}.

(** Modelled from the spec: the state of a channel of an accumulator that has
    just been created (all sums 0, empty FIFO, y0 = 0). *)
Definition empty_channel : ChannelData :=
  {| num := lit 0; den := lit 0; frames := 0; fifo := []; windows := 0;
     filt := lit 0; filt_max := lit 0 |}.

(** Modelled from the spec: movaccum.c is missing.  One accumulation
    [(x, w)] into the state of one channel, for each reduction mode of the
    table in section 4.1. *)
Definition accumulate_channel (m : PeaqMovAccumMode) (x w : D)
    (s : ChannelData) : ChannelData :=
  match m with
  | MODE_AVG | MODE_AVG_LOG | MODE_ADB =>
      {| num := num s + w * x; den := den s + w; frames := frames s;
         fifo := fifo s; windows := windows s;
         filt := filt s; filt_max := filt_max s |}
  | MODE_RMS =>
      {| num := num s + (w * w) * (x * x); den := den s + w * w;
         frames := frames s; fifo := fifo s; windows := windows s;
         filt := filt s; filt_max := filt_max s |}
  | MODE_RMS_ASYM =>
      {| num := num s + x * x; den := den s + w * w;
         frames := S (frames s); fifo := fifo s; windows := windows s;
         filt := filt s; filt_max := filt_max s |}
  | MODE_AVG_WINDOW =>
      let sx := d_sqrt x in
      match fifo s with
      | [x1; x2; x3] =>
          let v := lit 0.25 * (x3 + x2 + x1 + sx) in
          {| num := num s + (v * v) * (v * v); den := den s;
             frames := frames s; fifo := [sx; x1; x2];
             windows := S (windows s);
             filt := filt s; filt_max := filt_max s |}
      | older =>
          {| num := num s; den := den s; frames := frames s;
             fifo := sx :: older; windows := windows s;
             filt := filt s; filt_max := filt_max s |}
      end
  | MODE_FILTERED_MAX =>
      let y := lit 0.9 * filt s + lit 0.1 * x in
      {| num := num s; den := den s; frames := frames s; fifo := fifo s;
         windows := windows s;
         filt := y; filt_max := MAX y (filt_max s) |}
  end.

(** Modelled from the spec: movaccum.c is missing.  The per-channel result
    X_c of the table in section 4.1. *)
Definition channel_value (m : PeaqMovAccumMode) (s : ChannelData) : D :=
  match m with
  | MODE_AVG => num s / den s
  | MODE_AVG_LOG => lit 10 * d_log10 (num s / den s)
  | MODE_RMS => d_sqrt (num s / den s)
  | MODE_RMS_ASYM =>
      d_sqrt (num s / of_uint (frames s))
      + lit 0.5 * d_sqrt (den s / of_uint (frames s))
  | MODE_AVG_WINDOW =>
      match windows s with
      | O => lit 0
      | S _ => d_sqrt (num s / of_uint (windows s))
      end
  | MODE_FILTERED_MAX => filt_max s
  | MODE_ADB =>
      if den s =? lit 0 then lit 0
      else if num s =? lit 0 then - lit 0.5
      else d_log10 (num s / den s)
  end.

(** Modelled from the spec: movaccum.c is missing.  The accumulator of
    sections 3 and 4.1: the mode (unset until [peaq_movaccum_set_mode]), the
    channel count, the committed per-channel state, its shadow copy and the
    tentative flag. *)
Record PeaqMovAccum : Type := {
  mode : option PeaqMovAccumMode;
  channels : nat;
  data : list ChannelData;
  shadow : list ChannelData;
  tentative : bool
}.

(** Modelled from the spec: accumulators are created empty. *)
Definition peaq_movaccum_new : PeaqMovAccum :=
  {| mode := None; channels := 0; data := []; shadow := [];
     tentative := false |}.

(** Modelled from the spec: fixes the channel count and allocates the
    per-channel state. *)
Definition peaq_movaccum_set_channels (acc : PeaqMovAccum) (n : nat)
    : PeaqMovAccum :=
  {| mode := mode acc; channels := n; data := repeat empty_channel n;
     shadow := repeat empty_channel n; tentative := tentative acc |}.

(** Modelled from the spec: the getter declared in movaccum.h. *)
Definition peaq_movaccum_get_channels (acc : PeaqMovAccum) : nat :=
  channels acc.

(** Modelled from the spec: sets the reduction mode. *)
Definition peaq_movaccum_set_mode (acc : PeaqMovAccum)
    (m : PeaqMovAccumMode) : PeaqMovAccum :=
  {| mode := Some m; channels := channels acc; data := data acc;
     shadow := shadow acc; tentative := tentative acc |}.

(** Modelled from the spec: the getter declared in movaccum.h. *)
Definition peaq_movaccum_get_mode (acc : PeaqMovAccum)
    : option PeaqMovAccumMode :=
  mode acc.

(** Modelled from the spec: setting the flag copies the committed state into
    the shadow (section 3, and the staging layer of section 9); clearing it
    promotes the shadow to the committed state. *)
Definition peaq_movaccum_set_tentative (acc : PeaqMovAccum) (b : bool)
    : PeaqMovAccum :=
  if b then
    {| mode := mode acc; channels := channels acc; data := data acc;
       shadow := data acc; tentative := true |}
  else if tentative acc then
    {| mode := mode acc; channels := channels acc; data := shadow acc;
       shadow := shadow acc; tentative := false |}
  else acc.

(** Modelled from the spec: folds [(x, w)] into channel [c], in the shadow
    when the accumulator is tentative.  Accumulating before the mode is set
    or into a channel that does not exist is the contract violation of
    section 4.1: [None]. *)
Definition peaq_movaccum_accumulate (acc : PeaqMovAccum) (c : nat)
    (val weight : D) : option PeaqMovAccum :=
  match mode acc with
  | None => None
  | Some m =>
      if (c <? channels acc)%nat then
        if tentative acc then
          Some {| mode := mode acc; channels := channels acc;
                  data := data acc;
                  shadow := alter_at c (accumulate_channel m val weight)
                                     (shadow acc);
                  tentative := true |}
        else
          Some {| mode := mode acc; channels := channels acc;
                  data := alter_at c (accumulate_channel m val weight)
                                   (data acc);
                  shadow := shadow acc; tentative := false |}
      else None
  end.

(** Modelled from the spec: the cross-channel aggregation of section 4.1,
    read from the committed state: the arithmetic mean of the per-channel
    results, channel 0 alone for FILTERED_MAX and ADB. *)
Definition peaq_movaccum_get_value (acc : PeaqMovAccum) : option D :=
  match mode acc with
  | None => None
  | Some m =>
      match m with
      | MODE_FILTERED_MAX | MODE_ADB =>
          Some (channel_value m (nth 0 (data acc) empty_channel))
      | _ =>
          Some (fold_left (fun s ch => s + channel_value m ch)
                          (data acc) (lit 0)
                / of_uint (channels acc))
      end
  end.

(** A sequence of accumulations [(c, x, w)], performed in order. *)
Fixpoint accumulate_all (l : list (nat * D * D)) (acc : PeaqMovAccum)
    : option PeaqMovAccum :=
  match l with
  | [] => Some acc
  | (c, x, w) :: t =>
      match peaq_movaccum_accumulate acc c x w with
      | Some acc' => accumulate_all t acc'
      | None => None
      end
  end.

(** An accumulator that has been created and configured. *)
Definition configured (n : nat) (m : PeaqMovAccumMode) : PeaqMovAccum :=
  peaq_movaccum_set_mode (peaq_movaccum_set_channels peaq_movaccum_new n) m.

End Model.

Arguments ChannelData : clear implicits.
Arguments PeaqMovAccum : clear implicits.

End MovAccum.

(** ** settings.h *)

(** settings.h is missing from the sources: the compile-time switches that
    movs.c tests are the fields of a record the MOV functions take. *)
Record Settings : Type := {
  SWAP_MOD_PATTS_FOR_NOISE_LOUDNESS_MOVS : bool;
  CENTER_EHS_CORRELATION_WINDOW : bool;
  EHS_SUBTRACT_DC_BEFORE_WINDOW : bool;
  USE_FLOOR_FOR_STEPS_ABOVE_THRESHOLD : bool
}.

(** Modelled from the spec: settings.h is missing.  The values section 9 of
    the specification pins: no swap, window centred at the middle, mean
    subtracted after windowing, trunc. *)
Definition pinned_settings : Settings :=
  {| SWAP_MOD_PATTS_FOR_NOISE_LOUDNESS_MOVS := false;
     CENTER_EHS_CORRELATION_WINDOW := false;
     EHS_SUBTRACT_DC_BEFORE_WINDOW := false;
     USE_FLOOR_FOR_STEPS_ABOVE_THRESHOLD := false |}.

(** ** movs.c *)

Definition MAXLAG : nat := 256.

(** The accumulator parameters of the MOV functions. *)
Inductive AccumArg : Type :=
| mov_accum
| mov_accum_ref
| mov_accum_test
| mov_accum_nmr
| mov_accum_rel_dist_frames
| mov_accum_adb
| mov_accum_mfpd.

Definition AccumArg_eqb (a b : AccumArg) : bool :=
  match a, b with
  | mov_accum, mov_accum | mov_accum_ref, mov_accum_ref
  | mov_accum_test, mov_accum_test | mov_accum_nmr, mov_accum_nmr
  | mov_accum_rel_dist_frames, mov_accum_rel_dist_frames
  | mov_accum_adb, mov_accum_adb | mov_accum_mfpd, mov_accum_mfpd => true
  | _, _ => false
  end.

(** The downward search loops of [peaq_mov_bandwidth]:
    [bw = 0; for (i = n; i > 0; i--) if (p (i - 1)) { bw = i; break; }]. *)
Fixpoint search_down (p : nat -> bool) (n : nat) : nat :=
  match n with
  | O => O
  | S j => if p j then S j else search_down p j
  end.

Section Movs.
Context {D : Type} `{DoubleOps D}.
Local Open Scope dbl_scope.

Definition FIVE_DB_POWER_FACTOR : D := lit 3.16227766016838.
Definition ONE_POINT_FIVE_DB_POWER_FACTOR : D := lit 1.41253754462275.

(** The objects movs.c reads through getters declared in headers that are
    not part of the sources (earmodel.h, fftearmodel.h, leveladapt.h) or
    implemented elsewhere (modpatt.h): each is the record of what its
    getters return. *)
Record PeaqEarModel : Type := {
  peaq_earmodel_get_band_count : nat;
  peaq_earmodel_get_frame_size : nat;
  peaq_earmodel_get_internal_noise : nat -> D
}.

Record PeaqFFTEarModel : Type := {
  PEAQ_EARMODEL : PeaqEarModel;
  peaq_fftearmodel_get_masking_difference : nat -> D;
  (* the band powers written to the output array *)
  peaq_fftearmodel_group_into_bands : (nat -> D) -> nat -> D
}.

(** The state of an ear model for one channel (a [gpointer]). *)
Record EarModelState : Type := {
  state_excitation : nat -> D;
  peaq_fftearmodel_get_power_spectrum : nat -> D;
  peaq_fftearmodel_get_weighted_power_spectrum : nat -> D;
  peaq_fftearmodel_is_energy_threshold_reached : bool
}.

Definition peaq_earmodel_get_excitation (ear_model : PeaqEarModel)
    (state : EarModelState) : nat -> D :=
  state_excitation state.

Record PeaqModulationProcessor : Type := {
  peaq_modulationprocessor_get_ear_model : PeaqEarModel;
  peaq_modulationprocessor_get_average_loudness : nat -> D;
  peaq_modulationprocessor_get_modulation : nat -> D
}.

Record PeaqLevelAdapter : Type := {
  peaq_leveladapter_get_adapted_ref : nat -> D;
  peaq_leveladapter_get_adapted_test : nat -> D
}.

(** One call [peaq_movaccum_accumulate (acc, c, val, weight)]. *)
Record AccumCall : Type := Accumulate {
  call_accum : AccumArg;
  call_channel : nat;
  call_val : D;
  call_weight : D
}.

(** The [(val, weight)] pairs a list of calls gives to channel [c] of the
    accumulator [a], in order. *)
Definition calls_on (a : AccumArg) (c : nat) (l : list AccumCall)
    : list (D * D) :=
  map (fun k => (call_val k, call_weight k))
      (filter (fun k => AccumArg_eqb (call_accum k) a
                        && Nat.eqb (call_channel k) c) l).

(** The calls of a list that go to the accumulator [a], performed on it. *)
Definition apply_calls (a : AccumArg) (l : list AccumCall)
    (acc : MovAccum.PeaqMovAccum D) : option (MovAccum.PeaqMovAccum D) :=
  MovAccum.accumulate_all
    (map (fun k => (call_channel k, call_val k, call_weight k))
         (filter (fun k => AccumArg_eqb (call_accum k) a) l))
    acc.

(** *** calc_noise_loudness *)

(** The term of band [i], (66) to (68) in BS.1387. *)
Definition noise_loudness_numerator (thres_fac S0 : D)
    (ref_modulation test_modulation ref_excitation test_excitation
       : nat -> D) (i : nat) : D :=
  let sref := thres_fac * ref_modulation i + S0 in
  let stest := thres_fac * test_modulation i + S0 in
  let ep_ref := ref_excitation i in
  let ep_test := test_excitation i in
  MAX (stest * ep_test - sref * ep_ref) (lit 0).

Definition noise_loudness_band (alpha thres_fac S0 : D)
    (ear_model : PeaqEarModel)
    (ref_modulation test_modulation ref_excitation test_excitation
       : nat -> D) (i : nat) : D :=
  let sref := thres_fac * ref_modulation i + S0 in
  let stest := thres_fac * test_modulation i + S0 in
  let ethres := peaq_earmodel_get_internal_noise ear_model i in
  let ep_ref := ref_excitation i in
  let ep_test := test_excitation i in
  let beta := d_exp (- alpha * (ep_test - ep_ref) / ep_ref) in
  d_pow (ethres / stest) (lit 0.23) *
  (d_pow (lit 1 +
          noise_loudness_numerator thres_fac S0 ref_modulation
            test_modulation ref_excitation test_excitation i /
          (ethres + sref * ep_ref * beta)) (lit 0.23) - lit 1).

(** The value of [noise_loudness] after [noise_loudness *= 24. / band_count],
    before the comparison with [NLmin]. *)
Definition noise_loudness_scaled (alpha thres_fac S0 : D)
    (ref_mod_proc test_mod_proc : PeaqModulationProcessor)
    (ref_excitation test_excitation : nat -> D) : D :=
  let ear_model := peaq_modulationprocessor_get_ear_model ref_mod_proc in
  let band_count := peaq_earmodel_get_band_count ear_model in
  let ref_modulation :=
    peaq_modulationprocessor_get_modulation ref_mod_proc in
  let test_modulation :=
    peaq_modulationprocessor_get_modulation test_mod_proc in
  fold_left
    (fun noise_loudness i =>
       noise_loudness +
       noise_loudness_band alpha thres_fac S0 ear_model ref_modulation
         test_modulation ref_excitation test_excitation i)
    (seq 0 band_count) (lit 0)
  * (lit 24 / of_uint band_count).

Definition calc_noise_loudness (alpha thres_fac S0 NLmin : D)
    (ref_mod_proc test_mod_proc : PeaqModulationProcessor)
    (ref_excitation test_excitation : nat -> D) : D :=
  let noise_loudness :=
    noise_loudness_scaled alpha thres_fac S0 ref_mod_proc test_mod_proc
      ref_excitation test_excitation in
  if noise_loudness <? NLmin then lit 0 else noise_loudness.

(** *** peaq_mov_lin_dist *)

Definition peaq_mov_lin_dist (cfg : Settings)
    (ref_mod_proc test_mod_proc : nat -> PeaqModulationProcessor)
    (level : nat -> PeaqLevelAdapter) (state : nat -> EarModelState)
    (mov_accum_channels : nat) : list AccumCall :=
  let ear_model := peaq_modulationprocessor_get_ear_model (ref_mod_proc 0%nat) in
  map (fun c =>
         let ref_adapted_excitation :=
           peaq_leveladapter_get_adapted_ref (level c) in
         let ref_excitation :=
           peaq_earmodel_get_excitation ear_model (state c) in
         let noise_loudness :=
           if SWAP_MOD_PATTS_FOR_NOISE_LOUDNESS_MOVS cfg then
             calc_noise_loudness (lit 1.5) (lit 0.15) (lit 1) (lit 0)
               (ref_mod_proc c) (ref_mod_proc c) ref_adapted_excitation
               ref_excitation
           else
             calc_noise_loudness (lit 1.5) (lit 0.15) (lit 1) (lit 0)
               (ref_mod_proc c) (test_mod_proc c) ref_adapted_excitation
               ref_excitation in
         Accumulate mov_accum c noise_loudness (lit 1))
      (seq 0 mov_accum_channels).

(** *** peaq_mov_bandwidth *)

Definition bandwidth_zero_threshold (test_power_spectrum : nat -> D) : D :=
  fold_left
    (fun zero_threshold i =>
       if test_power_spectrum i >=? zero_threshold
       then test_power_spectrum i else zero_threshold)
    (seq 922 102) (test_power_spectrum 921%nat).

Definition bandwidth_bw_ref (ref_power_spectrum : nat -> D)
    (zero_threshold : D) : nat :=
  search_down
    (fun j => ref_power_spectrum j >? lit 10 * zero_threshold) 921.

Definition bandwidth_bw_test (test_power_spectrum : nat -> D)
    (zero_threshold : D) (bw_ref : nat) : nat :=
  search_down
    (fun j => test_power_spectrum j >=? FIVE_DB_POWER_FACTOR * zero_threshold)
    bw_ref.

(** The body of the loop over the channels. *)
Definition peaq_mov_bandwidth_channel
    (ref_state test_state : nat -> EarModelState) (c : nat)
    : list AccumCall :=
  let ref_power_spectrum :=
    peaq_fftearmodel_get_power_spectrum (ref_state c) in
  let test_power_spectrum :=
    peaq_fftearmodel_get_power_spectrum (test_state c) in
  let zero_threshold := bandwidth_zero_threshold test_power_spectrum in
  let bw_ref := bandwidth_bw_ref ref_power_spectrum zero_threshold in
  if (346 <? bw_ref)%nat then
    let bw_test :=
      bandwidth_bw_test test_power_spectrum zero_threshold bw_ref in
    [Accumulate mov_accum_ref c (of_uint bw_ref) (lit 1);
     Accumulate mov_accum_test c (of_uint bw_test) (lit 1)]
  else [].

Definition peaq_mov_bandwidth (ref_state test_state : nat -> EarModelState)
    (mov_accum_ref_channels : nat) : list AccumCall :=
  flat_map (peaq_mov_bandwidth_channel ref_state test_state)
           (seq 0 mov_accum_ref_channels).

(** *** peaq_mov_nmr *)

  (** [noise_spectrum], written for the [frame_size / 2 + 1] bins that
      [peaq_fftearmodel_group_into_bands] reads. *)
Definition nmr_noise_spectrum
    (ref_weighted_power_spectrum test_weighted_power_spectrum : nat -> D)
    : nat -> D :=
  fun i =>
    ref_weighted_power_spectrum i -
    lit 2 * d_sqrt (ref_weighted_power_spectrum i *
                    test_weighted_power_spectrum i) +
    test_weighted_power_spectrum i.

  (** [curr_nmr] of band [i], (26) and (70) in BS.1387. *)
Definition nmr_curr_nmr (ear_model : PeaqFFTEarModel)
    (ref_state test_state : nat -> EarModelState) (c i : nat) : D :=
  let masking_difference :=
    peaq_fftearmodel_get_masking_difference ear_model in
  let ref_excitation :=
    peaq_earmodel_get_excitation (PEAQ_EARMODEL ear_model) (ref_state c) in
  let noise_in_bands :=
    peaq_fftearmodel_group_into_bands ear_model
      (nmr_noise_spectrum
         (peaq_fftearmodel_get_weighted_power_spectrum (ref_state c))
         (peaq_fftearmodel_get_weighted_power_spectrum (test_state c))) in
  let mask := ref_excitation i / masking_difference i in
  noise_in_bands i / mask.

(** The pair [(nmr, nmr_max)] after the loop over the bands. *)
Definition nmr_band_loop (ear_model : PeaqFFTEarModel)
    (ref_state test_state : nat -> EarModelState) (c : nat) : D * D :=
  let band_count :=
    peaq_earmodel_get_band_count (PEAQ_EARMODEL ear_model) in
  fold_left
    (fun st i =>
       let curr_nmr := nmr_curr_nmr ear_model ref_state test_state c i in
       (fst st + curr_nmr,
        if curr_nmr >? snd st then curr_nmr else snd st))
    (seq 0 band_count) (lit 0, lit 0).

(** The body of the loop over the channels. *)
Definition peaq_mov_nmr_channel (ear_model : PeaqFFTEarModel)
    (ref_state test_state : nat -> EarModelState)
    (mov_accum_nmr_mode : PeaqMovAccumMode)
    (mov_accum_rel_dist_frames_given : bool) (c : nat) : list AccumCall :=
  let band_count :=
    peaq_earmodel_get_band_count (PEAQ_EARMODEL ear_model) in
  let st := nmr_band_loop ear_model ref_state test_state c in
  let nmr := fst st / of_uint band_count in
  let nmr_max := snd st in
  (if PeaqMovAccumMode_eqb mov_accum_nmr_mode MODE_AVG_LOG
   then [Accumulate mov_accum_nmr c nmr (lit 1)]
   else [Accumulate mov_accum_nmr c (lit 10 * d_log10 nmr) (lit 1)])
  ++
  (if mov_accum_rel_dist_frames_given
   then [Accumulate mov_accum_rel_dist_frames c
           (if nmr_max >? ONE_POINT_FIVE_DB_POWER_FACTOR
            then lit 1 else lit 0) (lit 1)]
   else []).

Definition peaq_mov_nmr (ear_model : PeaqFFTEarModel)
    (ref_state test_state : nat -> EarModelState)
    (mov_accum_nmr_channels : nat) (mov_accum_nmr_mode : PeaqMovAccumMode)
    (mov_accum_rel_dist_frames_given : bool) : list AccumCall :=
  flat_map
    (peaq_mov_nmr_channel ear_model ref_state test_state mov_accum_nmr_mode
       mov_accum_rel_dist_frames_given)
    (seq 0 mov_accum_nmr_channels).

(** *** peaq_mov_prob_detect *)

(** (74) in BS.1387: the effective detection step size. *)
Definition detection_step_size (l : D) : D :=
  if l >? lit 0
  then lit 5.95072 * d_pow (lit 6.39468 / l) (lit 1.71332) +
       lit 9.01033e-11 * d_pow l (lit 4) +
       lit 5.05622e-6 * d_pow l (lit 3) -
       lit 0.00102438 * l * l + lit 0.0550197 * l - lit 0.198719
  else lit 1e30.

(** The pair [(pc, qc)] of band [i] and channel [c]. *)
Definition prob_detect_pc_qc (cfg : Settings) (ear_model : PeaqEarModel)
    (ref_state test_state : nat -> EarModelState) (i c : nat) : D * D :=
  let ref_excitation :=
    peaq_earmodel_get_excitation ear_model (ref_state c) in
  let test_excitation :=
    peaq_earmodel_get_excitation ear_model (test_state c) in
  let eref_db := lit 10 * d_log10 (ref_excitation i) in
  let etest_db := lit 10 * d_log10 (test_excitation i) in
  let l := lit 0.3 * MAX eref_db etest_db + lit 0.7 * etest_db in
  let s := detection_step_size l in
  let e := eref_db - etest_db in
  let b := if eref_db >? etest_db then lit 4 else lit 6 in
  let pc := lit 1 - d_pow (lit 0.5) (d_pow (e / s) b) in
  let qc :=
    if USE_FLOOR_FOR_STEPS_ABOVE_THRESHOLD cfg
    then d_fabs (d_floor e) / s
    else d_fabs (d_trunc e) / s in
  (pc, qc).

(** The pair [(detection_probability, detection_steps)] of band [i] after
    the loop over the channels. *)
Definition prob_detect_band (cfg : Settings) (ear_model : PeaqEarModel)
    (ref_state test_state : nat -> EarModelState) (channels i : nat)
    : D * D :=
  fold_left
    (fun st c =>
       let pq := prob_detect_pc_qc cfg ear_model ref_state test_state i c in
       (if fst pq >? fst st then fst pq else fst st,
        if Nat.eqb c 0 || (snd pq >? snd st) then snd pq else snd st))
    (seq 0 channels) (lit 0, lit 0).

(** The pair [(binaural_detection_probability, binaural_detection_steps)]
    after the loop over the bands. *)
Definition prob_detect_bands (cfg : Settings) (ear_model : PeaqEarModel)
    (ref_state test_state : nat -> EarModelState) (channels : nat)
    : D * D :=
  let band_count := peaq_earmodel_get_band_count ear_model in
  fold_left
    (fun st i =>
       let band :=
         prob_detect_band cfg ear_model ref_state test_state channels i in
       (fst st * (lit 1 - fst band), snd st + snd band))
    (seq 0 band_count) (lit 1, lit 0).

Definition peaq_mov_prob_detect (cfg : Settings) (ear_model : PeaqEarModel)
    (ref_state test_state : nat -> EarModelState) (channels : nat)
    : list AccumCall :=
  let st := prob_detect_bands cfg ear_model ref_state test_state channels in
  let binaural_detection_probability := lit 1 - fst st in
  let binaural_detection_steps := snd st in
  (if binaural_detection_probability >? lit 0.5
   then [Accumulate mov_accum_adb 0 binaural_detection_steps (lit 1)]
   else [])
  ++ [Accumulate mov_accum_mfpd 0 binaural_detection_probability (lit 1)].

(** *** do_xcorr and peaq_mov_ehs *)

Record GstFFTF64Complex : Type := { r : D; i : D }.

Section EHS.
(** The real FFT of GStreamer and its inverse for a plan of the given
    length ([gst_fft_f64_new (len, inverse)]): an external library. *)
Variable gst_fft_f64_fft : nat -> (nat -> D) -> nat -> GstFFTF64Complex.
Variable gst_fft_f64_inverse_fft :
  nat -> (nat -> GstFFTF64Complex) -> nat -> D.

(** The first [MAXLAG] entries of the result are the array [c]. *)
Definition do_xcorr (d : nat -> D) : nat -> D :=
  let timedata := d in
  let freqdata1 := gst_fft_f64_fft (2 * MAXLAG) timedata in
  let timedata := fun k => if (k <? MAXLAG)%nat then d k else lit 0 in
  let freqdata2 := gst_fft_f64_fft (2 * MAXLAG) timedata in
  let freqdata1 :=
    fun k =>
      {| r := (r (freqdata1 k) * r (freqdata2 k)
               + i (freqdata1 k) * i (freqdata2 k))
              / of_uint (2 * MAXLAG);
         i := (r (freqdata2 k) * i (freqdata1 k)
               - r (freqdata1 k) * i (freqdata2 k))
              / of_uint (2 * MAXLAG) |} in
  gst_fft_f64_inverse_fft (2 * MAXLAG) freqdata1.

Definition correlation_window (cfg : Settings) (k : nat) : D :=
  if CENTER_EHS_CORRELATION_WINDOW cfg
  then lit 0.81649658092773 *
       (lit 1 + d_cos (lit 2 * M_PI * of_uint k
                       / of_uint (2 * MAXLAG - 1))) / of_uint MAXLAG
  else lit 0.81649658092773 *
       (lit 1 - d_cos (lit 2 * M_PI * of_uint k
                       / of_uint (MAXLAG - 1))) / of_uint MAXLAG.

Definition ehs_d (ref_power_spectrum test_power_spectrum : nat -> D)
    : nat -> D :=
  fun k =>
    let fref := ref_power_spectrum k in
    let ftest := test_power_spectrum k in
    if (fref =? lit 0) && (ftest =? lit 0) then lit 0
    else d_log (ftest / fref).

    (** [dk] at the start of iteration [k] of the normalisation loop. *)
Fixpoint ehs_dk (d : nat -> D) (d0 : D) (k : nat) : D :=
  match k with
  | O => d0
  | S j =>
      ehs_dk d d0 j
      + (d (j + MAXLAG)%nat * d (j + MAXLAG)%nat - d j * d j)
  end.

(** The array [c] that is given to the FFT of length [MAXLAG]. *)
Definition ehs_windowed (cfg : Settings) (d c : nat -> D) : nat -> D :=
  let d0 := c 0%nat in
  if EHS_SUBTRACT_DC_BEFORE_WINDOW cfg then
    let c1 := fun k => c k / d_sqrt (d0 * ehs_dk d d0 k) in
    let cavg :=
      fold_left (fun cavg k => cavg + c1 k) (seq 0 MAXLAG) (of_uint 0)
      / of_uint MAXLAG in
    fun k => (c1 k - cavg) * correlation_window cfg k
  else
    fun k => c k * (correlation_window cfg k
                    / d_sqrt (d0 * ehs_dk d d0 k)).

(** The peak scan: [ehs] after the loop over the bins 1 to MAXLAG / 2. *)
Definition ehs_peak (cfg : Settings)
    (c_fft : nat -> GstFFTF64Complex) : D :=
  let c_fft0 :=
    if EHS_SUBTRACT_DC_BEFORE_WINDOW cfg then c_fft 0%nat
    else {| r := of_uint 0; i := i (c_fft 0%nat) |} in
  let s := r c_fft0 * r c_fft0 + i c_fft0 * i c_fft0 in
  snd (fold_left
         (fun st k =>
            let new_s :=
              r (c_fft k) * r (c_fft k) + i (c_fft k) * i (c_fft k) in
            (new_s,
             if (new_s >? fst st) && (new_s >? snd st)
             then new_s else snd st))
         (seq 1 (MAXLAG / 2)) (s, lit 0)).

(** The value of [ehs] for channel [chan]. *)
Definition ehs_channel (cfg : Settings)
    (ref_state test_state : nat -> EarModelState) (chan : nat) : D :=
  let ref_power_spectrum :=
    peaq_fftearmodel_get_weighted_power_spectrum (ref_state chan) in
  let test_power_spectrum :=
    peaq_fftearmodel_get_weighted_power_spectrum (test_state chan) in
  let d := ehs_d ref_power_spectrum test_power_spectrum in
  let c := do_xcorr d in
  let c := ehs_windowed cfg d c in
  ehs_peak cfg (gst_fft_f64_fft MAXLAG c).

Definition ehs_valid (ref_state test_state : nat -> EarModelState)
    (channels : nat) : bool :=
  existsb
    (fun chan =>
       peaq_fftearmodel_is_energy_threshold_reached (ref_state chan)
       || peaq_fftearmodel_is_energy_threshold_reached (test_state chan))
    (seq 0 channels).

Definition peaq_mov_ehs (cfg : Settings) (ear_model : PeaqEarModel)
    (ref_state test_state : nat -> EarModelState)
    (mov_accum_channels : nat) : list AccumCall :=
  let channels := mov_accum_channels in
  if negb (ehs_valid ref_state test_state channels) then []
  else
    map (fun chan =>
           Accumulate mov_accum chan
             (lit 1000 * ehs_channel cfg ref_state test_state chan)
             (lit 1))
        (seq 0 channels).

End EHS.

End Movs.

Arguments PeaqEarModel : clear implicits.
Arguments PeaqFFTEarModel : clear implicits.
Arguments EarModelState : clear implicits.
Arguments PeaqModulationProcessor : clear implicits.
Arguments PeaqLevelAdapter : clear implicits.
Arguments AccumCall : clear implicits.
Arguments GstFFTF64Complex : clear implicits.

(** ** Exact real arithmetic *)

Definition Rlt_bool (a b : R) : bool := if Rlt_dec a b then true else false.
Definition Rle_bool (a b : R) : bool := if Rle_dec a b then true else false.
Definition Req_bool (a b : R) : bool := if Req_dec_T a b then true else false.

(** [trunc] and [floor] of math.h. *)
Definition c_floor (x : R) : R := IZR (Int_part x).
Definition c_trunc (x : R) : R :=
  if Rle_dec 0 x then IZR (Int_part x) else (- IZR (Int_part (- x)))%R.

(** [pow] of math.h where its result is a real number: a positive base, or
    an integral exponent.  A negative base with a fractional exponent (NaN in
    C) is outside the instance, and so is a zero base with a negative
    exponent (an infinity in C). *)
Definition c_pow (x y : R) : R :=
  if Rlt_dec 0 x then Rpower x y
  else if Req_dec_T y (IZR (Int_part y)) then powerRZ x (Int_part y)
  else 0%R.

Definition c_log10 (x : R) : R := (ln x / ln 10)%R.

#[export] Instance R_ops : DoubleOps R := {|
  lit := fun x => x;
  of_uint := INR;
  dadd := Rplus;
  dsub := Rminus;
  dmul := Rmult;
  ddiv := Rdiv;
  dneg := Ropp;
  dlt := Rlt_bool;
  dle := Rle_bool;
  deqb := Req_bool;
  d_exp := exp;
  d_log := ln;
  d_log10 := c_log10;
  d_sqrt := sqrt;
  d_cos := cos;
  d_fabs := Rabs;
  d_trunc := c_trunc;
  d_floor := c_floor;
  d_pow := c_pow
|}.

(** ** Sequencing of fallible steps *)

Definition obind {A B : Type} (o : option A) (f : A -> option B) : option B :=
  match o with
  | Some a => f a
  | None => None
  end.

(** ** Concrete frames used in the examples *)

Module Examples.
Local Open Scope R_scope.

Definition ear_model1 : PeaqEarModel R :=
  {| peaq_earmodel_get_band_count := 1;
     peaq_earmodel_get_frame_size := 2048;
     peaq_earmodel_get_internal_noise := fun _ => 1 |}.

Definition mod_proc (m : R) : PeaqModulationProcessor R :=
  {| peaq_modulationprocessor_get_ear_model := ear_model1;
     peaq_modulationprocessor_get_average_loudness := fun _ => 1;
     peaq_modulationprocessor_get_modulation := fun _ => m |}.

Definition level1 : PeaqLevelAdapter R :=
  {| peaq_leveladapter_get_adapted_ref := fun _ => 1;
     peaq_leveladapter_get_adapted_test := fun _ => 1 |}.

(** A state with the given excitation, power spectrum and flag. *)
Definition state_of (exc : R) (spectrum : nat -> R) (flag : bool)
    : EarModelState R :=
  {| state_excitation := fun _ => exc;
     peaq_fftearmodel_get_power_spectrum := spectrum;
     peaq_fftearmodel_get_weighted_power_spectrum := spectrum;
     peaq_fftearmodel_is_energy_threshold_reached := flag |}.

Definition state1 : EarModelState R := state_of 1 (fun _ => 1) true.

(** A reference state whose power spectrum is 100 below bin [b] and 0
    from bin [b] on. *)
Definition ref_bw (b : nat) : EarModelState R :=
  state_of 1 (fun j => if (j <? b)%nat then 100 else 0) true.

Definition fft_ear_model1 : PeaqFFTEarModel R :=
  {| PEAQ_EARMODEL := ear_model1;
     peaq_fftearmodel_get_masking_difference := fun _ => 1;
     peaq_fftearmodel_group_into_bands := fun spectrum k => spectrum k |}.

(** Stand-ins for the external FFT, enough to run [peaq_mov_ehs]. *)
Definition fft0 (len : nat) (timedata : nat -> R) (k : nat)
    : GstFFTF64Complex R :=
  {| r := 0; i := 0 |}.
Definition inverse_fft0 (len : nat) (freqdata : nat -> GstFFTF64Complex R)
  (k : nat) : R := 0.

End Examples.

(** ** The vocabulary of the specification *)

(** [m] is the maximum of [F] over the bins [lo .. hi]. *)
Definition is_max_on (F : nat -> R) (lo hi : nat) (m : R) : Prop :=
  (exists i, lo <= i <= hi /\ F i = m) /\
  (forall i, lo <= i <= hi -> (F i <= m)%R).

(** [b] is the largest [i] in [1 .. hi] with [P i], and 0 when there is
    none. *)
Definition largest_index_with (hi : nat) (P : nat -> Prop) (b : nat) : Prop :=
  (1 <= b <= hi /\ P b /\ forall i, b < i <= hi -> ~ P i) \/
  (b = 0 /\ forall i, 1 <= i <= hi -> ~ P i).

(** The sum and the product of [f k] for the bands [k < n]. *)
Definition Rsum (f : nat -> R) (n : nat) : R :=
  fold_right Rplus 0%R (map f (seq 0 n)).
Definition Rprod (f : nat -> R) (n : nat) : R :=
  fold_right Rmult 1%R (map f (seq 0 n)).

(** The maximum of [f c] for the channels [c < n], [n] at least 1. *)
Definition Rmax_over (f : nat -> R) (n : nat) : R :=
  fold_right Rmax (f 0%nat) (map f (seq 1 (n - 1))).

(** Section 4.2.5 of the specification, in its words: the detection
    probability and the number of steps above the threshold of a frame, from
    the excitations [excitation_ref c k] and [excitation_test c k] of
    channel [c] and band [k]. *)
Module DetectionSpec.
Local Open Scope R_scope.

Definition step_size (L : R) : R :=
  if Rle_dec L 0 then 1e30
  else 5.95072 * Rpower (6.39468 / L) 1.71332
       + 9.01033e-11 * L ^ 4 + 5.05622e-6 * L ^ 3
       - 0.00102438 * L ^ 2 + 0.0550197 * L - 0.198719.

Section Band.
Variables excitation_ref excitation_test : R.

Definition Er_dB : R := 10 * (ln excitation_ref / ln 10).
Definition Et_dB : R := 10 * (ln excitation_test / ln 10).
Definition L : R := 0.3 * Rmax Er_dB Et_dB + 0.7 * Et_dB.
Definition s : R := step_size L.
Definition e : R := Er_dB - Et_dB.
Definition b : nat := if Rlt_dec Et_dB Er_dB then 4 else 6.
Definition p_c : R := 1 - Rpower 0.5 ((e / s) ^ b).
End Band.

Section Frame.
Variables excitation_ref excitation_test : nat -> nat -> R.
Variables channels Z : nat.

Definition p_bin (k : nat) : R :=
  Rmax_over (fun c => p_c (excitation_ref c k) (excitation_test c k)) channels.
Definition P_bin : R := 1 - Rprod (fun k => 1 - p_bin k) Z.
End Frame.

End DetectionSpec.

(** ** Sequences of accumulations *)

(** The accumulations of a sequence that go to channel [c]. *)
Definition entries_on {D : Type} (c : nat) (l : list (nat * D * D))
    : list (D * D) :=
  map (fun e => (snd (fst e), snd e))
      (filter (fun e => Nat.eqb (fst (fst e)) c) l).


(** The totals of the table of section 4.1 of the specification for a list
    of pairs [(x, w)]: the sum of the weights and the weighted sum of the
    values. *)
Definition total_weight (es : list (R * R)) : R :=
  fold_right Rplus 0%R (map snd es).
Definition total_weighted (es : list (R * R)) : R :=
  fold_right Rplus 0%R (map (fun e => snd e * fst e)%R es).

(** The committed data after one accumulation [e = (c, x, w)] in mode [m]. *)
Definition data_step {D : Type} `{DoubleOps D} (m : PeaqMovAccumMode)
    (d : list (MovAccum.ChannelData D)) (e : nat * D * D)
    : list (MovAccum.ChannelData D) :=
  alter_at (fst (fst e))
           (MovAccum.accumulate_channel m (snd (fst e)) (snd e)) d.

(** The committed run [a] and the staged run [s] of the same accumulations:
    what [s] holds in its shadow is what [a] has committed. *)
Definition staged {D : Type} `{DoubleOps D} (a s : MovAccum.PeaqMovAccum D)
    : Prop :=
  MovAccum.tentative a = false /\ MovAccum.tentative s = true /\
  MovAccum.mode s = MovAccum.mode a /\
  MovAccum.channels s = MovAccum.channels a /\
  MovAccum.shadow s = MovAccum.data a.



(** ** Rounded arithmetic *)

(** [gdouble] arithmetic with rounding: every operation returns the rounding
    [rnd] of its exact result.  A comparison, a negation and [fabs] are exact
    on the values they are given.  With the identity as [rnd] this is
    [R_ops]. *)
Definition Rnd_ops (rnd : R -> R) : DoubleOps R := {|
  lit := fun x => rnd x;
  of_uint := fun n => rnd (INR n);
  dadd := fun a b => rnd (a + b)%R;
  dsub := fun a b => rnd (a - b)%R;
  dmul := fun a b => rnd (a * b)%R;
  ddiv := fun a b => rnd (a / b)%R;
  dneg := Ropp;
  dlt := Rlt_bool;
  dle := Rle_bool;
  deqb := Req_bool;
  d_exp := fun x => rnd (exp x);
  d_log := fun x => rnd (ln x);
  d_log10 := fun x => rnd (c_log10 x);
  d_sqrt := fun x => rnd (sqrt x);
  d_cos := fun x => rnd (cos x);
  d_fabs := Rabs;
  d_trunc := fun x => rnd (c_trunc x);
  d_floor := fun x => rnd (c_floor x);
  d_pow := fun x y => rnd (c_pow x y)
|}.

(** What the bounds on the detection probability use of a rounding: it is
    monotone and leaves 0, 0.5, 1, 4 and 6 as they are.  Rounding to nearest
    in binary64 is such a rounding on the range of binary64: it is monotone
    and these five numbers are binary64 values. *)
Record rounding (rnd : R -> R) : Prop := {
  rnd_monotone : forall x y : R, (x <= y)%R -> (rnd x <= rnd y)%R;
  rnd_0 : rnd 0%R = 0%R;
  rnd_half : rnd 0.5%R = 0.5%R;
  rnd_1 : rnd 1%R = 1%R;
  rnd_4 : rnd 4%R = 4%R;
  rnd_6 : rnd 6%R = 6%R
}.

(** Half of the smallest positive binary64 value, [2 ^ -1075]: rounding to
    nearest gives 0 for every result of at most this magnitude. *)
Definition binary64_underflow : R := (/ 2 ^ 1075)%R.

(** The underflow of binary64 alone: a result of magnitude at most
    [2 ^ -1075] becomes 0, every other result is kept as it is. *)
Definition flush_to_zero (x : R) : R :=
  if Rle_dec (Rabs x) binary64_underflow then 0%R else x.

(** Exact arithmetic with the underflow of binary64. *)
Definition underflow_ops : DoubleOps R := Rnd_ops flush_to_zero.

Module RoundedExamples.
Local Open Scope R_scope.

(** A frame of one channel and one band with a reference excitation of
    [10 ^ 10] (100 dB) and a test excitation of [10 ^ 5] (50 dB). *)
Definition loud_ref : EarModelState R :=
  Examples.state_of (10 ^ 10) (fun _ => 1) true.
Definition soft_test : EarModelState R :=
  Examples.state_of (10 ^ 5) (fun _ => 1) true.

End RoundedExamples.

(** ** movs.c: the remaining MOV functions *)

(** The accumulator parameters of [peaq_mov_modulation_difference]. *)
Inductive ModDiffAccumArg : Type :=
| mov_accum1
| mov_accum2
| mov_accum_win.

Definition ModDiffAccumArg_eqb (a b : ModDiffAccumArg) : bool :=
  match a, b with
  | mov_accum1, mov_accum1 | mov_accum2, mov_accum2
  | mov_accum_win, mov_accum_win => true
  | _, _ => false
  end.

Section MoreMovs.
Context {D : Type} `{DoubleOps D}.
Local Open Scope dbl_scope.

(** [ABS] of glib: [(((a) < 0) ? -(a) : (a))]. *)
Definition ABS (a : D) : D := if a <? of_uint 0 then - a else a.

(** One call [peaq_movaccum_accumulate (acc, c, val, weight)] of
    [peaq_mov_modulation_difference]. *)
Record ModDiffCall : Type := ModDiffAccumulate {
  md_accum : ModDiffAccumArg;
  md_channel : nat;
  md_val : D;
  md_weight : D
}.

(** The [(val, weight)] pairs a list of calls gives to channel [c] of the
    accumulator [a], in order. *)
Definition md_calls_on (a : ModDiffAccumArg) (c : nat) (l : list ModDiffCall)
    : list (D * D) :=
  map (fun k => (md_val k, md_weight k))
      (filter (fun k => ModDiffAccumArg_eqb (md_accum k) a
                        && Nat.eqb (md_channel k) c) l).

(** *** peaq_mov_modulation_difference *)

(** The three sums of the loop over the bands. *)
Record ModDiffSums : Type := {
  mod_diff_1b : D;
  mod_diff_2b : D;
  temp_wt : D
}.

(** The term of band [i] added to each sum, (63) and (65) in BS.1387. *)
Definition mod_diff_band (levWt : D) (ear_model : PeaqEarModel D)
    (modulation_ref modulation_test average_loudness_ref : nat -> D)
    (i : nat) : ModDiffSums :=
  let diff := ABS (modulation_ref i - modulation_test i) in
  let w := if modulation_test i >=? modulation_ref i
           then lit 1 else lit 0.1 in
  {| mod_diff_1b := diff / (lit 1 + modulation_ref i);
     mod_diff_2b := w * diff / (lit 0.01 + modulation_ref i);
     temp_wt :=
       average_loudness_ref i /
       (average_loudness_ref i +
        levWt * d_pow (peaq_earmodel_get_internal_noise ear_model i)
                      (lit 0.3)) |}.

(** The sums after the loop over the bands of channel [c]. *)
Definition mod_diff_band_loop (levWt : D)
    (ref_mod_proc test_mod_proc : nat -> PeaqModulationProcessor D)
    (c : nat) : ModDiffSums :=
  let ear_model :=
    peaq_modulationprocessor_get_ear_model (ref_mod_proc 0%nat) in
  let band_count := peaq_earmodel_get_band_count ear_model in
  let modulation_ref :=
    peaq_modulationprocessor_get_modulation (ref_mod_proc c) in
  let modulation_test :=
    peaq_modulationprocessor_get_modulation (test_mod_proc c) in
  let average_loudness_ref :=
    peaq_modulationprocessor_get_average_loudness (ref_mod_proc c) in
  fold_left
    (fun st i =>
       let t := mod_diff_band levWt ear_model modulation_ref modulation_test
                  average_loudness_ref i in
       {| mod_diff_1b := mod_diff_1b st + mod_diff_1b t;
          mod_diff_2b := mod_diff_2b st + mod_diff_2b t;
          temp_wt := temp_wt st + temp_wt t |})
    (seq 0 band_count)
    {| mod_diff_1b := lit 0; mod_diff_2b := lit 0; temp_wt := lit 0 |}.

(** The values of [mod_diff_1b], [mod_diff_2b] and [temp_wt] of channel [c]
    when they are accumulated. *)
Definition mod_diff_values
    (ref_mod_proc test_mod_proc : nat -> PeaqModulationProcessor D)
    (mov_accum1_mode : PeaqMovAccumMode) (mov_accum2_given : bool) (c : nat)
    : ModDiffSums :=
  let ear_model :=
    peaq_modulationprocessor_get_ear_model (ref_mod_proc 0%nat) in
  let band_count := peaq_earmodel_get_band_count ear_model in
  let levWt := if mov_accum2_given then lit 100 else lit 1 in
  let st := mod_diff_band_loop levWt ref_mod_proc test_mod_proc c in
  {| mod_diff_1b :=
       if PeaqMovAccumMode_eqb mov_accum1_mode MODE_RMS
       then mod_diff_1b st * (lit 100 / d_sqrt (of_uint band_count))
       else mod_diff_1b st * (lit 100 / of_uint band_count);
     mod_diff_2b := mod_diff_2b st * (lit 100 / of_uint band_count);
     temp_wt := temp_wt st |}.

(** The body of the loop over the channels. *)
Definition peaq_mov_modulation_difference_channel
    (ref_mod_proc test_mod_proc : nat -> PeaqModulationProcessor D)
    (mov_accum1_mode : PeaqMovAccumMode)
    (mov_accum2_given mov_accum_win_given : bool) (c : nat)
    : list ModDiffCall :=
  let v := mod_diff_values ref_mod_proc test_mod_proc mov_accum1_mode
             mov_accum2_given c in
  [ModDiffAccumulate mov_accum1 c (mod_diff_1b v) (temp_wt v)]
  ++ (if mov_accum2_given
      then [ModDiffAccumulate mov_accum2 c (mod_diff_2b v) (temp_wt v)]
      else [])
  ++ (if mov_accum_win_given
      then [ModDiffAccumulate mov_accum_win c (mod_diff_1b v) (lit 1)]
      else []).

Definition peaq_mov_modulation_difference
    (ref_mod_proc test_mod_proc : nat -> PeaqModulationProcessor D)
    (mov_accum1_channels : nat) (mov_accum1_mode : PeaqMovAccumMode)
    (mov_accum2_given mov_accum_win_given : bool) : list ModDiffCall :=
  flat_map
    (peaq_mov_modulation_difference_channel ref_mod_proc test_mod_proc
       mov_accum1_mode mov_accum2_given mov_accum_win_given)
    (seq 0 mov_accum1_channels).

(** *** peaq_mov_noise_loudness *)

Definition peaq_mov_noise_loudness
    (ref_mod_proc test_mod_proc : nat -> PeaqModulationProcessor D)
    (level : nat -> PeaqLevelAdapter D) (mov_accum_channels : nat)
    : list (AccumCall D) :=
  map (fun c =>
         let ref_excitation :=
           peaq_leveladapter_get_adapted_ref (level c) in
         let test_excitation :=
           peaq_leveladapter_get_adapted_test (level c) in
         let noise_loudness :=
           calc_noise_loudness (lit 1.5) (lit 0.15) (lit 0.5) (lit 0)
             (ref_mod_proc c) (test_mod_proc c) ref_excitation
             test_excitation in
         Accumulate mov_accum c noise_loudness (lit 1))
      (seq 0 mov_accum_channels).

(** *** peaq_mov_noise_loud_asym *)

(** [noise_loudness] and [missing_components] of channel [c]. *)
Definition noise_loud_asym_values (cfg : Settings)
    (ref_mod_proc test_mod_proc : nat -> PeaqModulationProcessor D)
    (level : nat -> PeaqLevelAdapter D) (c : nat) : D * D :=
  let ref_excitation := peaq_leveladapter_get_adapted_ref (level c) in
  let test_excitation := peaq_leveladapter_get_adapted_test (level c) in
  let noise_loudness :=
    calc_noise_loudness (lit 2.5) (lit 0.3) (lit 1) (lit 0.1)
      (ref_mod_proc c) (test_mod_proc c) ref_excitation test_excitation in
  let missing_components :=
    if SWAP_MOD_PATTS_FOR_NOISE_LOUDNESS_MOVS cfg then
      calc_noise_loudness (lit 1.5) (lit 0.15) (lit 1) (lit 0)
        (test_mod_proc c) (ref_mod_proc c) test_excitation ref_excitation
    else
      calc_noise_loudness (lit 1.5) (lit 0.15) (lit 1) (lit 0)
        (ref_mod_proc c) (test_mod_proc c) test_excitation ref_excitation in
  (noise_loudness, missing_components).

Definition peaq_mov_noise_loud_asym (cfg : Settings)
    (ref_mod_proc test_mod_proc : nat -> PeaqModulationProcessor D)
    (level : nat -> PeaqLevelAdapter D) (mov_accum_channels : nat)
    : list (AccumCall D) :=
  map (fun c =>
         let v := noise_loud_asym_values cfg ref_mod_proc test_mod_proc
                    level c in
         Accumulate mov_accum c (fst v) (snd v))
      (seq 0 mov_accum_channels).

(** *** peaq_mov_ehs: the squared magnitudes the peak scan compares *)

(** [c_fft[k].r * c_fft[k].r + c_fft[k].i * c_fft[k].i], with the real part
    of bin 0 set to 0 unless EHS_SUBTRACT_DC_BEFORE_WINDOW is set. *)
Definition ehs_magnitude (cfg : Settings)
    (c_fft : nat -> GstFFTF64Complex D) (k : nat) : D :=
  match k with
  | O =>
      let c_fft0 :=
        if EHS_SUBTRACT_DC_BEFORE_WINDOW cfg then c_fft 0%nat
        else {| r := of_uint 0; i := i (c_fft 0%nat) |} in
      r c_fft0 * r c_fft0 + i c_fft0 * i c_fft0
  | S _ => r (c_fft k) * r (c_fft k) + i (c_fft k) * i (c_fft k)
  end.

End MoreMovs.

Arguments ModDiffCall : clear implicits.
Arguments ModDiffSums : clear implicits.

(** ** More concrete frames *)

Module MoreExamples.
Local Open Scope R_scope.

(** A modulation processor over [Examples.ear_model1] with the given
    modulation and average loudness in every band. *)
Definition mod_proc2 (m a : R) : PeaqModulationProcessor R :=
  {| peaq_modulationprocessor_get_ear_model := Examples.ear_model1;
     peaq_modulationprocessor_get_average_loudness := fun _ => a;
     peaq_modulationprocessor_get_modulation := fun _ => m |}.

(** The pinned settings with floor for the steps above the threshold. *)
Definition floor_settings : Settings :=
  {| SWAP_MOD_PATTS_FOR_NOISE_LOUDNESS_MOVS := false;
     CENTER_EHS_CORRELATION_WINDOW := false;
     EHS_SUBTRACT_DC_BEFORE_WINDOW := false;
     USE_FLOOR_FOR_STEPS_ABOVE_THRESHOLD := true |}.

End MoreExamples.

(** * Properties *)

(** ** Lists of calls *)

Section CallLists.
Context {D : Type} `{DoubleOps D}.

Lemma calls_on_app (a : AccumArg) (c : nat) (l1 l2 : list (AccumCall D)) :
  calls_on a c (l1 ++ l2) = calls_on a c l1 ++ calls_on a c l2.
Proof.
  unfold calls_on. now rewrite filter_app, map_app.
Qed.

Lemma calls_on_other_channel (a : AccumArg) (c : nat) (l : list (AccumCall D)) :
  (forall k, In k l -> call_channel k <> c) -> calls_on a c l = [].
Proof.
  unfold calls_on. induction l as [|k l IH]; intros Hl; [reflexivity|].
  cbn [filter].
  destruct (Nat.eqb_spec (call_channel k) c) as [E|E].
  - exfalso. apply (Hl k); [now left | exact E].
  - rewrite andb_false_r. apply IH. intros k' Hk'. apply Hl. now right.
Qed.

(** A loop over the channels whose body only calls with its own channel:
    the calls for channel [c] are those of iteration [c]. *)
Lemma calls_on_flat_map (body : nat -> list (AccumCall D)) (a : AccumArg)
    (c s n : nat) :
  (forall c' k, In k (body c') -> call_channel k = c') ->
  s <= c < s + n ->
  calls_on a c (flat_map body (seq s n)) = calls_on a c (body c).
Proof.
  intros Hbody. revert s. induction n as [|n IH]; intros s Hc; [lia|].
  cbn [seq flat_map]. rewrite calls_on_app.
  destruct (Nat.eq_dec s c) as [->|Hne].
  - replace (calls_on a c (flat_map body (seq (S c) n))) with (@nil (D * D)).
    + now rewrite app_nil_r.
    + symmetry. apply calls_on_other_channel.
      intros k Hk. apply in_flat_map in Hk. destruct Hk as [c' [Hc' Hk]].
      apply in_seq in Hc'. rewrite (Hbody c' k Hk). lia.
  - rewrite (calls_on_other_channel a c (body s)).
    + apply IH. lia.
    + intros k Hk. now rewrite (Hbody s k Hk).
Qed.

Lemma map_flat_map_singleton {A B : Type} (f : A -> B) (l : list A) :
  map f l = flat_map (fun x => [f x]) l.
Proof.
  induction l as [|x l IH]; [reflexivity|]. cbn. now rewrite IH.
Qed.

Lemma calls_on_map (a : AccumArg) (f w : nat -> D) (c n : nat) :
  c < n ->
  calls_on a c (map (fun c' => Accumulate a c' (f c') (w c')) (seq 0 n))
  = [(f c, w c)].
Proof.
  intros Hc. rewrite map_flat_map_singleton.
  rewrite calls_on_flat_map with (c := c).
  - unfold calls_on. cbn. rewrite Nat.eqb_refl.
    destruct a; reflexivity.
  - intros c' k [<-|[]]. reflexivity.
  - lia.
Qed.

Lemma calls_on_cons (a : AccumArg) (c : nat) (k : AccumCall D)
    (l : list (AccumCall D)) :
  calls_on a c (k :: l)
  = (if AccumArg_eqb (call_accum k) a && Nat.eqb (call_channel k) c
     then [(call_val k, call_weight k)] else [])
    ++ calls_on a c l.
Proof.
  unfold calls_on. cbn [filter].
  destruct (AccumArg_eqb (call_accum k) a && Nat.eqb (call_channel k) c);
    reflexivity.
Qed.

Lemma calls_on_nil (a : AccumArg) (c : nat) :
  calls_on a c (@nil (AccumCall D)) = [].
Proof. reflexivity. Qed.
End CallLists.

Ltac calls_on_eval :=
  rewrite ?calls_on_app, ?calls_on_cons, ?calls_on_nil;
  cbn [call_accum call_channel call_val call_weight AccumArg_eqb andb];
  rewrite ?Nat.eqb_refl; cbn [app].

(** ** peaq_mov_lin_dist *)

Section LinDist.
Context {D : Type} `{DoubleOps D}.

(** C1, as the code has it.  When SWAP_MOD_PATTS_FOR_NOISE_LOUDNESS_MOVS is
    not set, [peaq_mov_lin_dist] gives every channel [c] of its accumulator
    exactly one value, with weight 1:
    [calc_noise_loudness (1.5, 0.15, 1, 0, ref_mod_proc[c],
    test_mod_proc[c], adapted_ref, ref_excitation)].  The second
    modulation slot holds the modulation of the test signal. *)
Theorem lin_dist_no_swap_uses_test_modulation
    (cfg : Settings)
    (ref_mod_proc test_mod_proc : nat -> PeaqModulationProcessor D)
    (level : nat -> PeaqLevelAdapter D) (state : nat -> EarModelState D)
    (channels c : nat) :
  SWAP_MOD_PATTS_FOR_NOISE_LOUDNESS_MOVS cfg = false ->
  c < channels ->
  calls_on mov_accum c
    (peaq_mov_lin_dist cfg ref_mod_proc test_mod_proc level state channels)
  = [(calc_noise_loudness (lit 1.5) (lit 0.15) (lit 1) (lit 0)
        (ref_mod_proc c) (test_mod_proc c)
        (peaq_leveladapter_get_adapted_ref (level c))
        (peaq_earmodel_get_excitation
           (peaq_modulationprocessor_get_ear_model (ref_mod_proc 0))
           (state c)),
      lit 1)].
Proof.
  intros Hswap Hc. unfold peaq_mov_lin_dist. rewrite Hswap.
  exact (calls_on_map mov_accum _ (fun _ => lit 1) c channels Hc).
Qed.

(** With SWAP_MOD_PATTS_FOR_NOISE_LOUDNESS_MOVS set, the reference
    modulation is in both slots. *)
Lemma lin_dist_swap_uses_ref_modulation
    (cfg : Settings)
    (ref_mod_proc test_mod_proc : nat -> PeaqModulationProcessor D)
    (level : nat -> PeaqLevelAdapter D) (state : nat -> EarModelState D)
    (channels c : nat) :
  SWAP_MOD_PATTS_FOR_NOISE_LOUDNESS_MOVS cfg = true ->
  c < channels ->
  calls_on mov_accum c
    (peaq_mov_lin_dist cfg ref_mod_proc test_mod_proc level state channels)
  = [(calc_noise_loudness (lit 1.5) (lit 0.15) (lit 1) (lit 0)
        (ref_mod_proc c) (ref_mod_proc c)
        (peaq_leveladapter_get_adapted_ref (level c))
        (peaq_earmodel_get_excitation
           (peaq_modulationprocessor_get_ear_model (ref_mod_proc 0))
           (state c)),
      lit 1)].
Proof.
  intros Hswap Hc. unfold peaq_mov_lin_dist. rewrite Hswap.
  exact (calls_on_map mov_accum _ (fun _ => lit 1) c channels Hc).
Qed.

End LinDist.

(** ** Exact arithmetic: basic facts *)

Ltac unfold_ops :=
  cbv [lit of_uint dadd dsub dmul ddiv dneg dlt dle deqb d_exp d_log d_log10
       d_sqrt d_cos d_fabs d_trunc d_floor d_pow R_ops] in *.

Section RealFacts.
Local Open Scope R_scope.

Lemma Rlt_bool_true (a b : R) : a < b -> Rlt_bool a b = true.
Proof. intros Hl. unfold Rlt_bool. destruct (Rlt_dec a b); [reflexivity | contradiction]. Qed.

Lemma Rlt_bool_false (a b : R) : ~ a < b -> Rlt_bool a b = false.
Proof. intros Hl. unfold Rlt_bool. destruct (Rlt_dec a b); [contradiction | reflexivity]. Qed.

Lemma Rlt_bool_iff (a b : R) : Rlt_bool a b = true <-> a < b.
Proof.
  unfold Rlt_bool. destruct (Rlt_dec a b); split; intros; try assumption;
    try reflexivity; try discriminate; contradiction.
Qed.

Lemma Rle_bool_iff (a b : R) : Rle_bool a b = true <-> a <= b.
Proof.
  unfold Rle_bool. destruct (Rle_dec a b); split; intros; try assumption;
    try reflexivity; try discriminate; contradiction.
Qed.

Lemma Req_bool_iff (a b : R) : Req_bool a b = true <-> a = b.
Proof.
  unfold Req_bool. destruct (Req_dec_T a b); split; intros; try assumption;
    try reflexivity; try discriminate; contradiction.
Qed.

Lemma MAX_R (a b : R) : MAX a b = Rmax a b.
Proof.
  unfold MAX. unfold_ops. unfold Rlt_bool, Rmax.
  destruct (Rlt_dec b a), (Rle_dec a b); lra.
Qed.

Lemma c_pow_pos (x y : R) : 0 < x -> c_pow x y = Rpower x y.
Proof.
  intros Hx. unfold c_pow. destruct (Rlt_dec 0 x); [reflexivity | contradiction].
Qed.

Lemma Rpower_one_base (y : R) : Rpower 1 y = 1.
Proof. unfold Rpower. rewrite ln_1, Rmult_0_r. apply exp_0. Qed.

Lemma Rpower_gt_1 (x y : R) : 1 < x -> 0 < y -> 1 < Rpower x y.
Proof.
  intros Hx Hy. unfold Rpower. rewrite <- exp_0. apply exp_increasing.
  apply Rmult_lt_0_compat; [exact Hy|].
  rewrite <- ln_1. apply ln_increasing; lra.
Qed.

Lemma Rpower_pos (x y : R) : 0 < Rpower x y.
Proof. unfold Rpower. apply exp_pos. Qed.

Lemma c_pow_nat (x : R) (n : nat) : c_pow x (INR n) = x ^ n.
Proof.
  unfold c_pow. destruct (Rlt_dec 0 x) as [Hx|Hx].
  - now apply Rpower_pow.
  - rewrite Int_part_INR. rewrite <- INR_IZR_INZ.
    destruct (Req_dec_T (INR n) (INR n)) as [_|Hne]; [|contradiction].
    symmetry. apply pow_powerRZ.
Qed.

Lemma c_pow_4 (x : R) : c_pow x 4 = x ^ 4.
Proof. rewrite <- c_pow_nat. f_equal. cbn [INR]. lra. Qed.

Lemma c_pow_6 (x : R) : c_pow x 6 = x ^ 6.
Proof. rewrite <- c_pow_nat. f_equal. cbn [INR]. lra. Qed.

Lemma pow4_nonneg (x : R) : 0 <= x ^ 4.
Proof. replace (x ^ 4) with ((x * x) * (x * x)) by ring. nra. Qed.

Lemma pow6_nonneg (x : R) : 0 <= x ^ 6.
Proof.
  replace (x ^ 6) with ((x * x * x) * (x * x * x)) by ring. nra.
Qed.

Lemma Rpower_half_range (y : R) : 0 <= y -> 0 < Rpower 0.5 y <= 1.
Proof.
  intros Hy. split; [apply Rpower_pos|].
  unfold Rpower. rewrite <- exp_0.
  destruct (Req_dec y 0) as [->|Hne].
  - rewrite Rmult_0_l. lra.
  - left. apply exp_increasing.
    assert (Hln : ln 0.5 < 0) by (rewrite <- ln_1; apply ln_increasing; lra).
    nra.
Qed.

Lemma c_pow_3 (x : R) : c_pow x 3 = x ^ 3.
Proof. rewrite <- c_pow_nat. f_equal. cbn [INR]. lra. Qed.

Lemma fold_left_Rplus_sum {A : Type} (f : A -> R) (l : list A) (a : R) :
  fold_left (fun s x => s + f x) l a = a + fold_right Rplus 0 (map f l).
Proof.
  revert a. induction l as [|x l IH]; intros a; cbn [fold_left map fold_right].
  - lra.
  - rewrite IH. lra.
Qed.


Lemma fold_left_Rmult_prod {A : Type} (f : A -> R) (l : list A) (a : R) :
  fold_left (fun s x => s * f x) l a = a * fold_right Rmult 1 (map f l).
Proof.
  revert a. induction l as [|x l IH]; intros a; cbn [fold_left map fold_right].
  - lra.
  - rewrite IH. lra.
Qed.

Lemma Int_part_nonneg (x : R) : 0 <= x -> (0 <= Int_part x)%Z.
Proof.
  intros Hx. destruct (base_Int_part x) as [_ Hlow].
  assert (Hlt : IZR (-1) < IZR (Int_part x)) by lra.
  apply lt_IZR in Hlt. lia.
Qed.

(** [c_trunc] rounds toward zero: an integer of the sign of [x], not larger
    than [x] in absolute value and less than 1 away from it. *)
Lemma c_trunc_toward_zero (x : R) :
  exists z : Z,
    c_trunc x = IZR z /\
    Rabs (c_trunc x) <= Rabs x < Rabs (c_trunc x) + 1 /\
    0 <= c_trunc x * x.
Proof.
  unfold c_trunc. destruct (Rle_dec 0 x) as [Hx|Hx].
  - exists (Int_part x). split; [reflexivity|].
    destruct (base_Int_part x) as [Hup Hlow].
    pose proof (IZR_le _ _ (Int_part_nonneg x Hx)) as Hz.
    rewrite !Rabs_pos_eq by lra. split; [lra | nra].
  - exists (- Int_part (- x))%Z. split; [now rewrite opp_IZR|].
    destruct (base_Int_part (- x)) as [Hup Hlow].
    pose proof (IZR_le _ _ (Int_part_nonneg (- x) ltac:(lra))) as Hz.
    rewrite Rabs_Ropp, (Rabs_pos_eq (IZR _)), (Rabs_left x) by lra.
    split; [lra | nra].
Qed.

Example c_trunc_negative : c_trunc (-2.5) = -2.
Proof.
  unfold c_trunc. destruct (Rle_dec 0 (-2.5)) as [H|_]; [lra|].
  rewrite <- (Int_part_spec (- -2.5) 2) by lra. lra.
Qed.
End RealFacts.

(** ** calc_noise_loudness in exact arithmetic *)

Section NoiseLoudnessR.
Local Open Scope R_scope.

(** The frame of [Examples]: one band, reference modulation 0, adapted and
    raw reference excitation 1; [m] is the modulation in the second slot. *)
Lemma example_noise_loudness (m : R) :
  0 <= m ->
  calc_noise_loudness (lit 1.5) (lit 0.15) (lit 1) (lit 0)
    (Examples.mod_proc 0) (Examples.mod_proc m) (fun _ => 1) (fun _ => 1)
  = Rpower (1 / (0.15 * m + 1)) 0.23
    * (Rpower (1 + 0.15 * m / 2) 0.23 - 1) * 24.
Proof.
  intros Hm.
  unfold calc_noise_loudness, noise_loudness_scaled, noise_loudness_band,
    noise_loudness_numerator.
  cbv [Examples.mod_proc Examples.ear_model1
       peaq_modulationprocessor_get_ear_model
       peaq_modulationprocessor_get_modulation
       peaq_earmodel_get_band_count peaq_earmodel_get_internal_noise
       seq fold_left].
  rewrite MAX_R. unfold_ops.
  assert (Ebeta : exp (- (1.5) * (1 - 1) / 1) = 1)
    by (rewrite <- exp_0; f_equal; lra).
  rewrite Ebeta. clear Ebeta.
  rewrite Rmax_left by lra.
  assert (Earg : 1 + ((0.15 * m + 1) * 1 - (0.15 * 0 + 1) * 1)
                     / (1 + (0.15 * 0 + 1) * 1 * 1)
                 = 1 + 0.15 * m / 2) by lra.
  rewrite Earg. clear Earg.
  rewrite !c_pow_pos by (try apply Rdiv_lt_0_compat; lra).
  assert (Hge : 1 <= Rpower (1 + 0.15 * m / 2) 0.23).
  { destruct (Req_dec m 0) as [->|Hne].
    - replace (1 + 0.15 * 0 / 2) with 1 by lra. rewrite Rpower_one_base. lra.
    - left. apply Rpower_gt_1; lra. }
  pose proof (Rpower_pos (1 / (0.15 * m + 1)) 0.23) as Hp.
  cbn [INR].
  rewrite Rlt_bool_false; [lra | nra].
Qed.

Lemma fold_left_add_zero {A : Type} (f : A -> R) (l : list A) (a : R) :
  (forall x, In x l -> f x = 0) ->
  fold_left (fun s x => dadd s (f x)) l a = a.
Proof.
  revert a. induction l as [|x l IH]; intros a Hl; [reflexivity|].
  cbn [fold_left]. rewrite IH by (intros y Hy; apply Hl; now right).
  rewrite (Hl x) by now left. unfold_ops. lra.
Qed.

(** C8.  [calc_noise_loudness] returns 0 when the sum scaled by 24/Z is
    strictly below [NLmin] and the scaled sum itself otherwise.  When the
    test modulation and excitation equal the reference ones in every band,
    the numerator [MAX (stest * ep_test - sref * ep_ref, 0)] is 0 in every
    band and the function returns 0. *)
Theorem calc_noise_loudness_clamp
    (alpha thres_fac S0 NLmin : R)
    (ref_mod_proc test_mod_proc : PeaqModulationProcessor R)
    (ref_excitation test_excitation : nat -> R) :
  let NL := noise_loudness_scaled alpha thres_fac S0 ref_mod_proc
              test_mod_proc ref_excitation test_excitation in
  let Z := peaq_earmodel_get_band_count
             (peaq_modulationprocessor_get_ear_model ref_mod_proc) in
  (NL < NLmin ->
   calc_noise_loudness alpha thres_fac S0 NLmin ref_mod_proc test_mod_proc
     ref_excitation test_excitation = 0) /\
  (~ NL < NLmin ->
   calc_noise_loudness alpha thres_fac S0 NLmin ref_mod_proc test_mod_proc
     ref_excitation test_excitation = NL) /\
  ((forall k, (k < Z)%nat ->
      peaq_modulationprocessor_get_modulation test_mod_proc k
      = peaq_modulationprocessor_get_modulation ref_mod_proc k /\
      test_excitation k = ref_excitation k) ->
   (forall k, (k < Z)%nat ->
      noise_loudness_numerator thres_fac S0
        (peaq_modulationprocessor_get_modulation ref_mod_proc)
        (peaq_modulationprocessor_get_modulation test_mod_proc)
        ref_excitation test_excitation k = 0) /\
   calc_noise_loudness alpha thres_fac S0 NLmin ref_mod_proc test_mod_proc
     ref_excitation test_excitation = 0).
Proof.
  intros NL Z. unfold calc_noise_loudness. fold NL.
  split; [|split].
  - intros Hlt. unfold_ops. now rewrite Rlt_bool_true.
  - intros Hge. unfold_ops. now rewrite Rlt_bool_false.
  - intros Hsame.
    assert (Hnum : forall k, (k < Z)%nat ->
      noise_loudness_numerator thres_fac S0
        (peaq_modulationprocessor_get_modulation ref_mod_proc)
        (peaq_modulationprocessor_get_modulation test_mod_proc)
        ref_excitation test_excitation k = 0).
    { intros k Hk. destruct (Hsame k Hk) as [Em Ee].
      unfold noise_loudness_numerator. rewrite MAX_R, Em, Ee. unfold_ops.
      rewrite Rmax_left; lra. }
    split; [exact Hnum|].
    assert (HNL : NL = 0).
    { unfold NL, noise_loudness_scaled. fold Z.
      rewrite fold_left_add_zero.
      - unfold_ops. lra.
      - intros k Hk. apply in_seq in Hk.
        unfold noise_loudness_band. rewrite Hnum by lia. unfold_ops.
        replace (1 + 0 / _) with 1 by (unfold Rdiv; lra).
        rewrite (c_pow_pos 1) by lra. rewrite Rpower_one_base. lra. }
    rewrite HNL. unfold_ops. unfold Rlt_bool. destruct (Rlt_dec 0 NLmin); reflexivity.
Qed.

Lemma calc_noise_loudness_clamp_witness :
  calc_noise_loudness (lit 1.5) (lit 0.15) (lit 1) (lit 0)
    (Examples.mod_proc 0) (Examples.mod_proc 0) (fun _ => 1) (fun _ => 1)
  = 0.
Proof.
  apply (calc_noise_loudness_clamp 1.5 0.15 1 0 (Examples.mod_proc 0)
           (Examples.mod_proc 0) (fun _ => 1) (fun _ => 1)).
  intros k Hk. split; reflexivity.
Defined.

(** C1, as stated, fails.  With one band, reference modulation 0 and test
    modulation 1, the value [peaq_mov_lin_dist] accumulates under the pinned
    settings is not the one computed with the reference modulation in both
    slots (which is 0). *)
Lemma lin_dist_claimed_value_counterexample :
  calls_on mov_accum 0
    (peaq_mov_lin_dist pinned_settings
       (fun _ => Examples.mod_proc 0) (fun _ => Examples.mod_proc 1)
       (fun _ => Examples.level1) (fun _ => Examples.state1) 1)
  <> [(calc_noise_loudness (lit 1.5) (lit 0.15) (lit 1) (lit 0)
         (Examples.mod_proc 0) (Examples.mod_proc 0)
         (peaq_leveladapter_get_adapted_ref Examples.level1)
         (peaq_earmodel_get_excitation Examples.ear_model1 Examples.state1),
       lit 1)].
Proof.
  unfold peaq_mov_lin_dist. cbn [pinned_settings SWAP_MOD_PATTS_FOR_NOISE_LOUDNESS_MOVS].
  rewrite (calls_on_map mov_accum _ (fun _ => lit 1) 0 1) by lia.
  cbv [Examples.level1 Examples.state1 Examples.state_of peaq_leveladapter_get_adapted_ref
       peaq_earmodel_get_excitation state_excitation].
  rewrite !example_noise_loudness by lra.
  intros E. injection E as E.
  replace (1 + 0.15 * 0 / 2) with 1 in E by lra.
  rewrite Rpower_one_base in E.
  pose proof (Rpower_gt_1 (1 + 0.15 * 1 / 2) 0.23 ltac:(lra) ltac:(lra)).
  pose proof (Rpower_pos (1 / (0.15 * 1 + 1)) 0.23).
  nra.
Qed.

Lemma lin_dist_no_swap_witness :
  SWAP_MOD_PATTS_FOR_NOISE_LOUDNESS_MOVS pinned_settings = false /\
  (0 < 1)%nat /\
  calls_on mov_accum 0
    (peaq_mov_lin_dist pinned_settings
       (fun _ => Examples.mod_proc 0) (fun _ => Examples.mod_proc 1)
       (fun _ => Examples.level1) (fun _ => Examples.state1) 1)
  = [(calc_noise_loudness (lit 1.5) (lit 0.15) (lit 1) (lit 0)
        (Examples.mod_proc 0) (Examples.mod_proc 1)
        (peaq_leveladapter_get_adapted_ref Examples.level1)
        (peaq_earmodel_get_excitation Examples.ear_model1 Examples.state1),
      lit 1)].
Proof.
  split; [reflexivity|]. split; [lia|].
  apply (lin_dist_no_swap_uses_test_modulation pinned_settings
           (fun _ => Examples.mod_proc 0) (fun _ => Examples.mod_proc 1)
           (fun _ => Examples.level1) (fun _ => Examples.state1) 1 0);
    [reflexivity | lia].
Defined.

End NoiseLoudnessR.

(** ** peaq_mov_bandwidth *)

Lemma search_down_spec (p : nat -> bool) (n : nat) :
  largest_index_with n (fun i => p (i - 1) = true) (search_down p n).
Proof.
  induction n as [|n IH]; cbn [search_down].
  - right. split; [reflexivity | intros i Hi; lia].
  - destruct (p n) eqn:Ep.
    + left. split; [lia|]. split.
      * cbn. now rewrite Nat.sub_0_r.
      * intros i Hi. lia.
    + destruct IH as [(Hb & Hp & Hlater) | (Hb & Hnone)].
      * left. split; [lia|]. split; [exact Hp|].
        intros i Hi. destruct (Nat.eq_dec i (S n)) as [->|Hne].
        -- cbn. rewrite Nat.sub_0_r. congruence.
        -- apply Hlater. lia.
      * right. split; [exact Hb|].
        intros i Hi. destruct (Nat.eq_dec i (S n)) as [->|Hne].
        -- cbn. rewrite Nat.sub_0_r. congruence.
        -- apply Hnone. lia.
Qed.

(** When [p] holds exactly below [b], the search from [n] stops at [b]. *)
Lemma search_down_threshold (p : nat -> bool) (n b : nat) :
  b <= n -> (forall j, j < n -> (p j = true <-> j < b)) ->
  search_down p n = b.
Proof.
  induction n as [|n IH]; intros Hb Hp; cbn [search_down]; [lia|].
  destruct (p n) eqn:Ep.
  - apply (Hp n) in Ep; lia.
  - apply IH.
    + destruct (Nat.eq_dec b (S n)) as [->|Hne]; [|lia].
      assert (p n = true) by (apply Hp; lia). congruence.
    + intros j Hj. apply Hp. lia.
Qed.

Section BandwidthR.
Local Open Scope R_scope.

Lemma running_max_spec (F : nat -> R) (s n : nat) (init : R) :
  let m := fold_left (fun zt i => if dle zt (F i) then F i else zt)
                     (seq s n) init in
  (m = init \/ exists i, (s <= i < s + n)%nat /\ F i = m) /\
  init <= m /\
  (forall i, (s <= i < s + n)%nat -> F i <= m).
Proof.
  revert s init. induction n as [|n IH]; intros s init; cbn [seq fold_left].
  - split; [now left|]. split; [lra|]. intros i Hi. lia.
  - specialize (IH (S s) (if dle init (F s) then F s else init)).
    cbv zeta in IH. destruct IH as (Hin & Hge & Hall).
    unfold_ops. unfold Rle_bool in *.
    destruct (Rle_dec init (F s)) as [Hle|Hgt].
    + split; [|split].
      * right. destruct Hin as [E | (i & Hi & E)].
        -- exists s. split; [lia | now symmetry].
        -- exists i. split; [lia | exact E].
      * lra.
      * intros i Hi. destruct (Nat.eq_dec i s) as [->|Hne]; [exact Hge|].
        apply Hall. lia.
    + split; [|split].
      * destruct Hin as [E | (i & Hi & E)]; [now left|].
        right. exists i. split; [lia | exact E].
      * exact Hge.
      * intros i Hi. destruct (Nat.eq_dec i s) as [->|Hne]; [lra|].
        apply Hall. lia.
Qed.

Lemma bandwidth_zero_threshold_max (F : nat -> R) :
  is_max_on F 921 1023 (bandwidth_zero_threshold F).
Proof.
  unfold bandwidth_zero_threshold.
  destruct (running_max_spec F 922 102 (F 921%nat)) as (Hin & Hge & Hall).
  cbv zeta in *. split.
  - destruct Hin as [E | (i & Hi & E)].
    + exists 921%nat. split; [lia | now symmetry].
    + exists i. split; [lia | exact E].
  - intros i Hi. destruct (Nat.eq_dec i 921) as [->|Hne]; [exact Hge|].
    apply Hall. lia.
Qed.


(** A concrete frame: the test spectrum is 1 everywhere, the reference
    spectrum is 100 below bin [b] and 0 from bin [b] on. *)
Lemma example_zero_threshold :
  bandwidth_zero_threshold (fun _ : nat => 1) = 1.
Proof.
  destruct (bandwidth_zero_threshold_max (fun _ => 1)) as [(i & _ & E) _].
  now symmetry.
Qed.

Lemma example_bw_ref (b : nat) :
  (b <= 921)%nat ->
  bandwidth_bw_ref (fun j => if (j <? b)%nat then 100 else 0) 1 = b.
Proof.
  intros Hb. unfold bandwidth_bw_ref. apply search_down_threshold; [exact Hb|].
  intros j _. unfold_ops. rewrite Rlt_bool_iff.
  destruct (Nat.ltb_spec j b); split; intros; try lia; lra.
Qed.

Lemma example_bw_test (n : nat) :
  bandwidth_bw_test (fun _ : nat => 1) 1 n = 0%nat.
Proof.
  unfold bandwidth_bw_test. apply search_down_threshold; [lia|].
  intros j _. unfold FIVE_DB_POWER_FACTOR. unfold_ops. rewrite Rle_bool_iff.
  split; intros; [lra | lia].
Qed.

(** Scenario 5 of the specification: a reference bandwidth of 345 accumulates
    nothing, one of 347 accumulates 347. *)
Example bandwidth_gate_scenario :
  peaq_mov_bandwidth (fun _ => Examples.ref_bw 345) (fun _ => Examples.state1) 1
  = [] /\
  peaq_mov_bandwidth (fun _ => Examples.ref_bw 347) (fun _ => Examples.state1) 1
  = [Accumulate mov_accum_ref 0 (INR 347) 1;
     Accumulate mov_accum_test 0 (INR 0) 1].
Proof.
  unfold peaq_mov_bandwidth, peaq_mov_bandwidth_channel.
  cbv [seq flat_map Examples.ref_bw Examples.state1 Examples.state_of
       peaq_fftearmodel_get_power_spectrum].
  rewrite !example_zero_threshold, !example_bw_ref, !example_bw_test by lia.
  split; reflexivity.
Qed.


(** The literal of the source is 10^(5/10) to the precision it is written
    with. *)
Lemma FIVE_DB_POWER_FACTOR_square :
  Rabs (FIVE_DB_POWER_FACTOR * FIVE_DB_POWER_FACTOR - 10) < 1e-13.
Proof.
  unfold FIVE_DB_POWER_FACTOR. unfold_ops.
  apply Rabs_def1; lra.
Qed.
End BandwidthR.

(** ** peaq_mov_nmr *)

Section NmrR.
Local Open Scope R_scope.



End NmrR.

(** ** peaq_mov_prob_detect *)

Section ProbDetectR.
Local Open Scope R_scope.

(** The per-channel probability of detection lies in [0, 1): the exponent
    [b] is 4 or 6, so [(e / s) ^ b] is not negative. *)
Lemma prob_detect_pc_range (cfg : Settings) (ear_model : PeaqEarModel R)
    (ref_state test_state : nat -> EarModelState R) (k c : nat) :
  0 <= fst (prob_detect_pc_qc cfg ear_model ref_state test_state k c) < 1.
Proof.
  unfold prob_detect_pc_qc. cbn [fst]. unfold_ops.
  match goal with
  | |- context [c_pow (?e / ?s) (if ?t then 4 else 6)] =>
      assert (Hy : 0 <= c_pow (e / s) (if t then 4 else 6))
        by (destruct t; [rewrite c_pow_4; apply pow4_nonneg
                        | rewrite c_pow_6; apply pow6_nonneg]);
      generalize dependent (c_pow (e / s) (if t then 4 else 6))
  end.
  intros y Hy. rewrite c_pow_pos by lra.
  pose proof (Rpower_half_range y Hy). lra.
Qed.

Lemma prob_detect_band_range (cfg : Settings) (ear_model : PeaqEarModel R)
    (ref_state test_state : nat -> EarModelState R) (channels k : nat) :
  0 <= fst (prob_detect_band cfg ear_model ref_state test_state channels k)
    < 1.
Proof.
  unfold prob_detect_band.
  assert (Hinv : forall l st, 0 <= fst st < 1 ->
    0 <= fst (fold_left
      (fun st c =>
         let pq := prob_detect_pc_qc cfg ear_model ref_state test_state k c in
         (if dlt (fst st) (fst pq) then fst pq else fst st,
          if Nat.eqb c 0 || dlt (snd st) (snd pq) then snd pq else snd st))
      l st) < 1).
  { induction l as [|c l IH]; intros st Hst; [exact Hst|].
    cbn [fold_left]. apply IH. cbn [fst].
    pose proof (prob_detect_pc_range cfg ear_model ref_state test_state k c).
    destruct (dlt _ _); assumption. }
  apply Hinv. cbn [fst]. unfold_ops. lra.
Qed.

Lemma prob_detect_bands_range (cfg : Settings) (ear_model : PeaqEarModel R)
    (ref_state test_state : nat -> EarModelState R) (channels : nat) :
  0 < fst (prob_detect_bands cfg ear_model ref_state test_state channels)
    <= 1.
Proof.
  unfold prob_detect_bands.
  assert (Hinv : forall l st, 0 < fst st <= 1 ->
    0 < fst (fold_left
      (fun st k =>
         let band :=
           prob_detect_band cfg ear_model ref_state test_state channels k in
         (dmul (fst st) (dsub (lit 1) (fst band)), dadd (snd st) (snd band)))
      l st) <= 1).
  { induction l as [|k l IH]; intros st Hst; [exact Hst|].
    cbn [fold_left]. apply IH. cbn [fst].
    pose proof (prob_detect_band_range cfg ear_model ref_state test_state
                  channels k).
    unfold_ops. nra. }
  apply Hinv. cbn [fst]. unfold_ops. lra.
Qed.








End ProbDetectR.

(** ** Loops as folds *)

Section FoldFacts.
Context {A B : Type}.

Lemma fold_left_invariant (P : A -> Prop) (f : A -> B -> A) (l : list B)
    (a : A) :
  P a ->
  (forall st k, In k l -> P st -> P (f st k)) ->
  P (fold_left f l a).
Proof.
  revert a. induction l as [|k l IH]; intros a Ha Hstep; [exact Ha|].
  cbn [fold_left]. apply IH.
  - apply Hstep; [now left | exact Ha].
  - intros st k' Hin. apply Hstep. now right.
Qed.

Lemma fold_left_ext_in (f g : A -> B -> A) (l : list B) (a : A) :
  (forall st k, In k l -> f st k = g st k) ->
  fold_left f l a = fold_left g l a.
Proof.
  revert a. induction l as [|k l IH]; intros a Hfg; [reflexivity|].
  cbn [fold_left]. rewrite Hfg by now left.
  apply IH. intros st k' Hin. apply Hfg. now right.
Qed.

End FoldFacts.

(** ** peaq_mov_prob_detect in rounded arithmetic *)

Section RoundedDetection.
Local Open Scope R_scope.
Variable rnd : R -> R.
Hypothesis Hrnd : rounding rnd.

Lemma rnd_unit_interval (x : R) : 0 <= x <= 1 -> 0 <= rnd x <= 1.
Proof.
  intros [Hlo Hhi].
  pose proof (rnd_monotone rnd Hrnd 0 x Hlo) as H0.
  pose proof (rnd_monotone rnd Hrnd x 1 Hhi) as H1.
  rewrite (rnd_0 rnd Hrnd) in H0. rewrite (rnd_1 rnd Hrnd) in H1.
  split; assumption.
Qed.

(** [1. - pow (0.5, pow (x, b))] for [b] 4 or 6. *)
Lemma rounded_pc_range (x : R) (t : bool) :
  0 <= rnd (rnd 1 - rnd (c_pow (rnd 0.5)
                           (rnd (c_pow x (if t then rnd 4 else rnd 6))))) <= 1.
Proof.
  rewrite (rnd_1 rnd Hrnd), (rnd_half rnd Hrnd), (rnd_4 rnd Hrnd),
    (rnd_6 rnd Hrnd).
  assert (Hy : 0 <= rnd (c_pow x (if t then 4 else 6))).
  { assert (H0 : 0 <= c_pow x (if t then 4 else 6))
      by (destruct t; [rewrite c_pow_4; apply pow4_nonneg
                      | rewrite c_pow_6; apply pow6_nonneg]).
    apply (rnd_monotone rnd Hrnd) in H0.
    now rewrite (rnd_0 rnd Hrnd) in H0. }
  generalize dependent (rnd (c_pow x (if t then 4 else 6))).
  intros y Hy. rewrite c_pow_pos by lra.
  pose proof (Rpower_half_range y Hy) as Hp.
  assert (Hq : 0 <= rnd (Rpower 0.5 y) <= 1) by (apply rnd_unit_interval; lra).
  apply rnd_unit_interval. lra.
Qed.

Lemma rounded_pc_qc_range (cfg : Settings) (ear_model : PeaqEarModel R)
    (ref_state test_state : nat -> EarModelState R) (k c : nat) :
  0 <= fst (@prob_detect_pc_qc R (Rnd_ops rnd) cfg ear_model ref_state
              test_state k c) <= 1.
Proof.
  unfold prob_detect_pc_qc. cbn [fst].
  exact (rounded_pc_range _ _).
Qed.

Lemma rounded_band_range (cfg : Settings) (ear_model : PeaqEarModel R)
    (ref_state test_state : nat -> EarModelState R) (channels k : nat) :
  0 <= fst (@prob_detect_band R (Rnd_ops rnd) cfg ear_model ref_state
              test_state channels k) <= 1.
Proof.
  unfold prob_detect_band.
  apply (fold_left_invariant (fun st : R * R => 0 <= fst st <= 1)).
  - cbn [fst]. cbv [lit Rnd_ops]. rewrite (rnd_0 rnd Hrnd). lra.
  - intros st c _ Hst. cbn [fst].
    pose proof (rounded_pc_qc_range cfg ear_model ref_state test_state k c).
    destruct (dlt _ _); assumption.
Qed.

Lemma rounded_bands_range (cfg : Settings) (ear_model : PeaqEarModel R)
    (ref_state test_state : nat -> EarModelState R) (channels : nat) :
  0 <= fst (@prob_detect_bands R (Rnd_ops rnd) cfg ear_model ref_state
              test_state channels) <= 1.
Proof.
  unfold prob_detect_bands.
  apply (fold_left_invariant (fun st : R * R => 0 <= fst st <= 1)).
  - cbn [fst]. cbv [lit Rnd_ops]. rewrite (rnd_1 rnd Hrnd). lra.
  - intros st k _ Hst. cbn [fst].
    pose proof (rounded_band_range cfg ear_model ref_state test_state
                  channels k) as Hb.
    set (p := fst (prob_detect_band _ _ _ _ _ _)) in *. clearbody p.
    cbv [lit dmul dsub Rnd_ops]. rewrite (rnd_1 rnd Hrnd).
    assert (Hq : 0 <= rnd (1 - p) <= 1) by (apply rnd_unit_interval; lra).
    apply rnd_unit_interval. split; [apply Rmult_le_pos; lra|].
    apply Rle_trans with (1 * 1); [apply Rmult_le_compat; lra | lra].
Qed.

End RoundedDetection.

(** ** The underflow of binary64 *)

Section Underflow.
Local Open Scope R_scope.

Lemma binary64_underflow_small : 0 < binary64_underflow < 1e-19.
Proof.
  unfold binary64_underflow.
  assert (H64 : 2 ^ 64 <= 2 ^ 1075) by (apply Rle_pow; [lra | lia]).
  assert (Hpos : 0 < 2 ^ 64) by (apply pow_lt; lra).
  split.
  - apply Rinv_0_lt_compat. lra.
  - apply Rle_lt_trans with (/ 2 ^ 64).
    + apply Rinv_le_contravar; assumption.
    + apply Rmult_lt_reg_r with (2 ^ 64); [exact Hpos|].
      rewrite Rinv_l by lra. lra.
Qed.

Lemma flush_to_zero_id (x : R) :
  binary64_underflow < Rabs x -> flush_to_zero x = x.
Proof.
  intros Hx. unfold flush_to_zero.
  destruct (Rle_dec (Rabs x) binary64_underflow); [lra | reflexivity].
Qed.

Lemma flush_to_zero_big (x : R) : 1e-19 <= x -> flush_to_zero x = x.
Proof.
  intros Hx. apply flush_to_zero_id.
  pose proof binary64_underflow_small. rewrite Rabs_pos_eq; lra.
Qed.

Lemma flush_to_zero_small (x : R) :
  Rabs x <= binary64_underflow -> flush_to_zero x = 0.
Proof.
  intros Hx. unfold flush_to_zero.
  destruct (Rle_dec (Rabs x) binary64_underflow); [reflexivity | lra].
Qed.

Lemma flush_to_zero_0 : flush_to_zero 0 = 0.
Proof.
  apply flush_to_zero_small. rewrite Rabs_R0.
  pose proof binary64_underflow_small. lra.
Qed.

Lemma flush_to_zero_error (x : R) :
  x - 1e-19 <= flush_to_zero x <= x + 1e-19.
Proof.
  pose proof binary64_underflow_small as Hu. unfold flush_to_zero.
  destruct (Rle_dec (Rabs x) binary64_underflow) as [Hx|Hx]; [|lra].
  unfold Rabs in Hx. destruct (Rcase_abs x); lra.
Qed.

Lemma flush_to_zero_rounding : rounding flush_to_zero.
Proof.
  pose proof binary64_underflow_small as Hu.
  split; try (apply flush_to_zero_big; lra); [|apply flush_to_zero_0].
  intros x y Hxy. unfold flush_to_zero.
  destruct (Rle_dec (Rabs x) binary64_underflow) as [Hx|Hx],
    (Rle_dec (Rabs y) binary64_underflow) as [Hy|Hy];
    unfold Rabs in Hx, Hy; destruct (Rcase_abs x), (Rcase_abs y); lra.
Qed.

End Underflow.

(** ** The detection probability under rounding *)

Section ProbDetectRounded.
Local Open Scope R_scope.

Ltac unfold_underflow_ops :=
  cbv [lit of_uint dadd dsub dmul ddiv dneg dlt dle deqb d_exp d_log d_log10
       d_sqrt d_cos d_fabs d_trunc d_floor d_pow underflow_ops Rnd_ops].

Lemma c_log10_pow10 (n : nat) : c_log10 (10 ^ n) = INR n.
Proof.
  unfold c_log10. rewrite ln_pow by lra.
  assert (H10 : 0 < ln 10) by (rewrite <- ln_1; apply ln_increasing; lra).
  field. lra.
Qed.

(** The level of an excitation of [10 ^ n], for [n] from 1 to 10. *)
Lemma underflow_level (n : nat) :
  (1 <= n <= 10)%nat ->
  @dmul R underflow_ops (@lit R underflow_ops 10)
    (@d_log10 R underflow_ops (10 ^ n)) = 10 * INR n.
Proof.
  intros Hn. unfold_underflow_ops. rewrite c_log10_pow10.
  assert (H1 : 1 <= INR n) by (change 1 with (INR 1); apply le_INR; lia).
  rewrite (flush_to_zero_big 10) by lra.
  rewrite (flush_to_zero_big (INR n)) by lra.
  apply flush_to_zero_big. lra.
Qed.

(** The step size at the level 65 dB. *)
Lemma underflow_step_size :
  0.43 <= @detection_step_size R underflow_ops 65 <= 6.4.
Proof.
  unfold detection_step_size. unfold_underflow_ops.
  rewrite flush_to_zero_0.
  replace (Rlt_bool 0 65) with true by (symmetry; apply Rlt_bool_iff; lra).
  rewrite !(flush_to_zero_big 4), !(flush_to_zero_big 3) by lra.
  rewrite c_pow_4, c_pow_3.
  rewrite (flush_to_zero_big (65 ^ 4)), (flush_to_zero_big (65 ^ 3)) by lra.
  rewrite (flush_to_zero_big 6.39468), (flush_to_zero_big 1.71332),
    (flush_to_zero_big 5.95072), (flush_to_zero_big 9.01033e-11),
    (flush_to_zero_big 5.05622e-6), (flush_to_zero_big 0.00102438),
    (flush_to_zero_big 0.0550197), (flush_to_zero_big 0.198719) by lra.
  rewrite (flush_to_zero_big (6.39468 / 65)) by lra.
  rewrite c_pow_pos by lra.
  assert (Hp : 0 < Rpower (6.39468 / 65) 1.71332 < 1).
  { split; [apply Rpower_pos|].
    unfold Rpower. rewrite <- exp_0. apply exp_increasing.
    assert (Hln : ln (6.39468 / 65) < 0)
      by (rewrite <- ln_1; apply ln_increasing; lra).
    nra. }
  set (p := Rpower (6.39468 / 65) 1.71332) in *. clearbody p.
  pose proof (flush_to_zero_error p) as Hp'.
  set (p' := flush_to_zero p) in *. clearbody p'.
  pose proof (flush_to_zero_error (5.95072 * p')) as Ha.
  set (a := flush_to_zero (5.95072 * p')) in *. clearbody a.
  rewrite (flush_to_zero_big (9.01033e-11 * 65 ^ 4)),
    (flush_to_zero_big (5.05622e-6 * 65 ^ 3)),
    (flush_to_zero_big (0.00102438 * 65)),
    (flush_to_zero_big (0.00102438 * 65 * 65)),
    (flush_to_zero_big (0.0550197 * 65)) by lra.
  repeat match goal with
  | |- context [flush_to_zero ?x] =>
      lazymatch x with
      | context [flush_to_zero _] => fail
      | _ => let H := fresh "He" in
             let y := fresh "y" in
             pose proof (flush_to_zero_error x) as H;
             set (y := flush_to_zero x) in *; clearbody y
      end
  end.
  lra.
Qed.

(** With a level difference of 50 dB and a step size of at most 6.4,
    [pow (e / s, 4.)] is above 1075, [pow (0.5, ...)] underflows and
    [pc = 1. - 0.] is 1. *)
Lemma underflow_pc (s : R) :
  0.43 <= s <= 6.4 ->
  @dsub R underflow_ops (@lit R underflow_ops 1)
    (@d_pow R underflow_ops (@lit R underflow_ops 0.5)
       (@d_pow R underflow_ops (@ddiv R underflow_ops 50 s)
          (@lit R underflow_ops 4))) = 1.
Proof.
  intros Hs. unfold_underflow_ops.
  rewrite (flush_to_zero_big 1), (flush_to_zero_big 0.5),
    (flush_to_zero_big 4) by lra.
  assert (Hx : 7 <= 50 / s).
  { apply Rmult_le_reg_r with s; [lra|].
    unfold Rdiv. rewrite Rmult_assoc, Rinv_l by lra. lra. }
  rewrite (flush_to_zero_big (50 / s)) by lra.
  set (x := 50 / s) in *. clearbody x.
  rewrite c_pow_4.
  assert (Hy : 1075 <= x ^ 4).
  { assert (H2 : 49 <= x * x) by nra.
    replace (x ^ 4) with ((x * x) * (x * x)) by ring. nra. }
  rewrite (flush_to_zero_big (x ^ 4)) by lra.
  set (y := x ^ 4) in *. clearbody y.
  rewrite c_pow_pos by lra.
  assert (Hu : Rpower 0.5 y <= binary64_underflow).
  { unfold binary64_underflow.
    replace (/ 2 ^ 1075) with (Rpower 0.5 (INR 1075)).
    - unfold Rpower. destruct Hy as [Hy|Hy].
      + left. apply exp_increasing.
        assert (Hln : ln 0.5 < 0)
          by (rewrite <- ln_1; apply ln_increasing; lra).
        assert (HI : INR 1075 = 1075) by (rewrite INR_IZR_INZ; reflexivity).
        rewrite HI. nra.
      + right. f_equal. f_equal.
        rewrite <- Hy. rewrite INR_IZR_INZ. reflexivity.
    - rewrite Rpower_pow by lra. rewrite <- pow_inv. f_equal. lra. }
  rewrite (flush_to_zero_small (Rpower 0.5 y)).
  - replace (1 - 0) with 1 by lra. apply flush_to_zero_big. lra.
  - rewrite Rabs_pos_eq; [exact Hu | left; apply Rpower_pos].
Qed.

Lemma underflow_pc_example (cfg : Settings) (k c : nat) :
  fst (@prob_detect_pc_qc R underflow_ops cfg Examples.ear_model1
         (fun _ => RoundedExamples.loud_ref)
         (fun _ => RoundedExamples.soft_test) k c) = 1.
Proof.
  unfold prob_detect_pc_qc. cbv zeta. cbn [fst].
  cbv [peaq_earmodel_get_excitation state_excitation
       RoundedExamples.loud_ref RoundedExamples.soft_test Examples.state_of].
  rewrite (underflow_level 10), (underflow_level 5) by lia.
  replace (10 * INR 10) with 100 by (rewrite INR_IZR_INZ; cbn; lra).
  replace (10 * INR 5) with 50 by (rewrite INR_IZR_INZ; cbn; lra).
  assert (El : @dadd R underflow_ops
                 (@dmul R underflow_ops (@lit R underflow_ops 0.3)
                    (@MAX R underflow_ops 100 50))
                 (@dmul R underflow_ops (@lit R underflow_ops 0.7) 50) = 65).
  { unfold MAX. unfold_underflow_ops.
    replace (Rlt_bool 50 100) with true by (symmetry; apply Rlt_bool_iff; lra).
    rewrite (flush_to_zero_big 0.3), (flush_to_zero_big 0.7) by lra.
    rewrite (flush_to_zero_big (0.3 * 100)), (flush_to_zero_big (0.7 * 50))
      by lra.
    replace (0.3 * 100 + 0.7 * 50) with 65 by lra.
    apply flush_to_zero_big. lra. }
  rewrite El.
  assert (Ee : @dsub R underflow_ops 100 50 = 50).
  { unfold_underflow_ops. replace (100 - 50) with 50 by lra.
    apply flush_to_zero_big. lra. }
  rewrite Ee.
  replace (@dlt R underflow_ops 50 100) with true
    by (symmetry; apply Rlt_bool_iff; lra).
  apply underflow_pc, underflow_step_size.
Qed.

(** C10, amended.  For a frame whose excitations are positive, in rounded
    arithmetic, for every rounding that is monotone and leaves 0, 0.5, 1, 4
    and 6 as they are, every per-channel detection probability [pc] lies in
    [0, 1] and the value [P_bin] that [peaq_mov_prob_detect] gives to
    [mov_accum_mfpd] satisfies [0 <= P_bin <= 1].  In exact arithmetic the
    upper bounds are strict: [pc < 1] and [P_bin < 1].  The hypothesis on
    the excitations is not used by the proof: it delimits the frames for
    which the instances follow the C code. *)
Theorem prob_detect_P_bin_bounds (rnd : R -> R) (cfg : Settings)
    (ear_model : PeaqEarModel R)
    (ref_state test_state : nat -> EarModelState R) (channels : nat) :
  rounding rnd ->
  (forall c k, (c < channels)%nat ->
     (k < peaq_earmodel_get_band_count ear_model)%nat ->
     0 < peaq_earmodel_get_excitation ear_model (ref_state c) k /\
     0 < peaq_earmodel_get_excitation ear_model (test_state c) k) ->
  (forall c k,
     0 <= fst (@prob_detect_pc_qc R (Rnd_ops rnd) cfg ear_model ref_state
                 test_state k c) <= 1) /\
  (exists P_bin,
     calls_on mov_accum_mfpd 0
       (@peaq_mov_prob_detect R (Rnd_ops rnd) cfg ear_model ref_state
          test_state channels)
     = [(P_bin, 1)] /\ 0 <= P_bin <= 1) /\
  (forall c k,
     0 <= fst (@prob_detect_pc_qc R R_ops cfg ear_model ref_state
                 test_state k c) < 1) /\
  (exists P_bin,
     calls_on mov_accum_mfpd 0
       (@peaq_mov_prob_detect R R_ops cfg ear_model ref_state test_state
          channels)
     = [(P_bin, 1)] /\ 0 <= P_bin < 1).
Proof.
  intros Hrnd _. split; [|split; [|split]].
  - intros c k. apply rounded_pc_qc_range, Hrnd.
  - exists (rnd (1 - fst (@prob_detect_bands R (Rnd_ops rnd) cfg ear_model
                          ref_state test_state channels))).
    split.
    + unfold peaq_mov_prob_detect. cbv zeta.
      replace (@lit R (Rnd_ops rnd) 1) with 1
        by (symmetry; apply (rnd_1 rnd Hrnd)).
      destruct (dlt _ _); reflexivity.
    + apply (rnd_unit_interval rnd Hrnd).
      pose proof (rounded_bands_range rnd Hrnd cfg ear_model ref_state
                    test_state channels). lra.
  - intros c k. apply prob_detect_pc_range.
  - exists (1 - fst (prob_detect_bands cfg ear_model ref_state test_state
                        channels)).
    split.
    + unfold peaq_mov_prob_detect. destruct (dlt _ _); reflexivity.
    + pose proof (prob_detect_bands_range cfg ear_model ref_state test_state
                    channels). lra.
Qed.

Lemma rounded_example_excitations (c k : nat) :
  (c < 1)%nat ->
  (k < peaq_earmodel_get_band_count Examples.ear_model1)%nat ->
  0 < peaq_earmodel_get_excitation Examples.ear_model1
        RoundedExamples.loud_ref k /\
  0 < peaq_earmodel_get_excitation Examples.ear_model1
        RoundedExamples.soft_test k.
Proof.
  intros _ _.
  cbv [peaq_earmodel_get_excitation state_excitation
       RoundedExamples.loud_ref RoundedExamples.soft_test Examples.state_of].
  split; apply pow_lt; lra.
Qed.

Lemma prob_detect_P_bin_bounds_witness :
  exists P_bin,
    calls_on mov_accum_mfpd 0
      (@peaq_mov_prob_detect R (Rnd_ops flush_to_zero) pinned_settings
         Examples.ear_model1 (fun _ => RoundedExamples.loud_ref)
         (fun _ => RoundedExamples.soft_test) 1)
    = [(P_bin, 1)] /\ 0 <= P_bin <= 1.
Proof.
  exact (proj1 (proj2 (prob_detect_P_bin_bounds flush_to_zero pinned_settings
                         Examples.ear_model1
                         (fun _ => RoundedExamples.loud_ref)
                         (fun _ => RoundedExamples.soft_test) 1
                         flush_to_zero_rounding
                         rounded_example_excitations))).
Defined.

(** C10, as stated, fails.  With the underflow of binary64, a frame of one
    channel and one band with the positive excitations [10 ^ 10] and
    [10 ^ 5] gives [pc = 1]: [pow (e / s, 4.)] is above 1075, so
    [pow (0.5, ...)] is 0.  The value [peaq_mov_prob_detect] gives to
    [mov_accum_mfpd] is then exactly 1, not below 1. *)
Lemma prob_detect_P_bin_one_counterexample :
  (0 < peaq_earmodel_get_excitation Examples.ear_model1
         RoundedExamples.loud_ref 0 /\
   0 < peaq_earmodel_get_excitation Examples.ear_model1
         RoundedExamples.soft_test 0) /\
  fst (@prob_detect_pc_qc R underflow_ops pinned_settings Examples.ear_model1
         (fun _ => RoundedExamples.loud_ref)
         (fun _ => RoundedExamples.soft_test) 0 0) = 1 /\
  calls_on mov_accum_mfpd 0
    (@peaq_mov_prob_detect R underflow_ops pinned_settings
       Examples.ear_model1 (fun _ => RoundedExamples.loud_ref)
       (fun _ => RoundedExamples.soft_test) 1)
  = [(1, 1)].
Proof.
  split; [apply (rounded_example_excitations 0 0); apply Nat.lt_0_succ|].
  split; [apply underflow_pc_example|].
  assert (Eband :
    fst (@prob_detect_band R underflow_ops pinned_settings
           Examples.ear_model1 (fun _ => RoundedExamples.loud_ref)
           (fun _ => RoundedExamples.soft_test) 1 0) = 1).
  { unfold prob_detect_band. cbn [seq fold_left]. cbv zeta. cbn [fst].
    rewrite underflow_pc_example.
    replace (@lit R underflow_ops 0) with 0
      by (symmetry; apply flush_to_zero_0).
    replace (@dlt R underflow_ops 0 1) with true
      by (symmetry; apply Rlt_bool_iff; lra).
    reflexivity. }
  assert (Ebands :
    fst (@prob_detect_bands R underflow_ops pinned_settings
           Examples.ear_model1 (fun _ => RoundedExamples.loud_ref)
           (fun _ => RoundedExamples.soft_test) 1) = 0).
  { unfold prob_detect_bands.
    cbn [peaq_earmodel_get_band_count Examples.ear_model1 seq fold_left].
    cbv zeta. cbn [fst]. rewrite Eband. unfold_underflow_ops.
    rewrite (flush_to_zero_big 1) by lra.
    replace (1 - 1) with 0 by lra. rewrite flush_to_zero_0.
    replace (1 * 0) with 0 by lra. apply flush_to_zero_0. }
  unfold peaq_mov_prob_detect. cbv zeta. rewrite Ebands.
  replace (@dsub R underflow_ops (@lit R underflow_ops 1) 0) with 1.
  - replace (@lit R underflow_ops 1) with 1
      by (symmetry; apply flush_to_zero_big; lra).
    destruct (dlt _ _); reflexivity.
  - unfold_underflow_ops. rewrite (flush_to_zero_big 1) by lra.
    replace (1 - 0) with 1 by lra. symmetry. apply flush_to_zero_big. lra.
Qed.

End ProbDetectRounded.

(** ** peaq_mov_ehs *)

Section EHSGate.
Context {D : Type} `{DoubleOps D}.
Variable gst_fft_f64_fft : nat -> (nat -> D) -> nat -> GstFFTF64Complex D.
Variable gst_fft_f64_inverse_fft :
  nat -> (nat -> GstFFTF64Complex D) -> nat -> D.

Lemma ehs_valid_false (ref_state test_state : nat -> EarModelState D)
    (channels : nat) :
  ehs_valid ref_state test_state channels = false <->
  (forall chan, chan < channels ->
     peaq_fftearmodel_is_energy_threshold_reached (ref_state chan) = false /\
     peaq_fftearmodel_is_energy_threshold_reached (test_state chan) = false).
Proof.
  unfold ehs_valid. split.
  - intros Hv chan Hc. apply orb_false_elim.
    destruct (_ || _) eqn:E; [|reflexivity].
    rewrite <- Hv. symmetry. apply existsb_exists. exists chan. split; [|exact E].
    apply in_seq. lia.
  - intros Hall. destruct (existsb _ _) eqn:E; [|reflexivity].
    apply existsb_exists in E. destruct E as [chan [Hin E]].
    apply in_seq in Hin. destruct (Hall chan) as [E1 E2]; [lia|].
    rewrite E1, E2 in E. discriminate.
Qed.

(** C6.  [peaq_mov_ehs] performs no accumulation (the list of its calls is
    empty, so the accumulator is left as it is) if and only if, for every
    channel, neither the reference nor the test state has reached the
    energy threshold.  Otherwise every channel receives exactly one value,
    1000 times the peak [ehs] of that channel, with weight 1. *)
Theorem ehs_frame_gating (cfg : Settings) (ear_model : PeaqEarModel D)
    (ref_state test_state : nat -> EarModelState D) (channels : nat) :
  let calls :=
    peaq_mov_ehs gst_fft_f64_fft gst_fft_f64_inverse_fft cfg ear_model
      ref_state test_state channels in
  let silent :=
    forall chan, chan < channels ->
      peaq_fftearmodel_is_energy_threshold_reached (ref_state chan) = false /\
      peaq_fftearmodel_is_energy_threshold_reached (test_state chan) = false in
  (calls = [] <-> silent) /\
  (silent -> forall acc, apply_calls mov_accum calls acc = Some acc) /\
  (~ silent ->
   forall chan, chan < channels ->
     calls_on mov_accum chan calls
     = [(dmul (lit 1000)
           (ehs_channel gst_fft_f64_fft gst_fft_f64_inverse_fft cfg
              ref_state test_state chan), lit 1)]).
Proof.
  intros calls silent. subst calls. unfold peaq_mov_ehs.
  destruct (ehs_valid ref_state test_state channels) eqn:Ev; cbn [negb].
  - assert (Hns : ~ silent).
    { intros Hs. apply (proj2 (ehs_valid_false ref_state test_state channels)) in Hs.
      congruence. }
    split; [|split].
    + split; [|intros Hs; contradiction].
      intros Hnil. exfalso.
      destruct channels as [|n]; [discriminate Ev|].
      cbn [seq map] in Hnil. discriminate Hnil.
    + intros Hs. contradiction.
    + intros _ chan Hc.
      exact (calls_on_map mov_accum _ (fun _ => lit 1) chan channels Hc).
  - assert (Hs : silent)
      by exact (proj1 (ehs_valid_false ref_state test_state channels) Ev).
    split; [|split].
    + split; [intros _; exact Hs | reflexivity].
    + intros _ acc. reflexivity.
    + intros Hns. contradiction.
Qed.

End EHSGate.

(** A frame that reaches the energy threshold. *)

Section EHSExample.
Local Open Scope R_scope.
Lemma ehs_frame_gating_witness :
  calls_on mov_accum 0
    (peaq_mov_ehs Examples.fft0 Examples.inverse_fft0 pinned_settings
       Examples.ear_model1 (fun _ => Examples.state1)
       (fun _ => Examples.state1) 1)
  = [(dmul (lit 1000)
        (ehs_channel Examples.fft0 Examples.inverse_fft0 pinned_settings
           (fun _ => Examples.state1) (fun _ => Examples.state1) 0), lit 1)].
Proof.
  apply (proj2 (proj2 (ehs_frame_gating Examples.fft0 Examples.inverse_fft0
                         pinned_settings Examples.ear_model1
                         (fun _ => Examples.state1)
                         (fun _ => Examples.state1) 1))).
  - intros Hsilent. destruct (Hsilent 0%nat (Nat.lt_0_succ 0)) as [E _].
    discriminate E.
  - lia.
Defined.
End EHSExample.

(** ** The tentative mechanism of the accumulator *)

Section Tentative.
Context {D : Type} `{DoubleOps D}.
Import MovAccum.

Lemma accumulate_all_app (l1 l2 : list (nat * D * D)) (acc : PeaqMovAccum D) :
  accumulate_all (l1 ++ l2) acc
  = obind (accumulate_all l1 acc) (accumulate_all l2).
Proof.
  revert acc. induction l1 as [|[[c x] w] l1 IH]; intros acc; [reflexivity|].
  cbn [app accumulate_all].
  destruct (peaq_movaccum_accumulate acc c x w); [apply IH | reflexivity].
Qed.

Lemma accumulate_tentative (acc acc' : PeaqMovAccum D) (c : nat) (x w : D) :
  peaq_movaccum_accumulate acc c x w = Some acc' ->
  tentative acc' = tentative acc /\ mode acc' = mode acc /\
  channels acc' = channels acc.
Proof.
  unfold peaq_movaccum_accumulate.
  destruct (mode acc) as [m|] eqn:Em; [|discriminate].
  destruct (c <? channels acc); [|discriminate].
  destruct (tentative acc) eqn:Et; intros E; injection E as <-; cbn; auto.
Qed.

Lemma accumulate_all_tentative (l : list (nat * D * D))
    (acc acc' : PeaqMovAccum D) :
  accumulate_all l acc = Some acc' ->
  tentative acc' = tentative acc /\ mode acc' = mode acc /\
  channels acc' = channels acc.
Proof.
  revert acc. induction l as [|[[c x] w] l IH]; intros acc.
  - intros E. injection E as <-. auto.
  - cbn [accumulate_all].
    destruct (peaq_movaccum_accumulate acc c x w) as [a|] eqn:Ea; [|discriminate].
    intros E. apply IH in E. apply accumulate_tentative in Ea.
    destruct E as (-> & -> & ->). exact Ea.
Qed.

(** A sequence of accumulations into existing channels of an accumulator
    whose mode is set is performed to its end. *)
Lemma accumulate_all_total (l : list (nat * D * D)) (acc : PeaqMovAccum D)
    (m : PeaqMovAccumMode) :
  mode acc = Some m ->
  forallb (fun e => fst (fst e) <? channels acc) l = true ->
  exists acc', accumulate_all l acc = Some acc'.
Proof.
  revert acc. induction l as [|[[c x] w] l IH]; intros acc Hm Hl.
  - now exists acc.
  - cbn [forallb fst] in Hl. apply andb_prop in Hl. destruct Hl as [Hc Hl].
    cbn [accumulate_all].
    destruct (peaq_movaccum_accumulate acc c x w) as [acc1|] eqn:E1.
    + destruct (accumulate_tentative acc acc1 c x w E1) as (_ & Hm1 & Hc1).
      apply IH; [congruence | now rewrite Hc1].
    + unfold peaq_movaccum_accumulate in E1. rewrite Hm, Hc in E1.
      destruct (tentative acc); discriminate E1.
Qed.
Lemma staged_accumulate (a s : PeaqMovAccum D) (c : nat) (x w : D) :
  staged a s ->
  match peaq_movaccum_accumulate a c x w,
        peaq_movaccum_accumulate s c x w with
  | Some a', Some s' => staged a' s'
  | None, None => True
  | _, _ => False
  end.
Proof.
  intros (Ha & Hs & Hm & Hc & Hd). unfold peaq_movaccum_accumulate.
  rewrite Hm, Hc, Ha, Hs.
  destruct (mode a) as [m|]; [|exact I].
  destruct (c <? channels a); [|exact I].
  unfold staged. cbn. rewrite Hd. auto.
Qed.

Lemma staged_accumulate_all (l : list (nat * D * D)) (a s : PeaqMovAccum D) :
  staged a s ->
  match accumulate_all l a, accumulate_all l s with
  | Some a', Some s' => staged a' s'
  | None, None => True
  | _, _ => False
  end.
Proof.
  revert a s. induction l as [|[[c x] w] l IH]; intros a s Hst.
  - exact Hst.
  - cbn [accumulate_all].
    pose proof (staged_accumulate a s c x w Hst) as Hstep.
    destruct (peaq_movaccum_accumulate a c x w) as [a'|],
             (peaq_movaccum_accumulate s c x w) as [s'|];
      try contradiction; [apply IH; exact Hstep | exact I].
Qed.

(** C2.  For an accumulator in any mode that is not tentative, a prefix [P]
    and a suffix [T] of accumulations: accumulating [P], setting the
    tentative flag, accumulating [T] and clearing the flag gives the same
    result of [peaq_movaccum_get_value] (the same contract violation, if
    there is one) as accumulating [P ++ T].  The carrier [D] and its
    operations are arbitrary: the two results are the same value, not only
    equal up to rounding. *)
Theorem tentative_commit_order_preserving
    (acc : PeaqMovAccum D) (P T : list (nat * D * D)) :
  tentative acc = false ->
  obind (accumulate_all P acc)
    (fun a1 =>
       obind (accumulate_all T (peaq_movaccum_set_tentative a1 true))
         (fun a2 =>
            peaq_movaccum_get_value (peaq_movaccum_set_tentative a2 false)))
  = obind (accumulate_all (P ++ T) acc) peaq_movaccum_get_value.
Proof.
  intros Hacc. rewrite accumulate_all_app.
  destruct (accumulate_all P acc) as [a1|] eqn:EP; [|reflexivity].
  cbn [obind].
  apply accumulate_all_tentative in EP. destruct EP as (Ht & _ & _).
  rewrite Hacc in Ht.
  assert (Hst : staged a1 (peaq_movaccum_set_tentative a1 true)).
  { unfold staged, peaq_movaccum_set_tentative. cbn. auto. }
  pose proof (staged_accumulate_all T _ _ Hst) as Hrun.
  destruct (accumulate_all T a1) as [a1'|],
           (accumulate_all T (peaq_movaccum_set_tentative a1 true)) as [a2|];
    try contradiction; [|reflexivity].
  cbn [obind]. destruct Hrun as (_ & Hs2 & Hm & Hc & Hd).
  unfold peaq_movaccum_set_tentative, peaq_movaccum_get_value.
  rewrite Hs2. cbn. now rewrite Hm, Hc, Hd.
Qed.
End Tentative.

(** ** The committed state of the accumulator *)

Section AccumGeneric.
Context {D : Type} `{DoubleOps D}.
Import MovAccum.

Lemma accumulate_all_committed (l : list (nat * D * D))
    (acc : PeaqMovAccum D) (m : PeaqMovAccumMode) :
  mode acc = Some m -> tentative acc = false ->
  accumulate_all l acc
  = if forallb (fun e => fst (fst e) <? channels acc) l
    then Some {| mode := Some m; channels := channels acc;
                 data := fold_left (data_step m) l (data acc);
                 shadow := shadow acc; tentative := false |}
    else None.
Proof.
  revert acc. induction l as [|[[c x] w] l IH]; intros acc Hm Ht.
  - cbn. destruct acc; cbn in *. now subst.
  - cbn [accumulate_all forallb fst snd].
    unfold peaq_movaccum_accumulate. rewrite Hm, Ht.
    destruct (c <? channels acc) eqn:Ec; cbn [andb]; [|reflexivity].
    rewrite IH by reflexivity. reflexivity.
Qed.

Lemma alter_at_length {A : Type} (c : nat) (f : A -> A) (l : list A) :
  length (alter_at c f l) = length l.
Proof.
  revert c. induction l as [|a l IH]; intros [|c]; cbn; auto.
Qed.

Lemma nth_alter_at {A : Type} (c c' : nat) (f : A -> A) (l : list A)
    (d : A) :
  c < length l ->
  nth c' (alter_at c f l) d
  = if Nat.eqb c c' then f (nth c' l d) else nth c' l d.
Proof.
  revert c c'. induction l as [|a l IH]; intros c c' Hc; [cbn in Hc; lia|].
  destruct c as [|c], c' as [|c']; cbn [alter_at nth Nat.eqb]; try reflexivity.
  apply IH. cbn in Hc. lia.
Qed.

Lemma fold_data_step_length (m : PeaqMovAccumMode) (l : list (nat * D * D))
    (d : list (ChannelData D)) :
  length (fold_left (data_step m) l d) = length d.
Proof.
  revert d. induction l as [|e l IH]; intros d; [reflexivity|].
  cbn [fold_left]. rewrite IH. apply alter_at_length.
Qed.

(** The state of channel [c] is the fold of the accumulations that go to
    that channel. *)
Lemma nth_fold_data_step (m : PeaqMovAccumMode) (l : list (nat * D * D))
    (d : list (ChannelData D)) (c : nat) :
  forallb (fun e => fst (fst e) <? length d) l = true ->
  nth c (fold_left (data_step m) l d) empty_channel
  = fold_left (fun s e => accumulate_channel m (fst e) (snd e) s)
      (entries_on c l) (nth c d empty_channel).
Proof.
  revert d. induction l as [|[[c' x] w] l IH]; intros d Hl; [reflexivity|].
  cbn [forallb fst snd] in Hl. apply andb_prop in Hl. destruct Hl as [Hc' Hl].
  apply Nat.ltb_lt in Hc'.
  cbn [fold_left]. rewrite IH
    by (unfold data_step; now rewrite alter_at_length).
  unfold data_step. cbn [fst snd].
  rewrite nth_alter_at by exact Hc'.
  unfold entries_on. cbn [filter fst snd].
  destruct (Nat.eqb c' c); reflexivity.
Qed.
End AccumGeneric.

(** ** The accumulator in exact arithmetic *)

Section AccumR.
Import MovAccum.
Local Open Scope R_scope.

Lemma linear_channel_totals (m : PeaqMovAccumMode) (es : list (R * R))
    (s : ChannelData R) :
  m = MODE_AVG \/ m = MODE_AVG_LOG \/ m = MODE_ADB ->
  let s' := fold_left (fun s e => accumulate_channel m (fst e) (snd e) s)
                      es s in
  num s' = num s + total_weighted es /\ den s' = den s + total_weight es.
Proof.
  intros Hm. revert s. unfold total_weighted, total_weight.
  induction es as [|[x w] es IH]; intros s; cbn [fold_left map fold_right].
  - cbv zeta. lra.
  - cbv zeta in *. destruct (IH (accumulate_channel m x w s)) as [En Ed].
    cbn [fst snd] in *. rewrite En, Ed.
    destruct Hm as [->|[->| ->]]; cbn [accumulate_channel num den];
      unfold_ops; lra.
Qed.

(** C7.  A configured accumulator in mode MODE_ADB, after any sequence of
    accumulations into existing channels, returns from
    [peaq_movaccum_get_value]: 0 when the total weight accumulated on
    channel 0 is 0; -0.5 when that weight is not 0 and the weighted sum of the
    values is 0; and log10 of the weighted sum over the total weight
    otherwise. *)
Theorem adb_get_value (n : nat) (l : list (nat * R * R)) :
  (1 <= n)%nat ->
  (forall c x w, In (c, x, w) l -> (c < n)%nat) ->
  let W := total_weight (entries_on 0 l) in
  let S := total_weighted (entries_on 0 l) in
  let v := obind (accumulate_all l (configured n MODE_ADB))
                 peaq_movaccum_get_value in
  (W = 0 -> v = Some 0) /\
  (W <> 0 -> S = 0 -> v = Some (-0.5)) /\
  (W <> 0 -> S <> 0 -> v = Some (c_log10 (S / W))).
Proof.
  intros Hn Hl W S v.
  assert (Hall : forallb (fun e : nat * R * R => (fst (fst e) <? n)%nat) l = true).
  { apply forallb_forall. intros [[c x] w] Hin. apply Nat.ltb_lt.
    cbn [fst]. exact (Hl c x w Hin). }
  assert (Ev : v = Some (channel_value MODE_ADB
                 (fold_left (fun s e => accumulate_channel MODE_ADB (fst e) (snd e) s)
                    (entries_on 0 l) empty_channel))).
  { unfold v. rewrite (accumulate_all_committed l _ MODE_ADB) by reflexivity.
    cbn [configured peaq_movaccum_set_mode peaq_movaccum_set_channels
         channels data peaq_movaccum_new].
    rewrite Hall. cbn [obind]. unfold peaq_movaccum_get_value.
    cbn [mode data]. f_equal. f_equal.
    rewrite nth_fold_data_step by (now rewrite repeat_length).
    f_equal. destruct n; [lia | reflexivity]. }
  destruct (linear_channel_totals MODE_ADB (entries_on 0 l) empty_channel)
    as [En Ed]; [auto|].
  cbv zeta in En, Ed. fold W in Ed. fold S in En.
  cbn [empty_channel num den] in En, Ed. unfold_ops.
  rewrite Rplus_0_l in En, Ed.
  rewrite Ev. unfold channel_value. rewrite En, Ed. unfold_ops.
  unfold Req_bool.
  repeat split.
  - intros HW. destruct (Req_dec_T W 0); [reflexivity | contradiction].
  - intros HW HS. destruct (Req_dec_T W 0); [contradiction|].
    destruct (Req_dec_T S 0); [f_equal; lra | contradiction].
  - intros HW HS. destruct (Req_dec_T W 0); [contradiction|].
    destruct (Req_dec_T S 0); [contradiction | reflexivity].
Qed.
End AccumR.

(** ** Scaling the weights *)

Section ScalingR.
Import MovAccum.
Local Open Scope R_scope.








End ScalingR.

(** ** The accumulator on concrete sequences *)

Section AccumExamples.
Import MovAccum.
Local Open Scope R_scope.

Lemma tentative_commit_witness :
  tentative (configured (D := R) 1 MODE_AVG) = false /\
  obind (accumulate_all [(0%nat, 2, 1)] (configured 1 MODE_AVG))
    (fun a1 =>
       obind (accumulate_all [(0%nat, 4, 1)]
                (peaq_movaccum_set_tentative a1 true))
         (fun a2 =>
            peaq_movaccum_get_value (peaq_movaccum_set_tentative a2 false)))
  = obind (accumulate_all ([(0%nat, 2, 1)] ++ [(0%nat, 4, 1)])
             (configured 1 MODE_AVG))
          peaq_movaccum_get_value.
Proof.
  split; [reflexivity|].
  apply tentative_commit_order_preserving. reflexivity.
Defined.

(** Scenario 1 of the specification: the average of 2, 4 and 6 with weight 1
    is 4. *)
Example avg_scenario :
  obind (accumulate_all [(0%nat, 2, 1); (0%nat, 4, 1); (0%nat, 6, 1)]
           (configured 1 MODE_AVG))
        peaq_movaccum_get_value
  = Some 4.
Proof.
  cbv [obind accumulate_all peaq_movaccum_accumulate configured
       peaq_movaccum_set_mode peaq_movaccum_set_channels peaq_movaccum_new
       mode channels tentative data shadow Nat.ltb Nat.leb repeat alter_at
       accumulate_channel empty_channel num den peaq_movaccum_get_value
       channel_value fold_left].
  unfold_ops. cbn [INR]. f_equal. field.
Qed.

(** The same accumulations with the last two staged and committed. *)
Example tentative_commit_scenario :
  obind (accumulate_all [(0%nat, 2, 1)] (configured 1 MODE_AVG))
    (fun a1 =>
       obind (accumulate_all [(0%nat, 4, 1); (0%nat, 6, 1)]
                (peaq_movaccum_set_tentative a1 true))
         (fun a2 =>
            peaq_movaccum_get_value (peaq_movaccum_set_tentative a2 false)))
  = Some 4.
Proof.
  cbv [obind accumulate_all peaq_movaccum_accumulate configured
       peaq_movaccum_set_mode peaq_movaccum_set_channels peaq_movaccum_new
       peaq_movaccum_set_tentative
       mode channels tentative data shadow Nat.ltb Nat.leb repeat alter_at
       accumulate_channel empty_channel num den peaq_movaccum_get_value
       channel_value fold_left].
  unfold_ops. cbn [INR]. f_equal. field.
Qed.

Lemma adb_get_value_witness :
  (1 <= 1)%nat /\
  obind (accumulate_all [(0%nat, 10, 1); (0%nat, 100, 1); (0%nat, 1000, 1)]
           (configured 1 MODE_ADB))
        peaq_movaccum_get_value
  = Some (c_log10
            (total_weighted
               (entries_on 0 [(0%nat, 10, 1); (0%nat, 100, 1); (0%nat, 1000, 1)])
             / total_weight
                 (entries_on 0 [(0%nat, 10, 1); (0%nat, 100, 1); (0%nat, 1000, 1)]))).
Proof.
  split; [lia|].
  apply (adb_get_value 1 [(0%nat, 10, 1); (0%nat, 100, 1); (0%nat, 1000, 1)]).
  - lia.
  - intros c x w [E|[E|[E|[]]]]; injection E as <- _ _; lia.
  - cbv [total_weight entries_on filter map fold_right fst snd Nat.eqb]. lra.
  - cbv [total_weighted entries_on filter map fold_right fst snd Nat.eqb]. lra.
Defined.

(** Scenario 4 of the specification: 10, 100 and 1000 with weight 1 give
    log10 (1110 / 3). *)
Example adb_scenario_totals :
  total_weighted
    (entries_on 0 [(0%nat, 10, 1); (0%nat, 100, 1); (0%nat, 1000, 1)]) = 1110 /\
  total_weight
    (entries_on 0 [(0%nat, 10, 1); (0%nat, 100, 1); (0%nat, 1000, 1)]) = 3.
Proof.
  cbv [total_weighted total_weight entries_on filter map fold_right fst snd
       Nat.eqb].
  split; lra.
Qed.

End AccumExamples.

(** * More of movs.c *)

(** ** The calls of peaq_mov_modulation_difference *)

Section ModDiffCalls.
Context {D : Type} `{DoubleOps D}.

Lemma md_calls_on_app (a : ModDiffAccumArg) (c : nat)
    (l1 l2 : list (ModDiffCall D)) :
  md_calls_on a c (l1 ++ l2) = md_calls_on a c l1 ++ md_calls_on a c l2.
Proof.
  unfold md_calls_on. now rewrite filter_app, map_app.
Qed.

Lemma md_calls_on_cons (a : ModDiffAccumArg) (c : nat) (k : ModDiffCall D)
    (l : list (ModDiffCall D)) :
  md_calls_on a c (k :: l)
  = (if ModDiffAccumArg_eqb (md_accum k) a && Nat.eqb (md_channel k) c
     then [(md_val k, md_weight k)] else [])
    ++ md_calls_on a c l.
Proof.
  unfold md_calls_on. cbn [filter].
  destruct (ModDiffAccumArg_eqb (md_accum k) a && Nat.eqb (md_channel k) c);
    reflexivity.
Qed.

Lemma md_calls_on_other_channel (a : ModDiffAccumArg) (c : nat)
    (l : list (ModDiffCall D)) :
  (forall k, In k l -> md_channel k <> c) -> md_calls_on a c l = [].
Proof.
  induction l as [|k l IH]; intros Hl; [reflexivity|].
  rewrite md_calls_on_cons.
  replace (Nat.eqb (md_channel k) c) with false.
  - rewrite andb_false_r. apply IH. intros k' Hk'. apply Hl. now right.
  - symmetry. apply Nat.eqb_neq. apply Hl. now left.
Qed.

Lemma mod_diff_channel_calls_channel
    (ref_mod_proc test_mod_proc : nat -> PeaqModulationProcessor D)
    (m : PeaqMovAccumMode) (given2 given_win : bool) (c : nat)
    (k : ModDiffCall D) :
  In k (peaq_mov_modulation_difference_channel ref_mod_proc test_mod_proc m
          given2 given_win c) ->
  md_channel k = c.
Proof.
  unfold peaq_mov_modulation_difference_channel. intros Hin.
  cbn [app] in Hin. destruct Hin as [<-|Hin]; [reflexivity|].
  apply in_app_or in Hin. destruct Hin as [Hin|Hin].
  - destruct given2; cbn [In] in Hin; try contradiction.
    destruct Hin as [<-|[]]. reflexivity.
  - destruct given_win; cbn [In] in Hin; try contradiction.
    destruct Hin as [<-|[]]. reflexivity.
Qed.

Lemma md_calls_on_channel_loop
    (ref_mod_proc test_mod_proc : nat -> PeaqModulationProcessor D)
    (m : PeaqMovAccumMode) (given2 given_win : bool) (a : ModDiffAccumArg)
    (c s n : nat) :
  s <= c < s + n ->
  md_calls_on a c
    (flat_map (peaq_mov_modulation_difference_channel ref_mod_proc
                 test_mod_proc m given2 given_win) (seq s n))
  = md_calls_on a c
      (peaq_mov_modulation_difference_channel ref_mod_proc test_mod_proc m
         given2 given_win c).
Proof.
  revert s. induction n as [|n IH]; intros s Hc; [lia|].
  cbn [seq flat_map]. rewrite md_calls_on_app.
  destruct (Nat.eq_dec s c) as [->|Hne].
  - rewrite (md_calls_on_other_channel a c (flat_map _ _)).
    + apply app_nil_r.
    + intros k Hk. apply in_flat_map in Hk. destruct Hk as [c' [Hc' Hk]].
      apply in_seq in Hc'.
      rewrite (mod_diff_channel_calls_channel _ _ _ _ _ _ _ Hk). lia.
  - rewrite (md_calls_on_other_channel a c
               (peaq_mov_modulation_difference_channel _ _ _ _ _ s)).
    + apply IH. lia.
    + intros k Hk.
      now rewrite (mod_diff_channel_calls_channel _ _ _ _ _ _ _ Hk).
Qed.

(** X1.  For every channel [c] of a frame, [peaq_mov_modulation_difference]
    gives [mov_accum1] exactly one pair, [mod_diff_1b] with weight
    [temp_wt]; gives [mov_accum2], when it is not NULL, exactly one pair,
    [mod_diff_2b] with the same weight [temp_wt]; and gives [mov_accum_win],
    when it is not NULL, exactly one pair, the same [mod_diff_1b] with
    weight 1.  An accumulator that is NULL receives nothing. *)
Theorem modulation_difference_calls
    (ref_mod_proc test_mod_proc : nat -> PeaqModulationProcessor D)
    (channels : nat) (m : PeaqMovAccumMode) (given2 given_win : bool)
    (c : nat) :
  c < channels ->
  let calls :=
    peaq_mov_modulation_difference ref_mod_proc test_mod_proc channels m
      given2 given_win in
  let v := mod_diff_values ref_mod_proc test_mod_proc m given2 c in
  md_calls_on mov_accum1 c calls = [(mod_diff_1b v, temp_wt v)] /\
  md_calls_on mov_accum2 c calls
  = (if given2 then [(mod_diff_2b v, temp_wt v)] else []) /\
  md_calls_on mov_accum_win c calls
  = (if given_win then [(mod_diff_1b v, lit 1)] else []).
Proof.
  intros Hc calls v. unfold calls, peaq_mov_modulation_difference.
  rewrite !md_calls_on_channel_loop by lia.
  unfold peaq_mov_modulation_difference_channel. fold v.
  rewrite !md_calls_on_app, !md_calls_on_cons.
  cbn [md_accum md_channel md_val md_weight ModDiffAccumArg_eqb andb].
  rewrite Nat.eqb_refl.
  destruct given2, given_win;
    rewrite ?md_calls_on_cons;
    cbn [md_accum md_channel md_val md_weight ModDiffAccumArg_eqb andb];
    rewrite ?Nat.eqb_refl; repeat split; reflexivity.
Qed.

End ModDiffCalls.

(** ** Bounds of the bandwidths *)

Section CallBounds.
Context {D : Type} `{DoubleOps D}.

Lemma search_down_le (p : nat -> bool) (n : nat) : search_down p n <= n.
Proof.
  induction n as [|n IH]; cbn [search_down]; [lia|].
  destruct (p n); lia.
Qed.

(** X3.  Whatever the spectra are, a frame gives [mov_accum_ref] only
    bandwidths from 347 to 921, and the bandwidth it gives [mov_accum_test]
    for the same channel is never larger than the one of the reference: for
    every channel the two accumulators receive either nothing or one
    [bw_ref] and one [bw_test] with [346 < bw_ref <= 921] and
    [bw_test <= bw_ref], both with weight 1. *)
Theorem bandwidth_bounds (ref_state test_state : nat -> EarModelState D)
    (channels c : nat) :
  c < channels ->
  let calls := peaq_mov_bandwidth ref_state test_state channels in
  (calls_on mov_accum_ref c calls = [] /\
   calls_on mov_accum_test c calls = []) \/
  (exists bw_ref bw_test,
     346 < bw_ref <= 921 /\ bw_test <= bw_ref /\
     calls_on mov_accum_ref c calls = [(of_uint bw_ref, lit 1)] /\
     calls_on mov_accum_test c calls = [(of_uint bw_test, lit 1)]).
Proof.
  intros Hc calls.
  assert (Hbody : forall a,
    calls_on a c calls
    = calls_on a c (peaq_mov_bandwidth_channel ref_state test_state c)).
  { intros a. unfold calls, peaq_mov_bandwidth.
    apply calls_on_flat_map; [|lia].
    intros c' k. unfold peaq_mov_bandwidth_channel.
    destruct (_ <? _)%nat; [|intros []].
    intros [<-|[<-|[]]]; reflexivity. }
  rewrite !Hbody. unfold peaq_mov_bandwidth_channel.
  destruct (346 <? _) eqn:Egate.
  - right. apply Nat.ltb_lt in Egate.
    eexists. eexists. split; [split; [exact Egate|]|split].
    + unfold bandwidth_bw_ref. apply search_down_le.
    + unfold bandwidth_bw_test. apply search_down_le.
    + calls_on_eval. split; reflexivity.
  - left. split; reflexivity.
Qed.

End CallBounds.

(** ** The calls of a concrete frame *)

Section CallExamples.

Lemma modulation_difference_calls_witness :
  let calls :=
    peaq_mov_modulation_difference (fun _ => MoreExamples.mod_proc2 1 1)
      (fun _ => MoreExamples.mod_proc2 3 1) 1 MODE_RMS true false in
  let v :=
    mod_diff_values (fun _ => MoreExamples.mod_proc2 1 1)
      (fun _ => MoreExamples.mod_proc2 3 1) MODE_RMS true 0 in
  md_calls_on mov_accum1 0 calls = [(mod_diff_1b v, temp_wt v)] /\
  md_calls_on mov_accum2 0 calls = [(mod_diff_2b v, temp_wt v)] /\
  md_calls_on mov_accum_win 0 calls = [].
Proof.
  exact (modulation_difference_calls (fun _ => MoreExamples.mod_proc2 1 1)
           (fun _ => MoreExamples.mod_proc2 3 1) 1 MODE_RMS true false 0
           (Nat.lt_0_succ 0)).
Defined.

Lemma bandwidth_bounds_witness :
  let calls :=
    peaq_mov_bandwidth (fun _ => Examples.ref_bw 500)
      (fun _ => Examples.state1) 1 in
  (calls_on mov_accum_ref 0 calls = [] /\
   calls_on mov_accum_test 0 calls = []) \/
  (exists bw_ref bw_test,
     346 < bw_ref <= 921 /\ bw_test <= bw_ref /\
     calls_on mov_accum_ref 0 calls = [(INR bw_ref, 1%R)] /\
     calls_on mov_accum_test 0 calls = [(INR bw_test, 1%R)]).
Proof.
  exact (bandwidth_bounds (fun _ => Examples.ref_bw 500)
           (fun _ => Examples.state1) 1 0 (Nat.lt_0_succ 0)).
Defined.

End CallExamples.

(** ** The noise loudness family in exact arithmetic *)

Section NoiseLoudnessFamilyR.
Local Open Scope R_scope.

Lemma fold_left_add_nonneg {A : Type} (f : A -> R) (l : list A) (a : R) :
  0 <= a -> (forall x, In x l -> 0 <= f x) ->
  0 <= fold_left (fun s x => dadd s (f x)) l a.
Proof.
  revert a. induction l as [|x l IH]; intros a Ha Hl; [exact Ha|].
  cbn [fold_left]. apply IH.
  - specialize (Hl x (or_introl eq_refl)). unfold_ops. lra.
  - intros y Hy. apply Hl. now right.
Qed.

Lemma Rpower_ge_1 (x y : R) : 1 <= x -> 0 < y -> 1 <= Rpower x y.
Proof.
  intros Hx Hy. destruct (Req_dec x 1) as [->|Hne].
  - rewrite Rpower_one_base. lra.
  - left. apply Rpower_gt_1; lra.
Qed.

(** For a threshold [NLmin] that is not negative, [calc_noise_loudness]
    returns either 0 or a value that is at least [NLmin]. *)
Lemma calc_noise_loudness_range
    (alpha thres_fac S0 NLmin : R)
    (ref_mod_proc test_mod_proc : PeaqModulationProcessor R)
    (ref_excitation test_excitation : nat -> R) :
  0 <= NLmin ->
  let v := calc_noise_loudness alpha thres_fac S0 NLmin ref_mod_proc
             test_mod_proc ref_excitation test_excitation in
  (v = 0 \/ NLmin <= v) /\ 0 <= v.
Proof.
  intros HNL v. unfold v, calc_noise_loudness. unfold_ops. unfold Rlt_bool.
  destruct (Rlt_dec _ NLmin) as [Hlt|Hge].
  - split; [now left | lra].
  - split; [right|]; lra.
Qed.

(** X4.  With a positive internal noise, a positive [S0], a factor
    [thres_fac] and modulations that are not negative and a positive
    reference excitation in every band, every term of the sum of
    [calc_noise_loudness] is at least 0.  The scaled sum is then at least 0,
    and with [NLmin = 0] the function returns it unchanged: the clamp to
    zero does not fire. *)
Theorem noise_loudness_clamp_inactive
    (alpha thres_fac S0 : R)
    (ref_mod_proc test_mod_proc : PeaqModulationProcessor R)
    (ref_excitation test_excitation : nat -> R) :
  let ear_model := peaq_modulationprocessor_get_ear_model ref_mod_proc in
  let Z := peaq_earmodel_get_band_count ear_model in
  (1 <= Z)%nat -> 0 <= thres_fac -> 0 < S0 ->
  (forall k, (k < Z)%nat ->
     0 < peaq_earmodel_get_internal_noise ear_model k /\
     0 <= peaq_modulationprocessor_get_modulation ref_mod_proc k /\
     0 <= peaq_modulationprocessor_get_modulation test_mod_proc k /\
     0 < ref_excitation k) ->
  (forall k, (k < Z)%nat ->
     0 <= noise_loudness_band alpha thres_fac S0 ear_model
            (peaq_modulationprocessor_get_modulation ref_mod_proc)
            (peaq_modulationprocessor_get_modulation test_mod_proc)
            ref_excitation test_excitation k) /\
  0 <= noise_loudness_scaled alpha thres_fac S0 ref_mod_proc test_mod_proc
         ref_excitation test_excitation /\
  calc_noise_loudness alpha thres_fac S0 0 ref_mod_proc test_mod_proc
    ref_excitation test_excitation
  = noise_loudness_scaled alpha thres_fac S0 ref_mod_proc test_mod_proc
      ref_excitation test_excitation.
Proof.
  intros ear_model Z HZ Htf HS0 Hin.
  assert (Hband : forall k, (k < Z)%nat ->
     0 <= noise_loudness_band alpha thres_fac S0 ear_model
            (peaq_modulationprocessor_get_modulation ref_mod_proc)
            (peaq_modulationprocessor_get_modulation test_mod_proc)
            ref_excitation test_excitation k).
  { intros k Hk. destruct (Hin k Hk) as (Hn & Hmr & Hmt & He).
    unfold noise_loudness_band, noise_loudness_numerator.
    rewrite MAX_R. unfold_ops. fold ear_model.
    set (sref := thres_fac * peaq_modulationprocessor_get_modulation ref_mod_proc k + S0).
    set (stest := thres_fac * peaq_modulationprocessor_get_modulation test_mod_proc k + S0).
    set (ethres := peaq_earmodel_get_internal_noise ear_model k) in *.
    set (beta := exp _).
    assert (Hsref : 0 < sref) by (unfold sref; nra).
    assert (Hstest : 0 < stest) by (unfold stest; nra).
    assert (Hbeta : 0 < beta) by apply exp_pos.
    assert (Hden : 0 < ethres + sref * ref_excitation k * beta).
    { assert (0 < sref * ref_excitation k) by (apply Rmult_lt_0_compat; lra).
      assert (0 < sref * ref_excitation k * beta)
        by (apply Rmult_lt_0_compat; lra).
      lra. }
    set (num := Rmax _ 0).
    assert (Hnum : 0 <= num) by apply Rmax_r.
    assert (Hq : 0 <= num / (ethres + sref * ref_excitation k * beta)).
    { unfold Rdiv. apply Rmult_le_pos; [exact Hnum|].
      left. now apply Rinv_0_lt_compat. }
    rewrite !c_pow_pos by (try apply Rdiv_lt_0_compat; lra).
    pose proof (Rpower_pos (ethres / stest) 0.23) as Hp.
    pose proof (Rpower_ge_1
      (1 + num / (ethres + sref * ref_excitation k * beta)) 0.23
      ltac:(lra) ltac:(lra)) as Hge.
    nra. }
  assert (Hscaled : 0 <= noise_loudness_scaled alpha thres_fac S0
                           ref_mod_proc test_mod_proc ref_excitation
                           test_excitation).
  { unfold noise_loudness_scaled. fold ear_model. fold Z.
    assert (Hsum : 0 <= fold_left
      (fun s i => dadd s
         (noise_loudness_band alpha thres_fac S0 ear_model
            (peaq_modulationprocessor_get_modulation ref_mod_proc)
            (peaq_modulationprocessor_get_modulation test_mod_proc)
            ref_excitation test_excitation i)) (seq 0 Z) (lit 0)).
    { apply fold_left_add_nonneg; [unfold_ops; lra|].
      intros k Hk. apply in_seq in Hk. apply Hband. lia. }
    unfold_ops.
    assert (HZ' : 0 < INR Z) by (apply lt_0_INR; lia).
    apply Rmult_le_pos; [exact Hsum|].
    left. apply Rdiv_lt_0_compat; lra. }
  split; [exact Hband|]. split; [exact Hscaled|].
  unfold calc_noise_loudness. unfold_ops. rewrite Rlt_bool_false; [reflexivity|lra].
Qed.

Lemma noise_loudness_clamp_inactive_witness :
  calc_noise_loudness 1.5 0.15 0.5 0 (Examples.mod_proc 0)
    (Examples.mod_proc 1) (fun _ => 1) (fun _ => 1)
  = noise_loudness_scaled 1.5 0.15 0.5 (Examples.mod_proc 0)
      (Examples.mod_proc 1) (fun _ => 1) (fun _ => 1).
Proof.
  apply (noise_loudness_clamp_inactive 1.5 0.15 0.5 (Examples.mod_proc 0)
           (Examples.mod_proc 1) (fun _ => 1) (fun _ => 1)).
  - apply le_n.
  - lra.
  - lra.
  - intros k _.
    cbv [Examples.mod_proc Examples.ear_model1
         peaq_modulationprocessor_get_ear_model
         peaq_modulationprocessor_get_modulation
         peaq_earmodel_get_internal_noise].
    repeat split; lra.
Defined.

(** When the modulation and the excitation of the test signal are those of
    the reference in every band, the sum is 0 and so is the result. *)
Lemma calc_noise_loudness_identical
    (alpha thres_fac S0 NLmin : R)
    (ref_mod_proc test_mod_proc : PeaqModulationProcessor R)
    (ref_excitation test_excitation : nat -> R) :
  (forall k,
     peaq_modulationprocessor_get_modulation test_mod_proc k
     = peaq_modulationprocessor_get_modulation ref_mod_proc k) ->
  (forall k, test_excitation k = ref_excitation k) ->
  calc_noise_loudness alpha thres_fac S0 NLmin ref_mod_proc test_mod_proc
    ref_excitation test_excitation = 0.
Proof.
  intros Hm He.
  assert (HNL : noise_loudness_scaled alpha thres_fac S0 ref_mod_proc
                  test_mod_proc ref_excitation test_excitation = 0).
  { unfold noise_loudness_scaled. rewrite fold_left_add_zero.
    - unfold_ops. lra.
    - intros k _. unfold noise_loudness_band, noise_loudness_numerator.
      rewrite MAX_R, Hm, He. unfold_ops.
      match goal with
      | |- context [Rmax ?a 0] =>
          replace (Rmax a 0) with 0 by (rewrite Rmax_left; lra)
      end.
      match goal with
      | |- context [1 + 0 / ?d] =>
          replace (1 + 0 / d) with 1 by (unfold Rdiv; lra)
      end.
      rewrite (c_pow_pos 1) by lra. rewrite Rpower_one_base. lra. }
  unfold calc_noise_loudness. rewrite HNL. unfold_ops. unfold Rlt_bool.
  destruct (Rlt_dec 0 NLmin); reflexivity.
Qed.

(** X5.  When, in every channel, the test signal has the modulation of the
    reference and the level adapter gives the same adapted pattern for
    both, [peaq_mov_noise_loudness] accumulates 0 with weight 1 and
    [peaq_mov_noise_loud_asym] accumulates 0 with weight 0, whether
    SWAP_MOD_PATTS_FOR_NOISE_LOUDNESS_MOVS is set or not. *)
Theorem noise_loudness_identical_signals (cfg : Settings)
    (ref_mod_proc test_mod_proc : nat -> PeaqModulationProcessor R)
    (level : nat -> PeaqLevelAdapter R) (channels c : nat) :
  (c < channels)%nat ->
  (forall k,
     peaq_modulationprocessor_get_modulation (test_mod_proc c) k
     = peaq_modulationprocessor_get_modulation (ref_mod_proc c) k) ->
  (forall k,
     peaq_leveladapter_get_adapted_test (level c) k
     = peaq_leveladapter_get_adapted_ref (level c) k) ->
  calls_on mov_accum c
    (peaq_mov_noise_loudness ref_mod_proc test_mod_proc level channels)
  = [(0, 1)] /\
  calls_on mov_accum c
    (peaq_mov_noise_loud_asym cfg ref_mod_proc test_mod_proc level channels)
  = [(0, 0)].
Proof.
  intros Hc Hm He. split.
  - unfold peaq_mov_noise_loudness.
    rewrite (calls_on_map mov_accum _ (fun _ => lit 1) c channels Hc).
    now rewrite calc_noise_loudness_identical.
  - unfold peaq_mov_noise_loud_asym.
    rewrite (calls_on_map mov_accum
               (fun c => fst (noise_loud_asym_values cfg ref_mod_proc
                                test_mod_proc level c))
               (fun c => snd (noise_loud_asym_values cfg ref_mod_proc
                                test_mod_proc level c)) c channels Hc).
    unfold noise_loud_asym_values. cbn [fst snd].
    rewrite calc_noise_loudness_identical by assumption.
    destruct (SWAP_MOD_PATTS_FOR_NOISE_LOUDNESS_MOVS cfg);
      rewrite calc_noise_loudness_identical; auto.
Qed.

Lemma noise_loudness_identical_signals_witness :
  (0 < 1)%nat /\
  calls_on mov_accum 0
    (peaq_mov_noise_loud_asym pinned_settings (fun _ => Examples.mod_proc 1)
       (fun _ => Examples.mod_proc 1) (fun _ => Examples.level1) 1)
  = [(0, 0)].
Proof.
  split; [lia|].
  apply (noise_loudness_identical_signals pinned_settings
           (fun _ => Examples.mod_proc 1) (fun _ => Examples.mod_proc 1)
           (fun _ => Examples.level1) 1 0).
  - lia.
  - intros k. reflexivity.
  - intros k. reflexivity.
Defined.

(** X6.  Whatever the patterns are, the value [peaq_mov_noise_loud_asym]
    accumulates for a channel is 0 or at least 0.1, and the weight it passes
    (the missing components) is never negative; the values
    [peaq_mov_noise_loudness] and [peaq_mov_lin_dist] accumulate are never
    negative. *)
Theorem noise_loudness_values_range (cfg : Settings)
    (ref_mod_proc test_mod_proc : nat -> PeaqModulationProcessor R)
    (level : nat -> PeaqLevelAdapter R) (state : nat -> EarModelState R)
    (channels c : nat) :
  (c < channels)%nat ->
  (exists v w,
     calls_on mov_accum c
       (peaq_mov_noise_loud_asym cfg ref_mod_proc test_mod_proc level
          channels) = [(v, w)] /\
     (v = 0 \/ 0.1 <= v) /\ 0 <= w) /\
  (exists v,
     calls_on mov_accum c
       (peaq_mov_noise_loudness ref_mod_proc test_mod_proc level channels)
     = [(v, 1)] /\ 0 <= v) /\
  (exists v,
     calls_on mov_accum c
       (peaq_mov_lin_dist cfg ref_mod_proc test_mod_proc level state
          channels) = [(v, 1)] /\ 0 <= v).
Proof.
  intros Hc. split; [|split].
  - eexists. eexists. split.
    + unfold peaq_mov_noise_loud_asym.
      exact (calls_on_map mov_accum
               (fun c => fst (noise_loud_asym_values cfg ref_mod_proc
                                test_mod_proc level c))
               (fun c => snd (noise_loud_asym_values cfg ref_mod_proc
                                test_mod_proc level c)) c channels Hc).
    + unfold noise_loud_asym_values. cbn [fst snd]. unfold_ops. split.
      * apply calc_noise_loudness_range. lra.
      * destruct (SWAP_MOD_PATTS_FOR_NOISE_LOUDNESS_MOVS cfg);
          apply calc_noise_loudness_range; lra.
  - eexists. split.
    + unfold peaq_mov_noise_loudness.
      exact (calls_on_map mov_accum _ (fun _ => lit 1) c channels Hc).
    + cbv beta. unfold_ops. apply calc_noise_loudness_range. lra.
  - eexists. split.
    + unfold peaq_mov_lin_dist.
      exact (calls_on_map mov_accum _ (fun _ => lit 1) c channels Hc).
    + cbv beta. unfold_ops.
      destruct (SWAP_MOD_PATTS_FOR_NOISE_LOUDNESS_MOVS cfg);
        apply calc_noise_loudness_range; lra.
Qed.

Lemma noise_loudness_values_range_witness :
  exists v,
    calls_on mov_accum 0
      (peaq_mov_noise_loudness (fun _ => Examples.mod_proc 0)
         (fun _ => Examples.mod_proc 1) (fun _ => Examples.level1) 1)
    = [(v, 1)] /\ 0 <= v.
Proof.
  exact (proj1 (proj2 (noise_loudness_values_range pinned_settings
                         (fun _ => Examples.mod_proc 0)
                         (fun _ => Examples.mod_proc 1)
                         (fun _ => Examples.level1)
                         (fun _ => Examples.state1) 1 0 (Nat.lt_0_succ 0)))).
Defined.

End NoiseLoudnessFamilyR.

(** ** peaq_mov_modulation_difference in exact arithmetic *)

Section ModDiffR.
Local Open Scope R_scope.

Lemma ABS_R (a : R) : ABS a = Rabs a.
Proof.
  unfold ABS. unfold_ops. unfold Rlt_bool, Rabs. cbn [INR].
  destruct (Rlt_dec a 0), (Rcase_abs a); lra.
Qed.

(** The three sums of the loop are three independent folds. *)
Lemma mod_diff_fold_components (t : nat -> ModDiffSums R) (l : list nat)
    (st : ModDiffSums R) :
  let st' :=
    fold_left
      (fun st i =>
         {| mod_diff_1b := dadd (mod_diff_1b st) (mod_diff_1b (t i));
            mod_diff_2b := dadd (mod_diff_2b st) (mod_diff_2b (t i));
            temp_wt := dadd (temp_wt st) (temp_wt (t i)) |}) l st in
  mod_diff_1b st'
  = fold_left (fun s i => dadd s (mod_diff_1b (t i))) l (mod_diff_1b st) /\
  mod_diff_2b st'
  = fold_left (fun s i => dadd s (mod_diff_2b (t i))) l (mod_diff_2b st) /\
  temp_wt st'
  = fold_left (fun s i => dadd s (temp_wt (t i))) l (temp_wt st).
Proof.
  revert st. induction l as [|i l IH]; intros st; cbn [fold_left].
  - cbv zeta. auto.
  - apply IH.
Qed.

Lemma fold_left_add_le {A : Type} (f g : A -> R) (l : list A) (a b : R) :
  a <= b -> (forall x, In x l -> f x <= g x) ->
  fold_left (fun s x => dadd s (f x)) l a
  <= fold_left (fun s x => dadd s (g x)) l b.
Proof.
  revert a b. induction l as [|x l IH]; intros a b Hab Hl; [exact Hab|].
  cbn [fold_left]. apply IH.
  - specialize (Hl x (or_introl eq_refl)). unfold_ops. lra.
  - intros y Hy. apply Hl. now right.
Qed.

Lemma fold_left_add_const {A : Type} (l : list A) (a c : R) :
  fold_left (fun s _ => dadd s c) l a = a + INR (length l) * c.
Proof.
  revert a. induction l as [|x l IH]; intros a.
  - cbn [fold_left length INR]. lra.
  - cbn [fold_left]. rewrite IH. change (length (x :: l)) with (S (length l)).
    rewrite S_INR. unfold_ops. lra.
Qed.

(** The calls of channel [c] to [mov_accum1]. *)
Lemma md_calls_on_accum1
    (ref_mod_proc test_mod_proc : nat -> PeaqModulationProcessor R)
    (channels : nat) (m : PeaqMovAccumMode) (given2 given_win : bool)
    (c : nat) :
  (c < channels)%nat ->
  md_calls_on mov_accum1 c
    (peaq_mov_modulation_difference ref_mod_proc test_mod_proc channels m
       given2 given_win)
  = [(mod_diff_1b (mod_diff_values ref_mod_proc test_mod_proc m given2 c),
      temp_wt (mod_diff_values ref_mod_proc test_mod_proc m given2 c))].
Proof.
  intros Hc. unfold peaq_mov_modulation_difference.
  rewrite md_calls_on_channel_loop by lia.
  unfold peaq_mov_modulation_difference_channel.
  rewrite !md_calls_on_app, !md_calls_on_cons.
  cbn [md_accum md_channel md_val md_weight ModDiffAccumArg_eqb andb].
  rewrite Nat.eqb_refl.
  destruct given2, given_win;
    rewrite ?md_calls_on_cons;
    cbn [md_accum md_channel md_val md_weight ModDiffAccumArg_eqb andb];
    reflexivity.
Qed.

(** Every call of a frame carries values of [mod_diff_values]. *)
Lemma mod_diff_call_values
    (ref_mod_proc test_mod_proc : nat -> PeaqModulationProcessor R)
    (channels : nat) (m : PeaqMovAccumMode) (given2 given_win : bool)
    (k : ModDiffCall R) :
  In k (peaq_mov_modulation_difference ref_mod_proc test_mod_proc channels m
          given2 given_win) ->
  exists c, (c < channels)%nat /\
    let v := mod_diff_values ref_mod_proc test_mod_proc m given2 c in
    (md_val k = mod_diff_1b v \/ md_val k = mod_diff_2b v) /\
    (md_weight k = temp_wt v \/ md_weight k = 1).
Proof.
  unfold peaq_mov_modulation_difference. intros Hin.
  apply in_flat_map in Hin. destruct Hin as [c [Hc Hin]].
  apply in_seq in Hc. exists c. split; [lia|]. cbv zeta.
  unfold peaq_mov_modulation_difference_channel in Hin.
  cbn [app] in Hin. destruct Hin as [<-|Hin]; [cbn; auto|].
  apply in_app_or in Hin. destruct Hin as [Hin|Hin].
  - destruct given2; cbn [In] in Hin; try contradiction.
    destruct Hin as [<-|[]]. cbn. auto.
  - destruct given_win; cbn [In] in Hin; try contradiction.
    destruct Hin as [<-|[]]. cbn. auto.
Qed.

Lemma mod_diff_scale_pos (m : PeaqMovAccumMode) (Z : nat) :
  (1 <= Z)%nat -> 0 < 100 / sqrt (INR Z) /\ 0 < 100 / INR Z.
Proof.
  intros HZ. assert (HZ' : 0 < INR Z) by (apply lt_0_INR; lia).
  split; apply Rdiv_lt_0_compat; try lra. now apply sqrt_lt_R0.
Qed.

(** X7.  When the test signal has the modulation of the reference in every
    band of every channel, every value [peaq_mov_modulation_difference]
    accumulates is 0. *)
Theorem modulation_difference_identical
    (ref_mod_proc test_mod_proc : nat -> PeaqModulationProcessor R)
    (channels : nat) (m : PeaqMovAccumMode) (given2 given_win : bool) :
  (forall c k, (c < channels)%nat ->
     (k < peaq_earmodel_get_band_count
            (peaq_modulationprocessor_get_ear_model (ref_mod_proc 0%nat)))%nat ->
     peaq_modulationprocessor_get_modulation (test_mod_proc c) k
     = peaq_modulationprocessor_get_modulation (ref_mod_proc c) k) ->
  Forall (fun k => md_val k = 0)
    (peaq_mov_modulation_difference ref_mod_proc test_mod_proc channels m
       given2 given_win).
Proof.
  intros Hsame. apply Forall_forall. intros k Hin.
  apply mod_diff_call_values in Hin. destruct Hin as (c & Hc & Hval & _).
  assert (Hloop : forall levWt,
    mod_diff_1b (mod_diff_band_loop levWt ref_mod_proc test_mod_proc c) = 0 /\
    mod_diff_2b (mod_diff_band_loop levWt ref_mod_proc test_mod_proc c) = 0).
  { intros levWt. unfold mod_diff_band_loop.
    match goal with
    | |- context [fold_left _ ?l ?st] =>
        destruct (mod_diff_fold_components
          (mod_diff_band levWt
             (peaq_modulationprocessor_get_ear_model (ref_mod_proc 0%nat))
             (peaq_modulationprocessor_get_modulation (ref_mod_proc c))
             (peaq_modulationprocessor_get_modulation (test_mod_proc c))
             (peaq_modulationprocessor_get_average_loudness (ref_mod_proc c)))
          l st) as (E1 & E2 & _)
    end.
    cbv zeta in E1, E2. rewrite E1, E2. cbn [mod_diff_1b mod_diff_2b].
    split; (rewrite fold_left_add_zero; [reflexivity|]);
      intros i Hi; apply in_seq in Hi;
      unfold mod_diff_band; cbn [mod_diff_1b mod_diff_2b];
      rewrite ABS_R, (Hsame c i) by lia; unfold_ops;
      replace (peaq_modulationprocessor_get_modulation (ref_mod_proc c) i
               - peaq_modulationprocessor_get_modulation (ref_mod_proc c) i)
        with 0 by lra;
      rewrite Rabs_R0; unfold Rdiv; ring. }
  unfold mod_diff_values in Hval. cbn [mod_diff_1b mod_diff_2b] in Hval.
  destruct (Hloop (if given2 then lit 100 else lit 1)) as [E1 E2].
  rewrite E1, E2 in Hval. unfold_ops.
  destruct Hval as [-> | ->]; [destruct (PeaqMovAccumMode_eqb m MODE_RMS)|];
    unfold Rdiv; ring.
Qed.

Lemma modulation_difference_identical_witness :
  Forall (fun k => md_val k = 0)
    (peaq_mov_modulation_difference (fun _ => MoreExamples.mod_proc2 1 1)
       (fun _ => MoreExamples.mod_proc2 1 1) 1 MODE_AVG true true).
Proof.
  exact (modulation_difference_identical
           (fun _ => MoreExamples.mod_proc2 1 1)
           (fun _ => MoreExamples.mod_proc2 1 1) 1 MODE_AVG true true
           (fun _ _ _ _ => eq_refl)).
Defined.

Lemma temp_wt_term_range (a q : R) :
  0 <= a -> 0 < q -> 0 <= a / (a + q) <= 1.
Proof.
  intros Ha Hq. assert (Hd : 0 < / (a + q)) by (apply Rinv_0_lt_compat; lra).
  unfold Rdiv. split; [nra|].
  replace 1 with ((a + q) * / (a + q)) by (field; lra). nra.
Qed.

(** X8.  With at least one band, a modulation and an average loudness of the
    reference that are not negative and a positive internal noise, every
    value [peaq_mov_modulation_difference] accumulates is at least 0 and
    every weight it passes lies between 0 and the number of bands. *)
Theorem modulation_difference_ranges
    (ref_mod_proc test_mod_proc : nat -> PeaqModulationProcessor R)
    (channels : nat) (m : PeaqMovAccumMode) (given2 given_win : bool) :
  let ear_model :=
    peaq_modulationprocessor_get_ear_model (ref_mod_proc 0%nat) in
  let Z := peaq_earmodel_get_band_count ear_model in
  (1 <= Z)%nat ->
  (forall c k, (c < channels)%nat -> (k < Z)%nat ->
     0 <= peaq_modulationprocessor_get_modulation (ref_mod_proc c) k /\
     0 <= peaq_modulationprocessor_get_average_loudness (ref_mod_proc c) k /\
     0 < peaq_earmodel_get_internal_noise ear_model k) ->
  Forall (fun k => 0 <= md_val k /\ 0 <= md_weight k <= INR Z)
    (peaq_mov_modulation_difference ref_mod_proc test_mod_proc channels m
       given2 given_win).
Proof.
  intros ear_model Z HZ Hin. apply Forall_forall. intros k Hk.
  apply mod_diff_call_values in Hk. destruct Hk as (c & Hc & Hval & Hw).
  cbv zeta in Hval, Hw.
  assert (HZ1 : 1 <= INR Z) by (change 1 with (INR 1); apply le_INR; lia).
  set (levWt := if given2 then lit 100 else lit 1 : R).
  assert (HlevWt : 0 < levWt) by (unfold levWt; destruct given2; unfold_ops; lra).
  destruct (mod_diff_fold_components
    (mod_diff_band levWt ear_model
       (peaq_modulationprocessor_get_modulation (ref_mod_proc c))
       (peaq_modulationprocessor_get_modulation (test_mod_proc c))
       (peaq_modulationprocessor_get_average_loudness (ref_mod_proc c)))
    (seq 0 Z)
    {| mod_diff_1b := lit 0; mod_diff_2b := lit 0; temp_wt := lit 0 |})
    as (E1 & E2 & E3).
  cbv zeta in E1, E2, E3.
  set (t := mod_diff_band levWt ear_model
       (peaq_modulationprocessor_get_modulation (ref_mod_proc c))
       (peaq_modulationprocessor_get_modulation (test_mod_proc c))
       (peaq_modulationprocessor_get_average_loudness (ref_mod_proc c))) in *.
  assert (E1' : mod_diff_1b (mod_diff_band_loop levWt ref_mod_proc
                               test_mod_proc c)
                = fold_left (fun s i => dadd s (mod_diff_1b (t i)))
                    (seq 0 Z) (lit 0)) by exact E1.
  assert (E2' : mod_diff_2b (mod_diff_band_loop levWt ref_mod_proc
                               test_mod_proc c)
                = fold_left (fun s i => dadd s (mod_diff_2b (t i)))
                    (seq 0 Z) (lit 0)) by exact E2.
  assert (E3' : temp_wt (mod_diff_band_loop levWt ref_mod_proc
                           test_mod_proc c)
                = fold_left (fun s i => dadd s (temp_wt (t i)))
                    (seq 0 Z) (lit 0)) by exact E3.
  clear E1 E2 E3. rename E1' into E1, E2' into E2, E3' into E3.
  subst t.
  assert (H1 : 0 <= mod_diff_1b (mod_diff_band_loop levWt ref_mod_proc
                                   test_mod_proc c)).
  { rewrite E1. apply fold_left_add_nonneg; [unfold_ops; lra|].
    intros i Hi. apply in_seq in Hi. destruct (Hin c i) as (Hm & _ & _); [lia..|].
    unfold mod_diff_band. cbn [mod_diff_1b]. rewrite ABS_R. unfold_ops.
    apply Rmult_le_pos; [apply Rabs_pos|].
    left. apply Rinv_0_lt_compat. lra. }
  assert (H2 : 0 <= mod_diff_2b (mod_diff_band_loop levWt ref_mod_proc
                                   test_mod_proc c)).
  { rewrite E2. apply fold_left_add_nonneg; [unfold_ops; lra|].
    intros i Hi. apply in_seq in Hi. destruct (Hin c i) as (Hm & _ & _); [lia..|].
    unfold mod_diff_band. cbn [mod_diff_2b]. rewrite ABS_R. unfold_ops.
    apply Rmult_le_pos; [|left; apply Rinv_0_lt_compat; lra].
    apply Rmult_le_pos; [|apply Rabs_pos].
    destruct (Rle_bool _ _); lra. }
  assert (H3 : 0 <= temp_wt (mod_diff_band_loop levWt ref_mod_proc
                               test_mod_proc c) <= INR Z).
  { rewrite E3.
    assert (Hterm : forall i : nat, In i (seq 0 Z) ->
      0 <= temp_wt (mod_diff_band levWt ear_model
             (peaq_modulationprocessor_get_modulation (ref_mod_proc c))
             (peaq_modulationprocessor_get_modulation (test_mod_proc c))
             (peaq_modulationprocessor_get_average_loudness (ref_mod_proc c))
             i) <= 1).
    { intros i Hi. apply in_seq in Hi.
      destruct (Hin c i) as (_ & Ha & Hn); [lia..|].
      unfold mod_diff_band. cbn [temp_wt]. unfold_ops.
      apply temp_wt_term_range; [exact Ha|].
      rewrite c_pow_pos by exact Hn.
      apply Rmult_lt_0_compat; [exact HlevWt | apply Rpower_pos]. }
    split.
    - apply fold_left_add_nonneg; [unfold_ops; lra|].
      intros i Hi. apply Hterm. exact Hi.
    - apply Rle_trans with
        (fold_left (fun s (_ : nat) => dadd s 1) (seq 0 Z) (lit 0)).
      + apply fold_left_add_le; [lra|]. intros i Hi. apply Hterm. exact Hi.
      + rewrite fold_left_add_const, length_seq. unfold_ops. lra. }
  destruct (mod_diff_scale_pos m Z HZ) as [Hs1 Hs2].
  unfold mod_diff_values in Hval, Hw.
  cbn [mod_diff_1b mod_diff_2b temp_wt] in Hval, Hw.
  fold ear_model in Hval. fold Z in Hval. fold levWt in Hval, Hw.
  split.
  - destruct Hval as [-> | ->];
      [destruct (PeaqMovAccumMode_eqb m MODE_RMS)|]; unfold_ops;
      apply Rmult_le_pos; lra.
  - destruct Hw as [-> | ->]; lra.
Qed.

Lemma example_mod_proc2_inputs (c k : nat) :
  (c < 1)%nat ->
  (k < peaq_earmodel_get_band_count
         (peaq_modulationprocessor_get_ear_model
            (MoreExamples.mod_proc2 1 1)))%nat ->
  0 <= peaq_modulationprocessor_get_modulation (MoreExamples.mod_proc2 1 1) k /\
  0 <= peaq_modulationprocessor_get_average_loudness
         (MoreExamples.mod_proc2 1 1) k /\
  0 < peaq_earmodel_get_internal_noise
        (peaq_modulationprocessor_get_ear_model (MoreExamples.mod_proc2 1 1))
        k.
Proof.
  intros _ _.
  cbv [MoreExamples.mod_proc2 Examples.ear_model1
       peaq_modulationprocessor_get_ear_model
       peaq_modulationprocessor_get_modulation
       peaq_modulationprocessor_get_average_loudness
       peaq_earmodel_get_internal_noise].
  repeat split; lra.
Qed.

Lemma modulation_difference_ranges_witness :
  Forall (fun k => 0 <= md_val k /\ 0 <= md_weight k <= INR 1)
    (peaq_mov_modulation_difference
       (fun _ => MoreExamples.mod_proc2 1 1)
       (fun _ => MoreExamples.mod_proc2 3 1) 1 MODE_RMS true true).
Proof.
  exact (modulation_difference_ranges
           (fun _ => MoreExamples.mod_proc2 1 1)
           (fun _ => MoreExamples.mod_proc2 3 1) 1 MODE_RMS true true
           (le_n 1) example_mod_proc2_inputs).
Defined.

(** X9.  With at least one band, the value given to [mov_accum1] when its
    mode is MODE_RMS is the square root of the number of bands times the
    value given when its mode is any other; the weight is the same. *)
Theorem modulation_difference_rms_scaling
    (ref_mod_proc test_mod_proc : nat -> PeaqModulationProcessor R)
    (channels : nat) (m : PeaqMovAccumMode) (given2 given_win : bool)
    (c : nat) :
  let Z := peaq_earmodel_get_band_count
             (peaq_modulationprocessor_get_ear_model (ref_mod_proc 0%nat)) in
  (1 <= Z)%nat -> m <> MODE_RMS -> (c < channels)%nat ->
  exists v w,
    md_calls_on mov_accum1 c
      (peaq_mov_modulation_difference ref_mod_proc test_mod_proc channels m
         given2 given_win) = [(v, w)] /\
    md_calls_on mov_accum1 c
      (peaq_mov_modulation_difference ref_mod_proc test_mod_proc channels
         MODE_RMS given2 given_win) = [(sqrt (INR Z) * v, w)].
Proof.
  intros Z HZ Hm Hc. eexists. eexists.
  split; [apply md_calls_on_accum1; exact Hc|].
  rewrite md_calls_on_accum1 by exact Hc.
  unfold mod_diff_values. cbn [mod_diff_1b temp_wt PeaqMovAccumMode_eqb].
  replace (PeaqMovAccumMode_eqb m MODE_RMS) with false
    by (destruct m; try reflexivity; contradiction).
  fold Z. unfold_ops. f_equal. f_equal.
  assert (HZ' : 0 < INR Z) by (apply lt_0_INR; lia).
  assert (Hs : 0 < sqrt (INR Z)) by now apply sqrt_lt_R0.
  assert (E : INR Z = sqrt (INR Z) * sqrt (INR Z))
    by (symmetry; apply sqrt_sqrt; lra).
  set (s := sqrt (INR Z)) in *. rewrite E. field. lra.
Qed.

Lemma modulation_difference_rms_scaling_witness :
  exists v w,
    md_calls_on mov_accum1 0
      (peaq_mov_modulation_difference (fun _ => MoreExamples.mod_proc2 1 1)
         (fun _ => MoreExamples.mod_proc2 3 1) 1 MODE_AVG true true)
    = [(v, w)] /\
    md_calls_on mov_accum1 0
      (peaq_mov_modulation_difference (fun _ => MoreExamples.mod_proc2 1 1)
         (fun _ => MoreExamples.mod_proc2 3 1) 1 MODE_RMS true true)
    = [(sqrt (INR 1) * v, w)].
Proof.
  apply (modulation_difference_rms_scaling
           (fun _ => MoreExamples.mod_proc2 1 1)
           (fun _ => MoreExamples.mod_proc2 3 1) 1 MODE_AVG true true 0).
  - apply le_n.
  - discriminate.
  - apply Nat.lt_0_succ.
Defined.

(** X10.  With an average loudness of the reference that is not negative
    and a positive internal noise, the weight [temp_wt] computed when
    [mov_accum2] is given (levWt = 100) is never larger than the one computed
    when it is NULL (levWt = 1). *)
Theorem modulation_difference_levWt
    (ref_mod_proc test_mod_proc : nat -> PeaqModulationProcessor R)
    (m : PeaqMovAccumMode) (c : nat) :
  let ear_model :=
    peaq_modulationprocessor_get_ear_model (ref_mod_proc 0%nat) in
  let Z := peaq_earmodel_get_band_count ear_model in
  (forall k, (k < Z)%nat ->
     0 <= peaq_modulationprocessor_get_average_loudness (ref_mod_proc c) k /\
     0 < peaq_earmodel_get_internal_noise ear_model k) ->
  temp_wt (mod_diff_values ref_mod_proc test_mod_proc m true c)
  <= temp_wt (mod_diff_values ref_mod_proc test_mod_proc m false c).
Proof.
  intros ear_model Z Hin. unfold mod_diff_values. cbn [temp_wt].
  unfold mod_diff_band_loop. fold ear_model. fold Z.
  match goal with
  | |- temp_wt (fold_left _ ?l ?st) <= _ =>
      destruct (mod_diff_fold_components
        (mod_diff_band (lit 100) ear_model
           (peaq_modulationprocessor_get_modulation (ref_mod_proc c))
           (peaq_modulationprocessor_get_modulation (test_mod_proc c))
           (peaq_modulationprocessor_get_average_loudness (ref_mod_proc c)))
        l st) as (_ & _ & E100);
      destruct (mod_diff_fold_components
        (mod_diff_band (lit 1) ear_model
           (peaq_modulationprocessor_get_modulation (ref_mod_proc c))
           (peaq_modulationprocessor_get_modulation (test_mod_proc c))
           (peaq_modulationprocessor_get_average_loudness (ref_mod_proc c)))
        l st) as (_ & _ & E1)
  end.
  cbv zeta in E100, E1. rewrite E100, E1.
  apply fold_left_add_le; [lra|].
  intros k Hk. apply in_seq in Hk. destruct (Hin k) as [Ha Hn]; [lia|].
  unfold mod_diff_band. cbn [temp_wt]. unfold_ops.
  rewrite c_pow_pos by exact Hn.
  pose proof (Rpower_pos (peaq_earmodel_get_internal_noise ear_model k) 0.3)
    as Hp.
  set (a := peaq_modulationprocessor_get_average_loudness (ref_mod_proc c) k)
    in *.
  set (p := Rpower _ _) in *.
  unfold Rdiv. apply Rmult_le_compat_l; [exact Ha|].
  apply Rinv_le_contravar; lra.
Qed.

Lemma modulation_difference_levWt_witness :
  temp_wt (mod_diff_values (fun _ => MoreExamples.mod_proc2 1 1)
             (fun _ => MoreExamples.mod_proc2 3 1) MODE_AVG true 0)
  <= temp_wt (mod_diff_values (fun _ => MoreExamples.mod_proc2 1 1)
                (fun _ => MoreExamples.mod_proc2 3 1) MODE_AVG false 0).
Proof.
  apply (modulation_difference_levWt (fun _ => MoreExamples.mod_proc2 1 1)
           (fun _ => MoreExamples.mod_proc2 3 1) MODE_AVG 0).
  intros k _.
  cbv [MoreExamples.mod_proc2 Examples.ear_model1
       peaq_modulationprocessor_get_ear_model
       peaq_modulationprocessor_get_average_loudness
       peaq_earmodel_get_internal_noise].
  split; lra.
Defined.

End ModDiffR.

(** ** Identical signals: bandwidth, noise-to-mask ratio, detection *)

Section IdenticalSignalsR.
Local Open Scope R_scope.

(** The calls of channel [c] are those of the body of the loop. *)
Lemma bandwidth_calls_on_channel
    (ref_state test_state : nat -> EarModelState R) (channels c : nat)
    (a : AccumArg) :
  (c < channels)%nat ->
  calls_on a c (peaq_mov_bandwidth ref_state test_state channels)
  = calls_on a c (peaq_mov_bandwidth_channel ref_state test_state c).
Proof.
  intros Hc. unfold peaq_mov_bandwidth.
  apply calls_on_flat_map; [|lia].
  intros c' k. unfold peaq_mov_bandwidth_channel.
  destruct (_ <? _)%nat; [|intros []].
  intros [<-|[<-|[]]]; reflexivity.
Qed.

Lemma search_down_ext (p q : nat -> bool) (n : nat) :
  (forall j, p j = q j) -> search_down p n = search_down q n.
Proof.
  intros Hpq. induction n as [|n IH]; [reflexivity|].
  cbn [search_down]. now rewrite Hpq, IH.
Qed.

Lemma bandwidth_zero_threshold_ext (F G : nat -> R) :
  (forall n, F n = G n) ->
  bandwidth_zero_threshold F = bandwidth_zero_threshold G.
Proof.
  intros HFG. unfold bandwidth_zero_threshold. rewrite (HFG 921%nat).
  apply fold_left_ext_in. intros st k _. now rewrite HFG.
Qed.

(** X11.  When the reference and the test signal of a channel have the same
    power spectrum, without negative values, the test bandwidth equals the
    reference bandwidth: [mov_accum_test] receives what [mov_accum_ref]
    receives. *)
Theorem bandwidth_identical_spectra
    (ref_state test_state : nat -> EarModelState R) (channels c : nat) :
  (c < channels)%nat ->
  (forall n,
     peaq_fftearmodel_get_power_spectrum (test_state c) n
     = peaq_fftearmodel_get_power_spectrum (ref_state c) n) ->
  (forall n, 0 <= peaq_fftearmodel_get_power_spectrum (ref_state c) n) ->
  calls_on mov_accum_test c
    (peaq_mov_bandwidth ref_state test_state channels)
  = calls_on mov_accum_ref c
      (peaq_mov_bandwidth ref_state test_state channels).
Proof.
  intros Hc Hsame Hpos.
  set (F := peaq_fftearmodel_get_power_spectrum (ref_state c)) in *.
  set (G := peaq_fftearmodel_get_power_spectrum (test_state c)) in *.
  set (zt := bandwidth_zero_threshold F).
  assert (Hzt : 0 <= zt).
  { destruct (bandwidth_zero_threshold_max F) as [(n & _ & E) _].
    fold zt in E. rewrite <- E. apply Hpos. }
  assert (Hbw : bandwidth_bw_test F zt (bandwidth_bw_ref F zt)
                = bandwidth_bw_ref F zt).
  { pose proof (search_down_spec
      (fun j => dlt (dmul (lit 10) zt) (F j)) 921) as Hs.
    fold (bandwidth_bw_ref F zt) in Hs.
    destruct Hs as [(Hb & Hp & _) | (Hb & _)].
    - destruct (bandwidth_bw_ref F zt) as [|j]; [lia|].
      unfold bandwidth_bw_test. cbn [search_down].
      cbn [Nat.sub] in Hp. rewrite Nat.sub_0_r in Hp.
      unfold FIVE_DB_POWER_FACTOR. unfold_ops.
      apply Rlt_bool_iff in Hp.
      replace (Rle_bool (3.16227766016838 * zt) (F j)) with true;
        [reflexivity|].
      symmetry. apply Rle_bool_iff. lra.
    - rewrite Hb. reflexivity. }
  rewrite !bandwidth_calls_on_channel by exact Hc.
  unfold peaq_mov_bandwidth_channel. fold F. fold G.
  rewrite (bandwidth_zero_threshold_ext G F Hsame). fold zt.
  replace (bandwidth_bw_test G zt (bandwidth_bw_ref F zt))
    with (bandwidth_bw_test F zt (bandwidth_bw_ref F zt)).
  - rewrite Hbw.
    destruct (346 <? bandwidth_bw_ref F zt)%nat; calls_on_eval; reflexivity.
  - unfold bandwidth_bw_test. apply search_down_ext.
    intros j. now rewrite Hsame.
Qed.

Lemma bandwidth_identical_spectra_witness :
  calls_on mov_accum_test 0
    (peaq_mov_bandwidth (fun _ => Examples.ref_bw 500)
       (fun _ => Examples.ref_bw 500) 1)
  = calls_on mov_accum_ref 0
      (peaq_mov_bandwidth (fun _ => Examples.ref_bw 500)
         (fun _ => Examples.ref_bw 500) 1).
Proof.
  apply (bandwidth_identical_spectra (fun _ => Examples.ref_bw 500)
           (fun _ => Examples.ref_bw 500) 1 0).
  - apply Nat.lt_0_succ.
  - intros n. reflexivity.
  - intros n.
    cbv [Examples.ref_bw Examples.state_of
         peaq_fftearmodel_get_power_spectrum].
    destruct (n <? 500)%nat; lra.
Defined.

End IdenticalSignalsR.

(** ** The detection step size and the steps above the threshold *)

Section DetectionR.
Local Open Scope R_scope.

(** The polynomial part of (74) is positive from 6 dB on. *)
Lemma step_size_polynomial_pos (l : R) :
  6 <= l ->
  0 < 9.01033e-11 * l ^ 4 + 5.05622e-6 * l ^ 3
      - 0.00102438 * l * l + 0.0550197 * l - 0.198719.
Proof.
  intros Hl.
  pose proof (pow4_nonneg l) as H4.
  pose proof (Rle_0_sqr (101.3 - l)) as Hsq. unfold Rsqr in Hsq.
  set (u := (101.3 - l) * (101.3 - l)) in *.
  assert (Hq : 5.05622e-6 * (l * l) - 0.00102438 * l + 0.0550197
               >= 0.0031 + 5.05622e-6 * u) by (unfold u; lra).
  set (q := 5.05622e-6 * (l * l) - 0.00102438 * l + 0.0550197) in *.
  replace (9.01033e-11 * l ^ 4 + 5.05622e-6 * l ^ 3
           - 0.00102438 * l * l + 0.0550197 * l - 0.198719)
    with (9.01033e-11 * l ^ 4 + (l * q - 0.198719)) by (unfold q; ring).
  enough (0.198719 < l * q) by lra.
  destruct (Rle_dec 65 l) as [Hb|Hb].
  - assert (65 * 0.0031 <= l * q) by (apply Rmult_le_compat; lra). lra.
  - destruct (Rle_dec 21 l) as [Hc|Hc].
    + assert (Hu : 36.3 * 36.3 <= u)
        by (unfold u; apply Rmult_le_compat; lra).
      assert (21 * 0.0097 <= l * q) by (apply Rmult_le_compat; lra). lra.
    + assert (Hu : 80.3 * 80.3 <= u)
        by (unfold u; apply Rmult_le_compat; lra).
      assert (6 * 0.0357 <= l * q) by (apply Rmult_le_compat; lra). lra.
Qed.

(** The polynomial of (74) in real numbers. *)
Lemma step_size_formula_pos (l : R) :
  0 < l ->
  0 < 5.95072 * Rpower (6.39468 / l) 1.71332 + 9.01033e-11 * l ^ 4
      + 5.05622e-6 * l ^ 3 - 0.00102438 * l * l + 0.0550197 * l - 0.198719.
Proof.
  intros Hl.
  destruct (Rle_dec 6 l) as [H6|H6].
  - pose proof (step_size_polynomial_pos l H6) as Hp.
    pose proof (Rpower_pos (6.39468 / l) 1.71332) as Hr. lra.
  - assert (Hr : 1 < Rpower (6.39468 / l) 1.71332).
    { apply Rpower_gt_1; [|lra].
      apply Rmult_lt_reg_r with l; [exact Hl|].
      unfold Rdiv. rewrite Rmult_assoc, Rinv_l by lra. lra. }
    pose proof (pow4_nonneg l) as H4.
    assert (H3 : 0 <= l ^ 3).
    { replace (l ^ 3) with (l * (l * l)) by ring.
      apply Rmult_le_pos; [lra|]. apply Rmult_le_pos; lra. }
    assert (H2 : l * l <= 6 * 6) by (apply Rmult_le_compat; lra).
    lra.
Qed.

(** X12.  The detection step size of (74) is positive at every level, so
    the divisions [e / s] and [fabs (trunc (e)) / s] of
    [peaq_mov_prob_detect] never divide by zero. *)
Theorem detection_step_size_pos (l : R) : 0 < detection_step_size l.
Proof.
  unfold detection_step_size. unfold_ops.
  destruct (Rlt_bool 0 l) eqn:Hl; [|lra].
  apply Rlt_bool_iff in Hl.
  rewrite c_pow_4, c_pow_3, c_pow_pos by (apply Rdiv_lt_0_compat; lra).
  apply step_size_formula_pos, Hl.
Qed.

End DetectionR.

(** ** More on the detection probability *)

Section ProbDetectMoreR.
Local Open Scope R_scope.

Lemma prob_detect_qc_nonneg (cfg : Settings) (ear_model : PeaqEarModel R)
    (ref_state test_state : nat -> EarModelState R) (k c : nat) :
  0 <= snd (prob_detect_pc_qc cfg ear_model ref_state test_state k c).
Proof.
  unfold prob_detect_pc_qc. cbn [snd].
  match goal with
  | |- context [detection_step_size ?l] =>
      assert (Hs : 0 < detection_step_size l);
      [|set (s := detection_step_size l) in *]
  end.
  { unfold detection_step_size. unfold_ops.
    destruct (Rlt_bool 0 _) eqn:Hl; [|lra].
    apply Rlt_bool_iff in Hl.
    rewrite c_pow_4, c_pow_3, c_pow_pos by (apply Rdiv_lt_0_compat; lra).
    apply step_size_formula_pos, Hl. }
  destruct (USE_FLOOR_FOR_STEPS_ABOVE_THRESHOLD cfg); unfold_ops;
    (apply Rmult_le_pos;
     [apply Rabs_pos | apply Rlt_le, Rinv_0_lt_compat; exact Hs]).
Qed.

(** X13.  The number of steps above the threshold that
    [peaq_mov_prob_detect] computes, and gives to [mov_accum_adb] when the
    frame is detected, is never negative, whatever the excitations and the
    settings. *)
Theorem prob_detect_steps_nonneg (cfg : Settings)
    (ear_model : PeaqEarModel R)
    (ref_state test_state : nat -> EarModelState R) (channels : nat) :
  0 <= snd (prob_detect_bands cfg ear_model ref_state test_state channels) /\
  Forall (fun vw => 0 <= fst vw /\ snd vw = 1)
    (calls_on mov_accum_adb 0
       (peaq_mov_prob_detect cfg ear_model ref_state test_state channels)).
Proof.
  assert (Hsteps :
    0 <= snd (prob_detect_bands cfg ear_model ref_state test_state channels)).
  { unfold prob_detect_bands.
    apply (fold_left_invariant (fun st : R * R => 0 <= snd st)).
    - cbn [snd]. unfold_ops. lra.
    - intros st k _ Hst. cbn [snd]. unfold_ops.
      apply Rplus_le_le_0_compat; [exact Hst|].
      unfold prob_detect_band.
      apply (fold_left_invariant (fun st : R * R => 0 <= snd st)).
      + cbn [snd]. unfold_ops. lra.
      + intros st' c _ Hst'. cbn [snd].
        destruct (_ || _); [apply prob_detect_qc_nonneg | exact Hst']. }
  split; [exact Hsteps|].
  unfold peaq_mov_prob_detect.
  destruct (dlt _ _); calls_on_eval; cbn [app].
  - apply Forall_cons; [|apply Forall_nil].
    cbn [fst snd]. split; [exact Hsteps | reflexivity].
  - apply Forall_nil.
Qed.

Lemma ln_le (x y : R) : 0 < x -> x <= y -> ln x <= ln y.
Proof.
  intros Hx [Hlt| ->]; [|lra]. left. now apply ln_increasing.
Qed.

Lemma ln_10_pos : 0 < ln 10.
Proof. rewrite <- ln_1. apply ln_increasing; lra. Qed.

Lemma c_trunc_floor (x : R) : 0 <= x -> c_trunc x = c_floor x.
Proof.
  intros Hx. unfold c_trunc, c_floor.
  destruct (Rle_dec 0 x); [reflexivity | contradiction].
Qed.

(** X14.  When in every band and channel the excitation of the test signal
    is positive and not above that of the reference signal, the setting
    USE_FLOOR_FOR_STEPS_ABOVE_THRESHOLD has no effect on what
    [peaq_mov_prob_detect] accumulates: floor and trunc differ only for a
    negative level difference. *)
Theorem prob_detect_floor_irrelevant (cfg cfg' : Settings)
    (ear_model : PeaqEarModel R)
    (ref_state test_state : nat -> EarModelState R) (channels : nat) :
  (forall c k,
     (c < channels)%nat ->
     (k < peaq_earmodel_get_band_count ear_model)%nat ->
     0 < peaq_earmodel_get_excitation ear_model (test_state c) k
     <= peaq_earmodel_get_excitation ear_model (ref_state c) k) ->
  peaq_mov_prob_detect cfg ear_model ref_state test_state channels
  = peaq_mov_prob_detect cfg' ear_model ref_state test_state channels.
Proof.
  intros Hexc.
  assert (Hpq : forall c k,
    (c < channels)%nat ->
    (k < peaq_earmodel_get_band_count ear_model)%nat ->
    prob_detect_pc_qc cfg ear_model ref_state test_state k c
    = prob_detect_pc_qc cfg' ear_model ref_state test_state k c).
  { intros c k Hc Hk. specialize (Hexc c k Hc Hk).
    unfold prob_detect_pc_qc. f_equal. unfold_ops.
    assert (He : 0 <=
              10 * c_log10
                 (peaq_earmodel_get_excitation ear_model (ref_state c) k)
              - 10 * c_log10
                 (peaq_earmodel_get_excitation ear_model (test_state c) k)).
    { unfold c_log10.
      pose proof ln_10_pos as H10.
      pose proof (ln_le _ _ (proj1 Hexc) (proj2 Hexc)) as Hln.
      assert (ln (peaq_earmodel_get_excitation ear_model (test_state c) k)
              / ln 10
              <= ln (peaq_earmodel_get_excitation ear_model (ref_state c) k)
                 / ln 10).
      { apply Rmult_le_compat_r; [|exact Hln].
        apply Rlt_le, Rinv_0_lt_compat, H10. }
      lra. }
    rewrite (c_trunc_floor _ He).
    destruct (USE_FLOOR_FOR_STEPS_ABOVE_THRESHOLD cfg),
      (USE_FLOOR_FOR_STEPS_ABOVE_THRESHOLD cfg'); reflexivity. }
  assert (Hbands :
    prob_detect_bands cfg ear_model ref_state test_state channels
    = prob_detect_bands cfg' ear_model ref_state test_state channels).
  { unfold prob_detect_bands. apply fold_left_ext_in.
    intros st k Hk. apply in_seq in Hk.
    replace (prob_detect_band cfg ear_model ref_state test_state channels k)
      with (prob_detect_band cfg' ear_model ref_state test_state channels k);
      [reflexivity|].
    unfold prob_detect_band. apply fold_left_ext_in.
    intros st' c Hc. apply in_seq in Hc.
    rewrite (Hpq c k) by lia. reflexivity. }
  unfold peaq_mov_prob_detect. rewrite Hbands. reflexivity.
Qed.

Lemma prob_detect_floor_irrelevant_witness :
  peaq_mov_prob_detect pinned_settings Examples.ear_model1
    (fun _ => Examples.state_of 2 (fun _ => 1) true)
    (fun _ => Examples.state1) 1
  = peaq_mov_prob_detect MoreExamples.floor_settings Examples.ear_model1
      (fun _ => Examples.state_of 2 (fun _ => 1) true)
      (fun _ => Examples.state1) 1.
Proof.
  apply (prob_detect_floor_irrelevant pinned_settings
           MoreExamples.floor_settings Examples.ear_model1
           (fun _ => Examples.state_of 2 (fun _ => 1) true)
           (fun _ => Examples.state1) 1).
  intros c k _ _.
  cbv [peaq_earmodel_get_excitation state_excitation Examples.state1
       Examples.state_of].
  lra.
Defined.

(** X15.  For identical positive excitations of the reference and the test
    signal no band is detected: [mov_accum_mfpd] receives the probability 0
    and [mov_accum_adb] receives nothing, under every setting. *)
Theorem prob_detect_identical_signals (cfg : Settings)
    (ear_model : PeaqEarModel R)
    (ref_state test_state : nat -> EarModelState R) (channels : nat) :
  (forall c k,
     (c < channels)%nat ->
     (k < peaq_earmodel_get_band_count ear_model)%nat ->
     0 < peaq_earmodel_get_excitation ear_model (ref_state c) k /\
     peaq_earmodel_get_excitation ear_model (test_state c) k
     = peaq_earmodel_get_excitation ear_model (ref_state c) k) ->
  peaq_mov_prob_detect cfg ear_model ref_state test_state channels
  = [Accumulate mov_accum_mfpd 0 0 1].
Proof.
  intros Hexc.
  assert (Hpq : forall c k,
    (c < channels)%nat ->
    (k < peaq_earmodel_get_band_count ear_model)%nat ->
    prob_detect_pc_qc cfg ear_model ref_state test_state k c = (0, 0)).
  { intros c k Hc Hk. destruct (Hexc c k Hc Hk) as [_ E].
    unfold prob_detect_pc_qc. rewrite E.
    match goal with
    | |- context [detection_step_size ?l] =>
        set (s := detection_step_size l)
    end.
    unfold_ops.
    match goal with
    | |- context [10 * c_log10 ?x - 10 * c_log10 ?x] =>
        replace (10 * c_log10 x - 10 * c_log10 x) with 0 by lra
    end.
    unfold Rlt_bool at 1.
    destruct (Rlt_dec _ _) as [Hlt|_]; [lra|].
    replace (0 / s) with 0 by (unfold Rdiv; lra).
    rewrite c_pow_6, pow_i by lia.
    rewrite c_pow_pos by lra. rewrite Rpower_O by lra.
    assert (Et : c_trunc 0 = 0).
    { rewrite c_trunc_floor by lra. unfold c_floor.
      replace (Int_part 0) with 0%Z; [reflexivity|].
      apply Int_part_spec. cbn. lra. }
    assert (Ef : c_floor 0 = 0).
    { rewrite <- c_trunc_floor by lra. exact Et. }
    rewrite Et, Ef, Rabs_R0.
    destruct (USE_FLOOR_FOR_STEPS_ABOVE_THRESHOLD cfg);
      f_equal; unfold Rdiv; lra. }
  assert (Hband : forall k,
    (k < peaq_earmodel_get_band_count ear_model)%nat ->
    prob_detect_band cfg ear_model ref_state test_state channels k = (0, 0)).
  { intros k Hk. unfold prob_detect_band.
    apply (fold_left_invariant (fun st : R * R => st = (0, 0)));
      [reflexivity|].
    intros st c Hc ->. apply in_seq in Hc.
    rewrite (Hpq c k) by lia. cbn [fst snd]. unfold_ops.
    destruct (Rlt_bool 0 0), (Nat.eqb c 0); reflexivity. }
  assert (Hbands :
    prob_detect_bands cfg ear_model ref_state test_state channels = (1, 0)).
  { unfold prob_detect_bands.
    apply (fold_left_invariant (fun st : R * R => st = (1, 0)));
      [reflexivity|].
    intros st k Hk ->. apply in_seq in Hk.
    rewrite (Hband k) by lia. cbn [fst snd]. unfold_ops. f_equal; lra. }
  unfold peaq_mov_prob_detect. rewrite Hbands. cbn [fst snd]. unfold_ops.
  replace (1 - 1) with 0 by lra.
  replace (Rlt_bool 0.5 0) with false; [reflexivity|].
  symmetry. apply Rlt_bool_false. lra.
Qed.

Lemma prob_detect_identical_signals_witness :
  peaq_mov_prob_detect pinned_settings Examples.ear_model1
    (fun _ => Examples.state1) (fun _ => Examples.state1) 1
  = [Accumulate mov_accum_mfpd 0 0 1].
Proof.
  apply (prob_detect_identical_signals pinned_settings Examples.ear_model1
           (fun _ => Examples.state1) (fun _ => Examples.state1) 1).
  intros c k _ _.
  cbv [peaq_earmodel_get_excitation state_excitation Examples.state1
       Examples.state_of].
  split; [lra | reflexivity].
Defined.

End ProbDetectMoreR.

(** ** The noise-to-mask ratio *)

Section NmrMoreR.
Local Open Scope R_scope.

(** X16.  For weighted power spectra without negative values the noise
    spectrum of [peaq_mov_nmr] is the squared difference of the magnitudes
    (the square roots of the powers): it is never negative, it is symmetric
    in the two signals and it vanishes where they have the same power. *)
Theorem nmr_noise_spectrum_square
    (ref_weighted_power_spectrum test_weighted_power_spectrum : nat -> R)
    (k : nat) :
  0 <= ref_weighted_power_spectrum k ->
  0 <= test_weighted_power_spectrum k ->
  let noise :=
    nmr_noise_spectrum ref_weighted_power_spectrum
      test_weighted_power_spectrum k in
  noise = (sqrt (ref_weighted_power_spectrum k)
           - sqrt (test_weighted_power_spectrum k)) ^ 2 /\
  0 <= noise /\
  noise = nmr_noise_spectrum test_weighted_power_spectrum
            ref_weighted_power_spectrum k /\
  (ref_weighted_power_spectrum k = test_weighted_power_spectrum k ->
   noise = 0).
Proof.
  intros Ha Hb noise.
  assert (E : noise = (sqrt (ref_weighted_power_spectrum k)
                       - sqrt (test_weighted_power_spectrum k)) ^ 2).
  { unfold noise, nmr_noise_spectrum. unfold_ops.
    rewrite sqrt_mult by assumption.
    pose proof (sqrt_sqrt _ Ha) as Ea. pose proof (sqrt_sqrt _ Hb) as Eb.
    set (x := sqrt (ref_weighted_power_spectrum k)) in *.
    set (y := sqrt (test_weighted_power_spectrum k)) in *.
    clearbody x y. rewrite <- Ea, <- Eb. ring. }
  split; [exact E|]. split; [|split].
  - rewrite E. apply pow2_ge_0.
  - unfold noise, nmr_noise_spectrum. unfold_ops.
    rewrite (Rmult_comm (test_weighted_power_spectrum k)). lra.
  - intros Hsame. rewrite E, Hsame. ring.
Qed.

Lemma nmr_noise_spectrum_square_witness :
  nmr_noise_spectrum (fun _ => 4) (fun _ => 1) 0
  = (sqrt 4 - sqrt 1) ^ 2.
Proof.
  apply (nmr_noise_spectrum_square (fun _ => 4) (fun _ => 1) 0); lra.
Defined.

Lemma sum_le_max_loop (f : nat -> R) (l : list nat) (a b : R) :
  let st := fold_left
              (fun st k => (dadd (fst st) (f k),
                            if dlt (snd st) (f k) then f k else snd st))
              l (a, b) in
  fst st - a <= INR (length l) * snd st /\ b <= snd st.
Proof.
  revert a b. induction l as [|k l IH]; intros a b.
  - cbn [fold_left fst snd length INR]. lra.
  - cbn [fold_left fst snd]. cbv zeta in IH.
    specialize (IH (dadd a (f k)) (if dlt b (f k) then f k else b)).
    destruct IH as [Hsum Hmax].
    set (st := fold_left _ l _) in *.
    assert (Hb : b <= (if dlt b (f k) then f k else b)
                 /\ f k <= (if dlt b (f k) then f k else b)).
    { unfold_ops. unfold Rlt_bool. destruct (Rlt_dec b (f k)); lra. }
    change (length (k :: l)) with (S (length l)). rewrite S_INR.
    unfold_ops. split; lra.
Qed.

(** X17.  The mean of the band-wise noise-to-mask ratios of a channel does
    not exceed their running maximum; so a frame whose mean ratio is above
    1.41253754462275 (1.5 dB) in a channel is counted as disturbed for that
    channel, in every mode of [mov_accum_nmr]. *)
Theorem nmr_mean_le_max (ear_model : PeaqFFTEarModel R)
    (ref_state test_state : nat -> EarModelState R) (channels c : nat)
    (mov_accum_nmr_mode : PeaqMovAccumMode) :
  (c < channels)%nat ->
  let Z := peaq_earmodel_get_band_count (PEAQ_EARMODEL ear_model) in
  (0 < Z)%nat ->
  let st := nmr_band_loop ear_model ref_state test_state c in
  let nmr := fst st / INR Z in
  let nmr_max := snd st in
  nmr <= nmr_max /\
  (1.41253754462275 < nmr ->
   calls_on mov_accum_rel_dist_frames c
     (peaq_mov_nmr ear_model ref_state test_state channels
        mov_accum_nmr_mode true)
   = [(1, 1)]).
Proof.
  intros Hc Z HZ st nmr nmr_max.
  assert (Hle : nmr <= nmr_max).
  { destruct (sum_le_max_loop
                (nmr_curr_nmr ear_model ref_state test_state c)
                (seq 0 Z) 0 0) as [Hsum Hmax].
    cbv zeta in Hsum, Hmax. rewrite length_seq in Hsum.
    assert (Hsum' : fst st - 0 <= INR Z * snd st) by exact Hsum.
    assert (HZ' : 0 < INR Z) by (apply lt_0_INR; exact HZ).
    unfold nmr, nmr_max.
    apply Rmult_le_reg_l with (INR Z); [exact HZ'|].
    unfold Rdiv. rewrite <- Rmult_assoc, Rinv_r_simpl_m by lra. lra. }
  split; [exact Hle|]. intros Hnmr.
  replace (calls_on mov_accum_rel_dist_frames c
             (peaq_mov_nmr ear_model ref_state test_state channels
                mov_accum_nmr_mode true))
    with (calls_on mov_accum_rel_dist_frames c
            (peaq_mov_nmr_channel ear_model ref_state test_state
               mov_accum_nmr_mode true c)).
  - unfold peaq_mov_nmr_channel. fold st. fold nmr_max.
    replace (dlt ONE_POINT_FIVE_DB_POWER_FACTOR nmr_max) with true.
    + destruct (PeaqMovAccumMode_eqb _ _); calls_on_eval; reflexivity.
    + symmetry. unfold ONE_POINT_FIVE_DB_POWER_FACTOR. unfold_ops.
      apply Rlt_bool_iff. lra.
  - symmetry. unfold peaq_mov_nmr.
    apply calls_on_flat_map; [|lia].
    intros c' k. unfold peaq_mov_nmr_channel. intros Hin.
    apply in_app_or in Hin. destruct Hin as [Hin|Hin].
    + destruct (PeaqMovAccumMode_eqb _ _); destruct Hin as [<-|[]];
        reflexivity.
    + destruct Hin as [<-|[]]. reflexivity.
Qed.

Lemma nmr_mean_le_max_witness :
  fst (nmr_band_loop Examples.fft_ear_model1
         (fun _ => Examples.state_of 1 (fun _ => 4) true)
         (fun _ => Examples.state1) 0) / INR 1
  <= snd (nmr_band_loop Examples.fft_ear_model1
            (fun _ => Examples.state_of 1 (fun _ => 4) true)
            (fun _ => Examples.state1) 0).
Proof.
  apply (nmr_mean_le_max Examples.fft_ear_model1
           (fun _ => Examples.state_of 1 (fun _ => 4) true)
           (fun _ => Examples.state1) 1 0 MODE_AVG_LOG).
  - apply Nat.lt_0_succ.
  - apply Nat.lt_0_succ.
Defined.

End NmrMoreR.

(** ** The error harmonic structure *)

Section EHSMoreR.
Local Open Scope R_scope.

(** The scan for the largest rising bin, from bin [s] on. *)
Lemma peak_scan_spec (mag : nat -> R) (n s : nat) (e0 : R) :
  (1 <= s)%nat ->
  let e :=
    snd (fold_left
           (fun st k =>
              (mag k,
               if dlt (fst st) (mag k) && dlt (snd st) (mag k)
               then mag k else snd st))
           (seq s n) (mag (s - 1)%nat, e0)) in
  e0 <= e /\
  (forall k, (s <= k < s + n)%nat -> mag (k - 1)%nat < mag k -> mag k <= e) /\
  (e = e0 \/
   exists k, (s <= k < s + n)%nat /\ mag (k - 1)%nat < mag k /\ e = mag k).
Proof.
  revert s e0. induction n as [|n IH]; intros s e0 Hs.
  - cbn [seq fold_left snd]. split; [lra|]. split; [intros k Hk; lia|].
    now left.
  - cbn [seq fold_left fst snd].
    set (e1 := if dlt (mag (s - 1)%nat) (mag s) && dlt e0 (mag s)
               then mag s else e0).
    specialize (IH (S s) e1 ltac:(lia)).
    replace (S s - 1)%nat with s in IH by lia.
    cbv zeta in IH. destruct IH as (Hge & Hrise & Hatt).
    set (e := snd (fold_left _ (seq (S s) n) (mag s, e1))) in *.
    assert (He1 : e0 <= e1 /\ (mag (s - 1)%nat < mag s -> mag s <= e1) /\
                  (e1 = e0 \/ (mag (s - 1)%nat < mag s /\ e1 = mag s))).
    { unfold e1. unfold_ops. unfold Rlt_bool.
      destruct (Rlt_dec (mag (s - 1)%nat) (mag s)),
        (Rlt_dec e0 (mag s)); cbn [andb];
        (split; [lra|]); (split; [intros; lra|]); auto. }
    destruct He1 as (H01 & Hs1 & Hatt1).
    split; [lra|]. split.
    + intros k Hk Hr. destruct (Nat.eq_dec k s) as [->|Hne].
      * specialize (Hs1 Hr). lra.
      * apply Hrise; [lia | exact Hr].
    + destruct Hatt as [E|(k & Hk & Hr & E)].
      * destruct Hatt1 as [E1|(Hr & E1)].
        -- left. congruence.
        -- right. exists s. split; [lia|]. split; [exact Hr | congruence].
      * right. exists k. split; [lia|]. now split.
Qed.

Lemma ehs_peak_scan_from (cfg : Settings)
    (c_fft : nat -> GstFFTF64Complex R) (l : list nat) (s0 s0' : R * R) :
  s0 = s0' ->
  (forall k, In k l -> (1 <= k)%nat) ->
  fold_left
    (fun st k =>
       let new_s :=
         dadd (dmul (r (c_fft k)) (r (c_fft k)))
              (dmul (i (c_fft k)) (i (c_fft k))) in
       (new_s,
        if dlt (fst st) new_s && dlt (snd st) new_s
        then new_s else snd st))
    l s0
  = fold_left
      (fun st k =>
         (ehs_magnitude cfg c_fft k,
          if dlt (fst st) (ehs_magnitude cfg c_fft k)
             && dlt (snd st) (ehs_magnitude cfg c_fft k)
          then ehs_magnitude cfg c_fft k else snd st))
      l s0'.
Proof.
  intros <- Hl. apply fold_left_ext_in.
  intros st k Hk. apply Hl in Hk.
  destruct k as [|k]; [lia | reflexivity].
Qed.

(** [ehs_peak] is the scan over the squared magnitudes. *)
Lemma ehs_peak_scan (cfg : Settings) (c_fft : nat -> GstFFTF64Complex R) :
  ehs_peak cfg c_fft
  = snd (fold_left
           (fun st k =>
              (ehs_magnitude cfg c_fft k,
               if dlt (fst st) (ehs_magnitude cfg c_fft k)
                  && dlt (snd st) (ehs_magnitude cfg c_fft k)
               then ehs_magnitude cfg c_fft k else snd st))
           (seq 1 (MAXLAG / 2)) (ehs_magnitude cfg c_fft 0, 0)).
Proof.
  unfold ehs_peak. cbv zeta. apply (f_equal snd).
  apply ehs_peak_scan_from; [reflexivity|].
  intros k Hk. apply in_seq in Hk. lia.
Qed.

(** X18.  The value [ehs] that the scan of [peaq_mov_ehs] leaves is never
    negative, is at least the squared magnitude of every bin in
    1 .. MAXLAG / 2 that is larger than the bin before it, and is either 0
    or the squared magnitude of such a bin: the largest rising bin, or 0
    when no bin rises. *)
Theorem ehs_peak_largest_rising_bin (cfg : Settings)
    (c_fft : nat -> GstFFTF64Complex R) :
  let mag := ehs_magnitude cfg c_fft in
  let ehs := ehs_peak cfg c_fft in
  0 <= ehs /\
  (forall k, (1 <= k <= MAXLAG / 2)%nat ->
             mag (k - 1)%nat < mag k -> mag k <= ehs) /\
  (ehs = 0 \/
   exists k, (1 <= k <= MAXLAG / 2)%nat /\
             mag (k - 1)%nat < mag k /\ ehs = mag k).
Proof.
  intros mag ehs. unfold ehs. rewrite ehs_peak_scan.
  pose proof (peak_scan_spec mag (MAXLAG / 2) 1 0 (le_n 1)) as Hscan.
  cbv zeta in Hscan. change (1 - 1)%nat with 0%nat in Hscan.
  destruct Hscan as (Hge & Hrise & Hatt).
  split; [exact Hge|]. split.
  - intros k Hk. apply Hrise. lia.
  - destruct Hatt as [E|(k & Hk & Hr & E)]; [now left|].
    right. exists k. split; [lia|]. now split.
Qed.

(** X19.  Every value [peaq_mov_ehs] gives to its accumulator is 1000 times
    a value of the scan, hence never negative, and has weight 1; this holds
    for every FFT. *)
Theorem ehs_values_nonneg
    (gst_fft_f64_fft : nat -> (nat -> R) -> nat -> GstFFTF64Complex R)
    (gst_fft_f64_inverse_fft : nat -> (nat -> GstFFTF64Complex R) -> nat -> R)
    (cfg : Settings) (ear_model : PeaqEarModel R)
    (ref_state test_state : nat -> EarModelState R) (channels : nat) :
  Forall (fun call => 0 <= call_val call /\ call_weight call = 1)
    (peaq_mov_ehs gst_fft_f64_fft gst_fft_f64_inverse_fft cfg ear_model
       ref_state test_state channels).
Proof.
  apply Forall_forall. intros call.
  unfold peaq_mov_ehs. destruct (negb _); [intros []|].
  intros Hin. apply in_map_iff in Hin. destruct Hin as (chan & <- & _).
  cbn [call_val call_weight]. split; [|reflexivity].
  unfold ehs_channel. rewrite ehs_peak_scan.
  match goal with
  | |- context [ehs_magnitude cfg ?f] =>
      pose proof (peak_scan_spec (ehs_magnitude cfg f) (MAXLAG / 2) 1 0
                    (le_n 1)) as Hscan
  end.
  cbv zeta in Hscan. change (1 - 1)%nat with 0%nat in Hscan.
  destruct Hscan as (Hge & _).
  unfold_ops. apply Rmult_le_pos; [lra | exact Hge].
Qed.

Lemma Rsum_S (f : nat -> R) (n : nat) : Rsum f (S n) = Rsum f n + f n.
Proof.
  unfold Rsum. rewrite seq_S, map_app, fold_right_app. cbn [map fold_right].
  rewrite Nat.add_0_l.
  generalize (seq 0 n). intros l. induction l as [|k l IH];
    cbn [map fold_right]; [lra|]. rewrite IH. lra.
Qed.

Lemma Rsum_shift (f : nat -> R) (n : nat) :
  Rsum (fun j => f (S j)) n = Rsum f n + f n - f 0%nat.
Proof.
  induction n as [|n IH].
  - unfold Rsum. cbn [seq map fold_right]. lra.
  - rewrite !Rsum_S, IH. lra.
Qed.

Lemma Rsum_ext (f g : nat -> R) (n : nat) :
  (forall j, f j = g j) -> Rsum f n = Rsum g n.
Proof.
  intros Hfg. unfold Rsum. f_equal. apply map_ext. exact Hfg.
Qed.

Lemma Rsum_nonneg (f : nat -> R) (n : nat) :
  (forall j, 0 <= f j) -> 0 <= Rsum f n.
Proof.
  intros Hf. induction n as [|n IH].
  - unfold Rsum. cbn [seq map fold_right]. lra.
  - rewrite Rsum_S. specialize (Hf n). lra.
Qed.

(** X20.  The running value [dk] of the normalisation loop is the energy of
    the window of MAXLAG values that starts at [k], when it starts from the
    energy of the first MAXLAG values (the correlation at lag 0); so it is
    never negative. *)
Theorem ehs_dk_window_energy (d : nat -> R) (k : nat) :
  let d0 := Rsum (fun j => d j * d j) MAXLAG in
  ehs_dk d d0 k = Rsum (fun j => d (j + k)%nat * d (j + k)%nat) MAXLAG /\
  0 <= ehs_dk d d0 k.
Proof.
  intros d0.
  assert (E : ehs_dk d d0 k
              = Rsum (fun j => d (j + k)%nat * d (j + k)%nat) MAXLAG).
  { induction k as [|k IH].
    - cbn [ehs_dk]. unfold d0. apply Rsum_ext.
      intros j. now rewrite Nat.add_0_r.
    - cbn [ehs_dk]. rewrite IH. unfold_ops.
      pose proof (Rsum_shift (fun j => d (j + k)%nat * d (j + k)%nat) MAXLAG)
        as Hs.
      cbn beta in Hs. rewrite Nat.add_0_l in Hs.
      rewrite (Nat.add_comm MAXLAG k) in Hs.
      replace (Rsum (fun j => d (j + S k)%nat * d (j + S k)%nat) MAXLAG)
        with (Rsum (fun j => d (S j + k)%nat * d (S j + k)%nat) MAXLAG).
      + rewrite Hs. lra.
      + apply Rsum_ext. intros j.
        now replace (S j + k)%nat with (j + S k)%nat by lia. }
  split; [exact E|]. rewrite E. apply Rsum_nonneg.
  intros j. apply Rle_0_sqr.
Qed.

(** X21.  Where both weighted power spectra are positive, the log spectrum
    of the error changes sign when the reference and the test signal are
    exchanged; where they are equal it is 0. *)
Theorem ehs_d_antisymmetric (ref_power_spectrum test_power_spectrum : nat -> R)
    (k : nat) :
  0 < ref_power_spectrum k ->
  0 < test_power_spectrum k ->
  ehs_d ref_power_spectrum test_power_spectrum k
  = - ehs_d test_power_spectrum ref_power_spectrum k /\
  (ref_power_spectrum k = test_power_spectrum k ->
   ehs_d ref_power_spectrum test_power_spectrum k = 0).
Proof.
  intros Ha Hb.
  assert (Hz : forall x y, 0 < x -> Req_bool x 0 && Req_bool y 0 = false).
  { intros x y Hx. replace (Req_bool x 0) with false; [reflexivity|].
    unfold Req_bool. destruct (Req_dec_T x 0); [lra | reflexivity]. }
  unfold ehs_d. unfold_ops. rewrite !Hz by assumption.
  assert (Hi : forall x, 0 < x -> 0 < / x)
    by (intros x Hx; now apply Rinv_0_lt_compat).
  unfold Rdiv. rewrite !ln_mult, !ln_Rinv by auto.
  split; [lra|]. intros ->. lra.
Qed.

Lemma ehs_d_antisymmetric_witness :
  ehs_d (fun _ => 2) (fun _ => 1) 0 = - ehs_d (fun _ => 1) (fun _ => 2) 0.
Proof.
  apply (ehs_d_antisymmetric (fun _ => 2) (fun _ => 1) 0); lra.
Defined.

Lemma INR_MAXLAG_pos : 0 < INR MAXLAG.
Proof. apply lt_0_INR. unfold MAXLAG. lia. Qed.

(** X22.  The correlation window lies between 0 and
    [2 * 0.81649658092773 / MAXLAG] at every lag, for both settings of
    CENTER_EHS_CORRELATION_WINDOW. *)
Theorem correlation_window_range (cfg : Settings) (k : nat) :
  0 <= correlation_window cfg k <= 2 * 0.81649658092773 / INR MAXLAG.
Proof.
  pose proof INR_MAXLAG_pos as HM.
  assert (Hi : 0 < / INR MAXLAG) by now apply Rinv_0_lt_compat.
  unfold correlation_window.
  destruct (CENTER_EHS_CORRELATION_WINDOW cfg); unfold_ops;
    match goal with
    | |- context [cos ?x] => pose proof (COS_bound x) as [Hlo Hhi];
                             set (w := cos x) in *
    end; unfold Rdiv; split.
  - apply Rmult_le_pos; [|lra]. apply Rmult_le_pos; lra.
  - apply Rmult_le_compat_r; lra.
  - apply Rmult_le_pos; [|lra]. apply Rmult_le_pos; lra.
  - apply Rmult_le_compat_r; lra.
Qed.

(** X23.  With the window that is not centred at lag 0 and the mean
    subtracted after windowing, the windowed correlation is 0 at lag 0: the
    lag-0 term of the correlation does not enter the spectrum. *)
Theorem ehs_window_discards_lag0 (cfg : Settings) (d c : nat -> R) :
  CENTER_EHS_CORRELATION_WINDOW cfg = false ->
  EHS_SUBTRACT_DC_BEFORE_WINDOW cfg = false ->
  c 0%nat <> 0 ->
  correlation_window cfg 0 = 0 /\ ehs_windowed cfg d c 0 = 0.
Proof.
  intros Hcen Hsub _.
  assert (Hw : correlation_window cfg 0 = 0).
  { unfold correlation_window. rewrite Hcen. unfold_ops.
    replace (2 * M_PI * INR 0 / INR (MAXLAG - 1)) with 0
      by (cbn [INR]; unfold Rdiv; ring).
    rewrite cos_0. unfold Rdiv. ring. }
  split; [exact Hw|].
  unfold ehs_windowed. rewrite Hsub, Hw. unfold_ops.
  unfold Rdiv. ring.
Qed.

Lemma ehs_window_discards_lag0_witness :
  ehs_windowed pinned_settings (fun _ => 1) (fun _ => 1) 0 = 0.
Proof.
  apply (ehs_window_discards_lag0 pinned_settings (fun _ => 1) (fun _ => 1)).
  - reflexivity.
  - reflexivity.
  - lra.
Defined.

End EHSMoreR.
